(** * Log shipping from a container to a remote log stream (main.py)

    A shallow embedding of [create_log_group], [create_log_stream],
    [push_log_events] and [main], and the properties of the batching,
    retry, cursor and cleanup logic.

    The two collaborators (the container runtime and the log store) are
    the environment: a record of answers, one per call the program
    makes.  The program is written in a state-and-exception monad whose
    state is the history of the calls made so far. *)

From Stdlib Require Import String Ascii List Arith Lia Bool ZArith.
Import ListNotations.
Open Scope string_scope.
Open Scope list_scope.
Open Scope nat_scope.

(** ** Text: [str.strip] and truthiness *)

(** [str.isspace] on one character, for the code points below 256:
    TAB..CR, FS..US, SPACE, NEL and NBSP. *)
Definition isspace (a : ascii) : bool :=
  let n := nat_of_ascii a in
  ((9 <=? n) && (n <=? 13)) || ((28 <=? n) && (n <=? 32))
  || (n =? 133) || (n =? 160).

Fixpoint lstrip (s : string) : string :=
  match s with
  | EmptyString => EmptyString
  | String a s' => if isspace a then lstrip s' else s
  end.

Fixpoint rstrip (s : string) : string :=
  match s with
  | EmptyString => EmptyString
  | String a s' =>
      match rstrip s' with
      | EmptyString => if isspace a then EmptyString else String a EmptyString
      | r => String a r
      end
  end.

(** [s.strip()] *)
Definition strip (s : string) : string := rstrip (lstrip s).

(** Truth value of a [str]: non-empty. *)
Definition truthy_str (s : string) : bool :=
  match s with EmptyString => false | String _ _ => true end.

(** The spec's "empty or whitespace-only", stated without [strip]. *)
Fixpoint whitespace_only (s : string) : bool :=
  match s with
  | EmptyString => true
  | String a s' => isspace a && whitespace_only s'
  end.

(** ** Data *)

(** A wall-clock reading ([datetime.now(utc).timestamp()]); the program
    stores it and never inspects it. *)
Definition instant := Z.

(** [{'timestamp': ..., 'message': ...}] *)
Record LogEvent := mkEvent { timestamp : instant; message : string }.

Definition batch := list LogEvent.

(** A sequence token as the program holds it: [None] or a [str]. *)
Definition cursor := option string.

(** Truth value of [sequence_token]: neither [None] nor the empty string. *)
Definition truthy (c : cursor) : bool :=
  match c with None => false | Some t => truthy_str t end.

(** The keyword arguments of [client.put_log_events]; [sequenceToken] is
    [None] when the key is absent. *)
Record kwargs := mkKwargs {
  logGroupName : string;
  logStreamName : string;
  logEvents : batch;
  sequenceToken : option string
}.

(** Exceptions, by the classes the handlers of [main.py] tell apart.
    [APIError] is a subclass of [DockerException]; everything but
    [BaseException] is a subclass of [Exception]. *)
Inductive exn :=
| APIError (msg : string)                (* docker.errors.APIError *)
| DockerException (msg : string)         (* another docker.errors.DockerException *)
| ClientError (code msg : string)        (* botocore ClientError, e.response['Error']['Code'] *)
| OtherException (msg : string)          (* any other subclass of Exception *)
| BaseException (msg : string).          (* KeyboardInterrupt, SystemExit, ... *)

Definition str (e : exn) : string :=
  match e with
  | APIError m | DockerException m | ClientError _ m
  | OtherException m | BaseException m => m
  end.

Definition is_APIError (e : exn) : bool :=
  match e with APIError _ => true | _ => false end.

Definition is_DockerException (e : exn) : bool :=
  match e with APIError _ | DockerException _ => true | _ => false end.

Definition is_ClientError (e : exn) : bool :=
  match e with ClientError _ _ => true | _ => false end.

Definition is_Exception (e : exn) : bool :=
  match e with BaseException _ => false | _ => true end.

(** [client.exceptions.ResourceAlreadyExistsException] *)
Definition is_ResourceAlreadyExists (e : exn) : bool :=
  match e with
  | ClientError code _ => String.eqb code "ResourceAlreadyExistsException"
  | _ => false
  end.

(** [e.response['Error']['Code'] == 'ThrottlingException'], for a
    [ClientError]. *)
Definition is_throttling (e : exn) : bool :=
  match e with
  | ClientError code _ => String.eqb code "ThrottlingException"
  | _ => false
  end.

(** What one [client.put_log_events] call does: it returns a response
    whose ['nextSequenceToken'] is the given value, or it raises.  A
    response without the key is [PutRaise] of the [KeyError] that the
    lookup raises inside the same [try]. *)
Inductive put_result :=
| PutOk (nextSequenceToken : cursor)
| PutRaise (e : exn).

Inductive level := INFO | WARNING | ERROR.

(** The calls the program makes on its collaborators, with what they
    answered. *)
Inductive event :=
| EvClient (r : option exn)                                   (* boto3.client('logs', ...) *)
| EvCreateLogGroup (group : string) (r : option exn)          (* client.create_log_group *)
| EvCreateLogStream (group stream : string) (r : option exn)  (* client.create_log_stream *)
| EvFromEnv (r : option exn)                                  (* docker.from_env() *)
| EvRun (image command : string) (r : option exn)             (* client.containers.run *)
| EvLogs (stream : bool)                                      (* container.logs(stream=...) *)
| EvPut (kw : kwargs) (r : put_result)                        (* client.put_log_events *)
| EvSleep (seconds : nat)                                     (* time.sleep *)
| EvLog (lvl : level) (msg : string)                          (* logger.info/warning/error *)
| EvStop (r : option exn)                                     (* container.stop() *)
| EvRemove (r : option exn).                                  (* container.remove() *)

(** The environment.  An answer of type [option exn] is [None] when the
    call returns and [Some e] when it raises [e]. *)
Record env := mkEnv {
  boto3_client : option exn;
  client_create_log_group : option exn;
  client_create_log_stream : option exn;
  docker_from_env : option exn;
  containers_run : option exn;            (* [None]: a container handle is returned *)
  (** The items the streaming read yields, decoded, in order, and how the
      iteration ends: exhausted ([None]) or with an exception, raised by
      the read or by decoding the next item. *)
  logs_stream : list string;
  logs_stream_end : option exn;
  (** The same for the second, non-streaming read. *)
  logs_drain : list string;
  logs_drain_end : option exn;
  (** The answer to the [i]-th [put_log_events] call of the run. *)
  client_put_log_events : nat -> kwargs -> put_result;
  (** The [i]-th clock reading of the run. *)
  clock : nat -> instant;
  container_stop : option exn;
  container_remove : option exn
}.

(** [argparse.Namespace] *)
Record Namespace := mkArgs {
  docker_image : string;
  bash_command : string;
  aws_cloudwatch_group : string;
  aws_cloudwatch_stream : string;
  aws_access_key_id : string;
  aws_secret_access_key : string;
  aws_region : string
}.

(** ** The monad *)

(** How a computation ends.  [OutOfFuel] stands for a retry recursion
    that was cut: the program is still retrying. *)
Inductive result (A : Type) :=
| Return (a : A)
| Raise (e : exn)
| OutOfFuel.
Arguments Return {A} a.
Arguments Raise {A} e.
Arguments OutOfFuel {A}.

Record state := mkState {
  puts : nat;            (* [put_log_events] calls made *)
  ticks : nat;           (* clock readings taken *)
  trace : list event     (* calls made, oldest first *)
}.

Definition init : state := mkState 0 0 [].

Definition M (A : Type) := state -> result A * state.

Definition ret {A} (a : A) : M A := fun s => (Return a, s).

Definition bind {A B} (m : M A) (k : A -> M B) : M B :=
  fun s =>
    match m s with
    | (Return a, s') => k a s'
    | (Raise e, s') => (Raise e, s')
    | (OutOfFuel, s') => (OutOfFuel, s')
    end.

Notation "x <- m ;; k" := (bind m (fun x => k))
  (at level 61, m at next level, right associativity).
Notation "m ;; k" := (bind m (fun _ => k))
  (at level 61, right associativity).

Definition raise {A} (e : exn) : M A := fun s => (Raise e, s).

Definition out_of_fuel {A} : M A := fun s => (OutOfFuel, s).

Definition emit (ev : event) : M unit :=
  fun s => (Return tt, mkState (puts s) (ticks s) (trace s ++ [ev])).

(** Return or raise, as the environment answered. *)
Definition answer (r : option exn) : M unit :=
  match r with None => ret tt | Some e => raise e end.

(** The first [except] clause whose class matches. *)
Fixpoint select {A} (clauses : list ((exn -> bool) * (exn -> M A))) (e : exn)
  : option (M A) :=
  match clauses with
  | [] => None
  | (cls, handler) :: rest => if cls e then Some (handler e) else select rest e
  end.

(** [try: body  except C1 as e: h1  except C2 as e: h2 ...] *)
Definition try_except {A} (body : M A)
    (clauses : list ((exn -> bool) * (exn -> M A))) : M A :=
  fun s =>
    match body s with
    | (Raise e, s') =>
        match select clauses e with
        | Some h => h s'
        | None => (Raise e, s')
        end
    | other => other
    end.

(** [try: body  finally: fin].  An exception of [fin] replaces the
    pending outcome. *)
Definition try_finally {A} (body : M A) (fin : M unit) : M A :=
  fun s =>
    match body s with
    | (OutOfFuel, s') => (OutOfFuel, s')
    | (r, s') =>
        match fin s' with
        | (Return _, s'') => (r, s'')
        | (Raise e, s'') => (Raise e, s'')
        | (OutOfFuel, s'') => (OutOfFuel, s'')
        end
    end.

Definition log (lvl : level) (msg : string) : M unit := emit (EvLog lvl msg).

(** [datetime.datetime.now(datetime.timezone.utc).timestamp()] *)
Definition now (e : env) : M instant :=
  fun s => (Return (clock e (ticks s)), mkState (puts s) (S (ticks s)) (trace s)).

(** [time.sleep(seconds)] *)
Definition sleep (seconds : nat) : M unit := emit (EvSleep seconds).

(** [client.put_log_events] followed by
    [response['nextSequenceToken']]. *)
Definition put_log_events (e : env) (kw : kwargs) : M cursor :=
  fun s =>
    let r := client_put_log_events e (puts s) kw in
    let s' := mkState (S (puts s)) (ticks s) (trace s ++ [EvPut kw r]) in
    match r with
    | PutOk next => (Return next, s')
    | PutRaise x => (Raise x, s')
    end.

(** ** The program *)

Definition create_log_group (client : env) (log_group_name : string) : M unit :=
  try_except
    (emit (EvCreateLogGroup log_group_name (client_create_log_group client)) ;;
     answer (client_create_log_group client) ;;
     log INFO ("Created log group " ++ log_group_name))
    [(is_ResourceAlreadyExists,
      fun _ => log INFO ("Log group " ++ log_group_name ++ " already exists"))].

Definition create_log_stream (client : env) (log_group_name log_stream_name : string)
  : M unit :=
  try_except
    (emit (EvCreateLogStream log_group_name log_stream_name
             (client_create_log_stream client)) ;;
     answer (client_create_log_stream client) ;;
     log INFO ("Created log stream " ++ log_stream_name))
    [(is_ResourceAlreadyExists,
      fun _ => log INFO ("Log stream " ++ log_stream_name ++ " already exists"))].

Definition is_empty {A} (l : list A) : bool :=
  match l with [] => true | _ :: _ => false end.

(** The value of [kwargs['sequenceToken']], or [None] when
    [if sequence_token:] leaves the key out. *)
Definition sent_token (sequence_token : cursor) : option string :=
  if truthy sequence_token then sequence_token else None.

Definition make_kwargs (log_group_name log_stream_name : string)
    (log_events : batch) (sequence_token : cursor) : kwargs :=
  mkKwargs log_group_name log_stream_name log_events (sent_token sequence_token).

(** [push_log_events].  [fuel] bounds the depth of the recursion on
    throttling, which the source does not bound. *)
Fixpoint push_log_events (fuel : nat) (client : env)
    (log_group_name log_stream_name : string) (log_events : batch)
    (sequence_token : cursor) {struct fuel} : M cursor :=
  if is_empty log_events then ret sequence_token
  else
    let kwargs := make_kwargs log_group_name log_stream_name log_events sequence_token in
    try_except (put_log_events client kwargs)
      [(is_ClientError,
        fun e =>
          if is_throttling e then
            log WARNING "Throttling encountered, backing off..." ;;
            sleep 2 ;;
            match fuel with
            | O => out_of_fuel
            | S fuel' =>
                push_log_events fuel' client log_group_name log_stream_name
                  log_events sequence_token
            end
          else
            log ERROR ("Failed to push log events: " ++ str e) ;;
            ret sequence_token)].

(** The body of [for line in container.logs(stream=True, ...)], over the
    items still to come. *)
Fixpoint stream_loop (fuel : nat) (e : env) (args : Namespace)
    (lines : list string) (log_events : batch) (sequence_token : cursor)
  : M (batch * cursor) :=
  match lines with
  | [] => ret (log_events, sequence_token)
  | line :: rest =>
      let message := strip line in
      if truthy_str message then
        t <- now e ;;
        let log_events := log_events ++ [mkEvent t message] in
        if 10 <=? length log_events then
          sequence_token <-
            push_log_events fuel e (aws_cloudwatch_group args)
              (aws_cloudwatch_stream args) log_events sequence_token ;;
          stream_loop fuel e args rest [] sequence_token
        else stream_loop fuel e args rest log_events sequence_token
      else stream_loop fuel e args rest log_events sequence_token
  end.

(** The list comprehension over [container.logs(stdout=True, stderr=True)]. *)
Fixpoint drain_events (e : env) (lines : list string) : M batch :=
  match lines with
  | [] => ret []
  | line :: rest =>
      if truthy_str (strip line) then
        t <- now e ;;
        evs <- drain_events e rest ;;
        ret (mkEvent t (strip line) :: evs)
      else drain_events e rest
  end.

(** Lines 148-181: the streaming loop, the second read and the last push. *)
Definition pump (fuel : nat) (e : env) (args : Namespace)
    (log_events : batch) (sequence_token : cursor) : M unit :=
  emit (EvLogs true) ;;
  st <- stream_loop fuel e args (logs_stream e) log_events sequence_token ;;
  answer (logs_stream_end e) ;;
  let log_events := fst st in
  let sequence_token := snd st in
  emit (EvLogs false) ;;
  extra <- drain_events e (logs_drain e) ;;
  answer (logs_drain_end e) ;;
  let log_events := log_events ++ extra in
  if is_empty log_events then ret tt
  else
    push_log_events fuel e (aws_cloudwatch_group args)
      (aws_cloudwatch_stream args) log_events sequence_token ;;
    ret tt.

(** The [finally] block. *)
Definition cleanup (e : env) : M unit :=
  emit (EvStop (container_stop e)) ;;
  answer (container_stop e) ;;
  emit (EvRemove (container_remove e)) ;;
  answer (container_remove e).

Definition main (fuel : nat) (e : env) (args : Namespace) : M unit :=
  emit (EvClient (boto3_client e)) ;;
  answer (boto3_client e) ;;
  try_except
    (create_log_group e (aws_cloudwatch_group args) ;;
     create_log_stream e (aws_cloudwatch_group args) (aws_cloudwatch_stream args) ;;
     emit (EvFromEnv (docker_from_env e)) ;;
     answer (docker_from_env e) ;;
     let log_events := [] in
     let sequence_token := None in
     emit (EvRun (docker_image args)
             ("/bin/bash -c '" ++ bash_command args ++ "'") (containers_run e)) ;;
     answer (containers_run e) ;;
     try_finally
       (try_except (pump fuel e args log_events sequence_token)
          [(is_APIError, fun x => log ERROR ("Docker API error: " ++ str x))])
       (cleanup e))
    [(is_DockerException, fun x => log ERROR ("Docker error: " ++ str x));
     (is_ClientError, fun x => log ERROR ("AWS error: " ++ str x));
     (is_Exception, fun x => log ERROR ("Unexpected error: " ++ str x))].

#[local] Arguments Nat.leb : simpl never.

(** ** Reading a trace *)

(** The sink answered "throttled". *)
Definition throttled (r : put_result) : bool :=
  match r with PutOk _ => false | PutRaise x => is_throttling x end.

(** The append attempts of a trace, in order. *)
Fixpoint put_attempts (tr : list event) : list (kwargs * put_result) :=
  match tr with
  | [] => []
  | EvPut kw r :: tr' => (kw, r) :: put_attempts tr'
  | _ :: tr' => put_attempts tr'
  end.

(** The batches the sink decided on (took, refused or failed on), in
    order: the batch of every attempt that was not throttled.  A batch
    that is retried counts once. *)
Fixpoint submitted (tr : list event) : list batch :=
  match tr with
  | [] => []
  | EvPut kw r :: tr' =>
      if throttled r then submitted tr' else logEvents kw :: submitted tr'
  | _ :: tr' => submitted tr'
  end.

(** The delays of a trace, in order. *)
Fixpoint sleeps (tr : list event) : list nat :=
  match tr with
  | [] => []
  | EvSleep n :: tr' => n :: sleeps tr'
  | _ :: tr' => sleeps tr'
  end.

(** The cursor the orchestrator holds after a trace, having held [c]
    before it: the [nextSequenceToken] of the last accepted append. *)
Fixpoint held_from (c : cursor) (tr : list event) : cursor :=
  match tr with
  | [] => c
  | EvPut _ (PutOk next) :: tr' => held_from next tr'
  | _ :: tr' => held_from c tr'
  end.

(** The calls on the container handle. *)
Definition is_container_call (ev : event) : bool :=
  match ev with EvStop _ | EvRemove _ => true | _ => false end.

Definition container_calls (tr : list event) : list event :=
  filter is_container_call tr.

(** A container handle was acquired: [containers.run] returned. *)
Definition acquired (tr : list event) : Prop :=
  exists image command, In (EvRun image command None) tr.

(** The lines that become events: stripped, and non-empty after that. *)
Definition accepted (lines : list string) : list string :=
  filter truthy_str (map strip lines).

(** The events of the given messages, stamped with the clock readings
    from the [n]-th on. *)
Fixpoint stamp (e : env) (n : nat) (msgs : list string) : batch :=
  match msgs with
  | [] => []
  | m :: rest => mkEvent (clock e n) m :: stamp e (S n) rest
  end.

(** [K] throttled attempts on [kw], the first being call number [n0]:
    each is the call, the warning and the two-second sleep. *)
Fixpoint retries (e : env) (kw : kwargs) (n0 K : nat) : list event :=
  match K with
  | O => []
  | S K' =>
      EvPut kw (client_put_log_events e n0 kw)
      :: EvLog WARNING "Throttling encountered, backing off..."
      :: EvSleep 2
      :: retries e kw (S n0) K'
  end.

(** ** Vocabulary of the proofs *)

(** The text of the warning of line 106. *)
Definition throttle_warning : string := "Throttling encountered, backing off...".

(** What the state is after the call and what follows it. *)
Definition after_put (s : state) (kw : kwargs) (r : put_result) (more : list event)
  : state :=
  mkState (S (puts s)) (ticks s) (trace s ++ EvPut kw r :: more).

(** How an attempt that is not throttled ends the call: the sink's next
    cursor, or (another [ClientError]) the error log and the cursor
    unchanged, or the exception. *)
Definition finish (c : cursor) (s : state) (kw : kwargs) (r : put_result)
  : result cursor * state :=
  match r with
  | PutOk next => (Return next, after_put s kw r [])
  | PutRaise x =>
      if is_ClientError x then
        (Return c,
         after_put s kw r [EvLog ERROR ("Failed to push log events: " ++ str x)])
      else (Raise x, after_put s kw r [])
  end.

(** The state after [K] throttled attempts. *)
Definition retried (e : env) (s : state) (kw : kwargs) (K : nat) : state :=
  mkState (puts s + K) (ticks s) (trace s ++ retries e kw (puts s) K).

(** A log record. *)
Definition is_log (ev : event) : Prop :=
  match ev with EvLog _ _ => True | _ => False end.

(** The batches the streaming loop completes over the given events, and
    the buffer it is left with. *)
Fixpoint full_batches (buf : batch) (evs : list LogEvent) : list batch * batch :=
  match evs with
  | [] => ([], buf)
  | ev :: evs' =>
      let buf' := buf ++ [ev] in
      if 10 <=? length buf' then
        (buf' :: fst (full_batches [] evs'), snd (full_batches [] evs'))
      else full_batches buf' evs'
  end.

(** The last batch: what the loop left, then the events of the second
    read. *)
Definition last_batch (e : env) (buf : batch) (n : nat) : batch :=
  snd (full_batches buf (stamp e n (accepted (logs_stream e))))
  ++ stamp e (n + length (accepted (logs_stream e))) (accepted (logs_drain e)).

(** Every append attempt of the trace carries, as its token parameter,
    the cursor held when it is made: [c] at first, and after an accepted
    append the cursor the sink returned. *)
Fixpoint chained (c : cursor) (tr : list event) : Prop :=
  match tr with
  | [] => True
  | EvPut kw r :: tr' =>
      sequenceToken kw = sent_token c /\
      chained (match r with PutOk next => next | PutRaise _ => c end) tr'
  | _ :: tr' => chained c tr'
  end.

(** The event is an append attempt. *)
Definition is_put (ev : event) : bool :=
  match ev with EvPut _ _ => true | _ => false end.

(** [obeys K R f]: whatever the outcome, [f] only adds events of kind [K]
    to the trace, and only raises exceptions in [R]. *)
Definition obeys (K : event -> Prop) (R : exn -> Prop) {A} (f : M A) : Prop :=
  forall s r s', f s = (r, s') ->
    (exists new, trace s' = trace s ++ new /\ Forall K new) /\
    (forall x, r = Raise x -> R x).

(** The events of the pump: reads, append attempts, sleeps, log records. *)
Definition is_pump_event (ev : event) : Prop :=
  match ev with
  | EvLogs _ | EvPut _ _ | EvSleep _ | EvLog _ _ => True
  | _ => False
  end.

(** The sink raises [x] on some call. *)
Definition raised_by_sink (e : env) (x : exn) : Prop :=
  exists i kw, client_put_log_events e i kw = PutRaise x.

(** What can come out of the pump: the end of either read, or an
    exception of the sink that is not a [ClientError]. *)
Definition raised_in_pump (e : env) (x : exn) : Prop :=
  logs_stream_end e = Some x \/ logs_drain_end e = Some x
  \/ (raised_by_sink e x /\ is_ClientError x = false).

(** What the [finally] block adds to the trace: the stop, and the
    remove unless the stop raised. *)
Definition cleanup_events (e : env) : list event :=
  EvStop (container_stop e)
  :: match container_stop e with
     | None => [EvRemove (container_remove e)]
     | Some _ => []
     end.

(** How the [finally] block ends. *)
Definition cleanup_result (e : env) : result unit :=
  match container_stop e, container_remove e with
  | Some x, _ => Raise x
  | None, Some x => Raise x
  | None, None => Return tt
  end.

(** The stop or the remove raises [x]. *)
Definition raised_in_cleanup (e : env) (x : exn) : Prop :=
  container_stop e = Some x \/ container_remove e = Some x.

(** The clause of the inner [try] (line 183). *)
Definition api_error_clause : list ((exn -> bool) * (exn -> M unit)) :=
  [(is_APIError, fun x => log ERROR ("Docker API error: " ++ str x))].

(** The events before the pump: client construction, provisioning, and
    a [containers.run] that raised. *)
Definition is_setup (ev : event) : Prop :=
  match ev with
  | EvClient _ | EvCreateLogGroup _ _ | EvCreateLogStream _ _ _
  | EvFromEnv _ | EvLog _ _ | EvRun _ _ (Some _) => True
  | _ => False
  end.

(** Provisioning or the start of the container raises [x]. *)
Definition raised_in_setup (e : env) (x : exn) : Prop :=
  client_create_log_group e = Some x \/ client_create_log_stream e = Some x
  \/ docker_from_env e = Some x \/ containers_run e = Some x.

(** Every exception the collaborators raise inside the outer [try]. *)
Definition raised_by (e : env) (x : exn) : Prop :=
  raised_in_setup e x \/ raised_in_pump e x \/ raised_in_cleanup e x.

(** The inside of the outer [try]. *)
Definition provisioned_pump (fuel : nat) (e : env) (args : Namespace) : M unit :=
  create_log_group e (aws_cloudwatch_group args) ;;
  create_log_stream e (aws_cloudwatch_group args) (aws_cloudwatch_stream args) ;;
  emit (EvFromEnv (docker_from_env e)) ;;
  answer (docker_from_env e) ;;
  emit (EvRun (docker_image args)
          ("/bin/bash -c '" ++ bash_command args ++ "'") (containers_run e)) ;;
  answer (containers_run e) ;;
  try_finally (try_except (pump fuel e args [] None) api_error_clause) (cleanup e).

(** The clauses of the outer [try] (lines 191-196). *)
Definition main_clauses : list ((exn -> bool) * (exn -> M unit)) :=
  [(is_DockerException, fun x => log ERROR ("Docker error: " ++ str x));
   (is_ClientError, fun x => log ERROR ("AWS error: " ++ str x));
   (is_Exception, fun x => log ERROR ("Unexpected error: " ++ str x))].

(** ** Concrete environments *)

Module Examples.

Definition args : Namespace :=
  mkArgs "alpine" "echo hello" "group" "stream" "key" "secret" "eu-west-1".

(** One-letter lines, [count] of them from the code point [from] on. *)
Definition letters (from count : nat) : list string :=
  map (fun n => String (ascii_of_nat n) EmptyString) (seq from count).

(** A sink that takes every batch. *)
Definition accepting (i : nat) (kw : kwargs) : put_result := PutOk (Some "next").

(** An environment in which every call returns, with the given reads
    and sink. *)
Definition quiet (stream drain : list string)
    (sink : nat -> kwargs -> put_result) : env :=
  mkEnv None None None None None stream None drain None sink
    (fun n => Z.of_nat n) None None.

(** Twenty-five lines on the stream, some blank ones among them, and an
    empty second read. *)
Definition twenty_five : env :=
  quiet (letters 97 12 ++ ["  "; ""] ++ letters 109 13) [" "] accepting.

(** Twelve lines on the stream and thirteen more in the second read. *)
Definition long_drain : env := quiet (letters 97 12) (letters 109 13) accepting.

(** The second read returns the whole output again. *)
Definition reread : env := quiet ["started"; "done"] ["started"; "done"] accepting.

(** The sink throttles the first two calls. *)
Definition throttling_twice (i : nat) (kw : kwargs) : put_result :=
  if i <? 2 then PutRaise (ClientError "ThrottlingException" "Rate exceeded")
  else PutOk (Some "next").

(** The sink refuses the second batch. *)
Definition refusing_second (i : nat) (kw : kwargs) : put_result :=
  match i with
  | 0 => PutOk (Some "t1")
  | 1 => PutRaise (ClientError "InvalidParameterException" "bad batch")
  | _ => PutOk (Some "t3")
  end.

Definition second_refused : env := quiet (letters 97 25) [] refusing_second.

(** The stop raises. *)
Definition stop_fails : env :=
  mkEnv None None None None None ["hello"] None [] None accepting
    (fun n => Z.of_nat n) (Some (APIError "500 Server Error")) None.

(** The region name is not one the client library accepts. *)
Definition bad_region : env :=
  mkEnv (Some (OtherException "InvalidRegionError")) None None None None
    ["hello"] None [] None accepting (fun n => Z.of_nat n) None None.

Definition one_event : batch := [mkEvent 0%Z "hello"].

End Examples.

Import Examples.

(** ** Vocabulary of the further properties *)

(** A create call left the resource in place: it returned, or raised
    [ResourceAlreadyExistsException]. *)
Definition created (a : option exn) : bool :=
  match a with
  | None => true
  | Some x => is_ResourceAlreadyExists x
  end.

(** The exception of a create call that [main] does not take as
    success. *)
Definition failed (a : option exn) : option exn :=
  match a with
  | Some x => if is_ResourceAlreadyExists x then None else Some x
  | None => None
  end.

(** What [create_log_group] adds to the trace. *)
Definition group_events (e : env) (g : string) : list event :=
  EvCreateLogGroup g (client_create_log_group e)
  :: match client_create_log_group e with
     | None => [EvLog INFO ("Created log group " ++ g)]
     | Some x =>
         if is_ResourceAlreadyExists x
         then [EvLog INFO ("Log group " ++ g ++ " already exists")]
         else []
     end.

(** What [create_log_stream] adds to the trace. *)
Definition stream_events (e : env) (g st : string) : list event :=
  EvCreateLogStream g st (client_create_log_stream e)
  :: match client_create_log_stream e with
     | None => [EvLog INFO ("Created log stream " ++ st)]
     | Some x =>
         if is_ResourceAlreadyExists x
         then [EvLog INFO ("Log stream " ++ st ++ " already exists")]
         else []
     end.

(** The first exception of the steps between the outer [try] and the
    inner one, if any. *)
Definition setup_failure (e : env) : option exn :=
  match failed (client_create_log_group e) with
  | Some x => Some x
  | None =>
      match failed (client_create_log_stream e) with
      | Some x => Some x
      | None =>
          match docker_from_env e with
          | Some x => Some x
          | None => containers_run e
          end
      end
  end.

(** The events of these steps, up to the first exception. *)
Definition setup_trace (e : env) (args : Namespace) : list event :=
  let g := aws_cloudwatch_group args in
  let st := aws_cloudwatch_stream args in
  group_events e g
  ++ match failed (client_create_log_group e) with
     | Some _ => []
     | None =>
         stream_events e g st
         ++ match failed (client_create_log_stream e) with
            | Some _ => []
            | None =>
                EvFromEnv (docker_from_env e)
                :: match docker_from_env e with
                   | Some _ => []
                   | None =>
                       [EvRun (docker_image args)
                          ("/bin/bash -c '" ++ bash_command args ++ "'")
                          (containers_run e)]
                   end
            end
     end.

(** Everything up to the start of the container succeeds. *)
Definition provisioning_ok (e : env) : Prop :=
  boto3_client e = None /\
  created (client_create_log_group e) = true /\
  created (client_create_log_stream e) = true /\
  docker_from_env e = None /\
  containers_run e = None.

(** The state [s] with [new] added to its trace. *)
Definition extend (s : state) (new : list event) : state :=
  mkState (puts s) (ticks s) (trace s ++ new).

(** The events that can follow the pump: log records and the calls of
    the [finally] block. *)
Definition is_tail (ev : event) : Prop :=
  match ev with
  | EvLog _ _ | EvStop _ | EvRemove _ => True
  | _ => False
  end.

(** The first, the last character of a text is whitespace. *)
Definition starts_with_space (s : string) : bool :=
  match s with
  | EmptyString => false
  | String a _ => isspace a
  end.

Fixpoint ends_with_space (s : string) : bool :=
  match s with
  | EmptyString => false
  | String a EmptyString => isspace a
  | String _ s' => ends_with_space s'
  end.

(** The part of a trace before the second read. *)
Fixpoint before_drain (tr : list event) : list event :=
  match tr with
  | [] => []
  | EvLogs false :: _ => []
  | ev :: tr' => ev :: before_drain tr'
  end.

(** The events of one call of [push_log_events], its attempts carrying
    arguments in [P]. *)
Definition is_push_event (P : kwargs -> Prop) (ev : event) : Prop :=
  match ev with
  | EvPut kw _ => P kw
  | EvSleep _ | EvLog _ _ => True
  | _ => False
  end.

(** Arguments for the group and the stream of the command line. *)
Definition addressed (args : Namespace) (kw : kwargs) : Prop :=
  logGroupName kw = aws_cloudwatch_group args /\
  logStreamName kw = aws_cloudwatch_stream args.

(** An event made of a clock reading and of a line of either read,
    stripped, which is not empty. *)
Definition from_input (e : env) (ev : LogEvent) : Prop :=
  message ev <> EmptyString /\
  (exists n, timestamp ev = clock e n) /\
  exists line, In line (logs_stream e ++ logs_drain e) /\ message ev = strip line.

(** Neither an append attempt nor the second read. *)
Definition is_plain (ev : event) : Prop :=
  match ev with
  | EvPut _ _ | EvLogs false => False
  | _ => True
  end.

(** A list of clock readings that never goes back. *)
Fixpoint nondecreasing (l : list instant) : Prop :=
  match l with
  | [] => True
  | a :: l' => Forall (fun b => (a <= b)%Z) l' /\ nondecreasing l'
  end.

(** A clock that never goes back. *)
Definition monotone (e : env) : Prop :=
  forall i j, i <= j -> (clock e i <= clock e j)%Z.

(** The sink takes every batch. *)
Definition accepts (e : env) : Prop :=
  forall i kw, exists next, client_put_log_events e i kw = PutOk next.

(** The cursor held after an attempt made with [c]. *)
Definition cursor_after (c : cursor) (r : put_result) : cursor :=
  match r with PutOk next => next | PutRaise _ => c end.

(** One attempt for each batch: the first is call number [n0], made
    with cursor [c]; each later one is made with the cursor held after
    the one before. *)
Fixpoint deliveries (e : env) (args : Namespace) (n0 : nat) (c : cursor)
    (bs : list batch) : list event :=
  match bs with
  | [] => []
  | b :: bs' =>
      let kw := make_kwargs (aws_cloudwatch_group args)
                  (aws_cloudwatch_stream args) b c in
      let r := client_put_log_events e n0 kw in
      EvPut kw r :: deliveries e args (S n0) (cursor_after c r) bs'
  end.

(** An attempt the sink took. *)
Definition is_accepted_put (ev : event) : Prop :=
  match ev with EvPut _ (PutOk _) => True | _ => False end.

(** The record of the outer handlers (lines 191-196) for an exception,
    if one of their classes has it. *)
Definition outer_record (x : exn) : option event :=
  if is_DockerException x then Some (EvLog ERROR ("Docker error: " ++ str x))
  else if is_ClientError x then Some (EvLog ERROR ("AWS error: " ++ str x))
  else if is_Exception x then Some (EvLog ERROR ("Unexpected error: " ++ str x))
  else None.

(** The inner handler (line 183) on the outcome of the pump: what it
    logs, and what is pending when the [finally] block starts. *)
Definition inner_record (rp : result unit) : list event :=
  match rp with
  | Raise x =>
      if is_APIError x then [EvLog ERROR ("Docker API error: " ++ str x)] else []
  | _ => []
  end.

Definition inner_result (rp : result unit) : result unit :=
  match rp with
  | Raise x => if is_APIError x then Return tt else Raise x
  | r => r
  end.

(** The inner [try] with its [finally], on the outcome of the pump. *)
Definition guarded_result (e : env) (rp : result unit) : result unit :=
  match inner_result rp with
  | OutOfFuel => OutOfFuel
  | r => match cleanup_result e with Return _ => r | c => c end
  end.

Definition guarded_events (e : env) (rp : result unit) : list event :=
  match rp with
  | OutOfFuel => []
  | _ => inner_record rp ++ cleanup_events e
  end.

(** The sink throttles every call. *)
Definition always_throttled (e : env) : Prop :=
  forall i kw, throttled (client_put_log_events e i kw) = true.

(** An event that is neither an append attempt, nor a delay, nor a call
    on the container handle. *)
Definition is_prelude (ev : event) : Prop :=
  match ev with
  | EvPut _ _ | EvSleep _ | EvStop _ | EvRemove _ => False
  | _ => True
  end.

(** ** More concrete environments *)

Module Failures.

(** A sink that throttles every call. *)
Definition throttling (i : nat) (kw : kwargs) : put_result :=
  PutRaise (ClientError "ThrottlingException" "Rate exceeded").

Definition throttled_forever : env := quiet (letters 97 12) [] throttling.

(** The streaming read fails after twelve lines. *)
Definition broken_stream : env :=
  mkEnv None None None None None (letters 97 12)
    (Some (APIError "500 Server Error")) ["late"] None accepting
    (fun n => Z.of_nat n) None None.

(** The streaming read is interrupted, and the stop fails. *)
Definition interrupted_stream : env :=
  mkEnv None None None None None (letters 97 12)
    (Some (OtherException "Connection reset")) [] None accepting
    (fun n => Z.of_nat n) (Some (APIError "409 Conflict")) None.

(** The log group cannot be created. *)
Definition no_group : env :=
  mkEnv None (Some (ClientError "AccessDeniedException" "not authorized"))
    None None None ["hello"] None [] None accepting (fun n => Z.of_nat n)
    None None.

(** The log store cannot be reached. *)
Definition unreachable (i : nat) (kw : kwargs) : put_result :=
  PutRaise (OtherException "EndpointConnectionError").

Definition sink_unreachable : env := quiet (letters 97 12) ["late"] unreachable.

(** The second read fails. *)
Definition broken_drain : env :=
  mkEnv None None None None None (letters 97 12) None
    ["late"] (Some (DockerException "Connection aborted")) accepting
    (fun n => Z.of_nat n) None None.

End Failures.

Import Failures.

(** What follows the pump when the pump raised [x] and the stop and the
    remove return: an [APIError] is logged by the inner handler before
    the cleanup, another exception by the outer ones after it, if one
    of them takes it. *)
Definition closing (x : exn) : list event :=
  if is_APIError x then
    [EvLog ERROR ("Docker API error: " ++ str x); EvStop None; EvRemove None]
  else
    EvStop None :: EvRemove None
    :: match outer_record x with Some ev => [ev] | None => [] end.

(** An event of the work on a started container: a read of its output,
    an append attempt, a delay, the stop or the remove. *)
Definition follows_start (ev : event) : Prop :=
  match ev with
  | EvLogs _ | EvPut _ _ | EvSleep _ | EvStop _ | EvRemove _ => True
  | _ => False
  end.

(** What follows a throttled attempt: the warning, the wait of two
    seconds and an attempt with the same arguments; with [cut], the
    trace may also end after the wait. *)
Definition resumes (cut : bool) (kw : kwargs) (tr : list event) : Prop :=
  exists rest,
    tr = EvLog WARNING throttle_warning :: EvSleep 2 :: rest /\
    ((rest = [] /\ cut = true) \/ exists r rest', rest = EvPut kw r :: rest').

(** Every throttled attempt of the trace is followed so. *)
Fixpoint backed_off (cut : bool) (tr : list event) : Prop :=
  match tr with
  | [] => True
  | EvPut kw r :: tr' =>
      (throttled r = true -> resumes cut kw tr') /\ backed_off cut tr'
  | _ :: tr' => backed_off cut tr'
  end.

(** The computation is still retrying. *)
Definition is_out {A} (r : result A) : bool :=
  match r with OutOfFuel => true | _ => false end.

(** Whatever the outcome, what [f] adds to the trace is backed off, and
    ends after a wait only if [f] is still retrying. *)
Definition backs_off {A} (f : M A) : Prop :=
  forall s r s', f s = (r, s') ->
    exists new, trace s' = trace s ++ new /\ backed_off (is_out r) new.

(** An attempt that ended with an exception that is no [ClientError]. *)
Definition is_fatal (ev : event) : bool :=
  match ev with
  | EvPut _ (PutRaise x) => negb (is_ClientError x)
  | _ => false
  end.

(** Whatever the outcome, what [f] adds to the trace has no such
    attempt, but for the last event when [f] does not return. *)
Definition stops_at_fatal {A} (f : M A) : Prop :=
  forall s r s', f s = (r, s') ->
    exists body last,
      trace s' = trace s ++ body ++ last /\
      Forall (fun ev => is_fatal ev = false) body /\
      match r with
      | Return _ => last = []
      | _ => length last <= 1
      end.

(** The batches the sink took, in order. *)
Fixpoint delivered (tr : list event) : list batch :=
  match tr with
  | [] => []
  | EvPut kw (PutOk _) :: tr' => logEvents kw :: delivered tr'
  | _ :: tr' => delivered tr'
  end.

(** Every attempt of the trace that the sink refused with a
    [ClientError] other than throttling has its error record in the
    trace. *)
Definition reported (tr : list event) : Prop :=
  forall kw x,
    In (EvPut kw (PutRaise x)) tr ->
    is_ClientError x = true -> is_throttling x = false ->
    In (EvLog ERROR ("Failed to push log events: " ++ str x)) tr.

(** Whatever the outcome, what [f] adds to the trace is in [P]. *)
Definition adds (P : list event -> Prop) {A} (f : M A) : Prop :=
  forall s r s', f s = (r, s') -> exists new, trace s' = trace s ++ new /\ P new.

(** The trace has no error record. *)
Definition no_error_record (tr : list event) : Prop :=
  forall msg, ~ In (EvLog ERROR msg) tr.

Definition is_error_record (ev : event) : bool :=
  match ev with EvLog ERROR _ => true | _ => false end.

(** ** [strip] and whitespace *)

Lemma lstrip_empty (s : string) :
  lstrip s = EmptyString <-> whitespace_only s = true.
Proof.
  induction s as [|a s IH]; simpl.
  - tauto.
  - destruct (isspace a); simpl.
    + exact IH.
    + split; discriminate.
Qed.

Lemma rstrip_empty (s : string) :
  rstrip s = EmptyString <-> whitespace_only s = true.
Proof.
  induction s as [|a s IH]; simpl.
  - tauto.
  - destruct (rstrip s) eqn:R.
    + destruct (isspace a); simpl.
      * split; intros _; [apply IH|]; reflexivity.
      * split; discriminate.
    + split; [discriminate|].
      intros H. apply andb_true_iff in H. destruct H as [_ H].
      apply IH in H. discriminate.
Qed.

Lemma whitespace_only_lstrip (s : string) :
  whitespace_only (lstrip s) = whitespace_only s.
Proof.
  induction s as [|a s IH]; simpl; [reflexivity|].
  destruct (isspace a) eqn:A; simpl; [exact IH|].
  rewrite A. reflexivity.
Qed.

Lemma strip_empty (s : string) :
  strip s = EmptyString <-> whitespace_only s = true.
Proof.
  unfold strip. rewrite rstrip_empty, whitespace_only_lstrip. tauto.
Qed.

Lemma truthy_strip (s : string) :
  truthy_str (strip s) = negb (whitespace_only s).
Proof.
  destruct (whitespace_only s) eqn:W; simpl.
  - apply strip_empty in W. rewrite W. reflexivity.
  - destruct (strip s) eqn:S; [|reflexivity].
    apply strip_empty in S. congruence.
Qed.

(** ** One attempt of [push_log_events] *)

Lemma push_log_events_unfold fuel e g st b c :
  push_log_events fuel e g st b c =
  if is_empty b then ret c
  else
    try_except (put_log_events e (make_kwargs g st b c))
      [(is_ClientError,
        fun x =>
          if is_throttling x then
            log WARNING throttle_warning ;;
            sleep 2 ;;
            match fuel with
            | O => out_of_fuel
            | S fuel' => push_log_events fuel' e g st b c
            end
          else
            log ERROR ("Failed to push log events: " ++ str x) ;;
            ret c)].
Proof. destruct fuel; reflexivity. Qed.

Lemma is_throttling_ClientError x : is_throttling x = true -> is_ClientError x = true.
Proof. destruct x; simpl; intros H; congruence. Qed.

Lemma push_step fuel e g st b c s :
  b <> [] ->
  let kw := make_kwargs g st b c in
  let r := client_put_log_events e (puts s) kw in
  push_log_events fuel e g st b c s =
  match r with
  | PutOk next => (Return next, after_put s kw r [])
  | PutRaise x =>
      if is_throttling x then
        let s2 := after_put s kw r [EvLog WARNING throttle_warning; EvSleep 2] in
        match fuel with
        | O => (OutOfFuel, s2)
        | S fuel' => push_log_events fuel' e g st b c s2
        end
      else if is_ClientError x then
        (Return c,
         after_put s kw r [EvLog ERROR ("Failed to push log events: " ++ str x)])
      else (Raise x, after_put s kw r [])
  end.
Proof.
  intros Hb kw r. rewrite push_log_events_unfold.
  destruct b as [|ev b']; [congruence|]. cbn [is_empty].
  unfold try_except, put_log_events. fold kw. fold r.
  destruct r as [next|x]; [reflexivity|].
  cbn [select].
  destruct (is_throttling x) eqn:T.
  - rewrite (is_throttling_ClientError x T).
    unfold bind, log, sleep, emit, out_of_fuel, after_put; cbn.
    rewrite <- !app_assoc; cbn.
    destruct fuel; reflexivity.
  - destruct (is_ClientError x) eqn:C; [|reflexivity].
    unfold bind, log, emit, ret, after_put; cbn.
    rewrite <- !app_assoc; cbn. reflexivity.
Qed.

Section Push.

Variables (e : env) (g st : string) (b : batch) (c : cursor).
Hypothesis nonempty : b <> [].

Let kw := make_kwargs g st b c.

Lemma push_not_throttled fuel s :
  throttled (client_put_log_events e (puts s) kw) = false ->
  push_log_events fuel e g st b c s = finish c s kw (client_put_log_events e (puts s) kw).
Proof.
  intros T. rewrite (push_step fuel e g st b c s nonempty). fold kw.
  unfold finish. destruct (client_put_log_events e (puts s) kw) as [next|x];
    [reflexivity|].
  cbn in T. rewrite T. reflexivity.
Qed.

Lemma push_throttled fuel s :
  throttled (client_put_log_events e (puts s) kw) = true ->
  push_log_events (S fuel) e g st b c s =
  push_log_events fuel e g st b c (retried e s kw 1).
Proof.
  intros T. rewrite (push_step (S fuel) e g st b c s nonempty). fold kw.
  destruct (client_put_log_events e (puts s) kw) as [next|x] eqn:R;
    [discriminate|].
  cbn in T. rewrite T. cbn zeta.
  unfold retried, after_put. cbn [retries]. rewrite R, Nat.add_1_r. reflexivity.
Qed.

Lemma retried_succ s K :
  retried e (retried e s kw 1) kw K = retried e s kw (S K).
Proof.
  unfold retried. cbn [puts ticks trace retries].
  rewrite <- app_assoc, Nat.add_1_r, Nat.add_succ_r. reflexivity.
Qed.

Lemma finish_retried_zero s r :
  finish c (retried e s kw 0) kw r = finish c s kw r.
Proof.
  unfold finish, after_put, retried. cbn [retries puts ticks trace].
  rewrite Nat.add_0_r, app_nil_r. reflexivity.
Qed.

(** After [K] throttled attempts, given fuel for them, the call ends as
    its next attempt does. *)
Lemma push_after_throttles K : forall fuel s,
  K <= fuel ->
  (forall i, i < K -> throttled (client_put_log_events e (puts s + i) kw) = true) ->
  throttled (client_put_log_events e (puts s + K) kw) = false ->
  push_log_events fuel e g st b c s =
  finish c (retried e s kw K) kw (client_put_log_events e (puts s + K) kw).
Proof.
  induction K as [|K IH]; intros fuel s Hf Hthr Hlast.
  - rewrite finish_retried_zero, Nat.add_0_r in *.
    apply push_not_throttled. exact Hlast.
  - destruct fuel as [|fuel]; [lia|].
    rewrite push_throttled.
    2:{ specialize (Hthr 0). rewrite Nat.add_0_r in Hthr. apply Hthr. lia. }
    rewrite (IH fuel (retried e s kw 1)).
    + rewrite retried_succ. cbn [retried puts].
      replace (puts s + 1 + K) with (puts s + S K) by lia. reflexivity.
    + lia.
    + intros i Hi. cbn [retried puts].
      replace (puts s + 1 + i) with (puts s + S i) by lia. apply Hthr. lia.
    + cbn [retried puts].
      replace (puts s + 1 + K) with (puts s + S K) by lia. exact Hlast.
Qed.

(** Under sustained throttling the call never returns: whatever the
    fuel, it is used up, after one attempt more than the fuel. *)
Lemma push_sustained_throttling : forall fuel s,
  (forall i, throttled (client_put_log_events e (puts s + i) kw) = true) ->
  push_log_events fuel e g st b c s = (OutOfFuel, retried e s kw (S fuel)).
Proof.
  induction fuel as [|fuel IH]; intros s Hthr.
  - rewrite (push_step 0 e g st b c s nonempty). fold kw.
    specialize (Hthr 0). rewrite Nat.add_0_r in Hthr.
    destruct (client_put_log_events e (puts s) kw) as [next|x] eqn:R;
      [discriminate|].
    cbn in Hthr. rewrite Hthr. cbn zeta.
    unfold retried, after_put. cbn [retries]. rewrite R, Nat.add_1_r. reflexivity.
  - rewrite push_throttled.
    2:{ specialize (Hthr 0). rewrite Nat.add_0_r in Hthr. exact Hthr. }
    rewrite IH.
    + rewrite retried_succ. reflexivity.
    + intros i. cbn [retried puts].
      replace (puts s + 1 + i) with (puts s + S i) by lia. apply Hthr.
Qed.

(** Every run of the call is one of the two: some [K] throttled
    attempts and then an attempt that is not, or [fuel + 1] throttled
    attempts. *)
Lemma push_inv : forall fuel s r s',
  push_log_events fuel e g st b c s = (r, s') ->
  (exists K, K <= fuel /\
     (forall i, i < K -> throttled (client_put_log_events e (puts s + i) kw) = true) /\
     throttled (client_put_log_events e (puts s + K) kw) = false /\
     (r, s') = finish c (retried e s kw K) kw (client_put_log_events e (puts s + K) kw))
  \/ (r = OutOfFuel /\ s' = retried e s kw (S fuel) /\
      forall i, i < S fuel ->
        throttled (client_put_log_events e (puts s + i) kw) = true).
Proof.
  induction fuel as [|fuel IH]; intros s r s' H.
  - destruct (throttled (client_put_log_events e (puts s) kw)) eqn:T.
    + right. rewrite (push_step 0 e g st b c s nonempty) in H. fold kw in H.
      destruct (client_put_log_events e (puts s) kw) as [next|x] eqn:R;
        [discriminate|].
      cbn in T. rewrite T in H. cbn zeta in H. inversion H; subst.
      split; [reflexivity|]. split.
      * unfold retried, after_put. cbn [retries]. rewrite R, Nat.add_1_r.
        reflexivity.
      * intros i Hi. replace i with 0 by lia. rewrite Nat.add_0_r, R. exact T.
    + left. exists 0. split; [lia|]. split; [intros i Hi; lia|].
      rewrite Nat.add_0_r, finish_retried_zero. split; [exact T|].
      rewrite <- H. apply push_not_throttled. exact T.
  - destruct (throttled (client_put_log_events e (puts s) kw)) eqn:T.
    + rewrite push_throttled in H by exact T.
      apply IH in H. destruct H as [(K & HK & Hthr & Hlast & Hfin)|(Hr & Hs & Hall)].
      * left. exists (S K). split; [lia|].
        cbn [retried puts] in Hthr, Hlast, Hfin.
        replace (puts s + 1 + K) with (puts s + S K) in * by lia.
        split; [|split].
        -- intros i Hi. destruct i as [|i]; [rewrite Nat.add_0_r; exact T|].
           replace (puts s + S i) with (puts s + 1 + i) by lia. apply Hthr. lia.
        -- exact Hlast.
        -- rewrite retried_succ in Hfin. exact Hfin.
      * right. split; [exact Hr|]. split; [rewrite Hs; apply retried_succ|].
        intros i Hi. destruct i as [|i]; [rewrite Nat.add_0_r; exact T|].
        cbn [retried puts] in Hall.
        replace (puts s + S i) with (puts s + 1 + i) by lia. apply Hall. lia.
    + left. exists 0. split; [lia|]. split; [intros i Hi; lia|].
      rewrite Nat.add_0_r, finish_retried_zero. split; [exact T|].
      rewrite <- H. apply push_not_throttled. exact T.
Qed.

End Push.

(** ** Traces, piecewise *)

Lemma submitted_app t1 t2 : submitted (t1 ++ t2) = submitted t1 ++ submitted t2.
Proof.
  induction t1 as [|ev t1 IH]; [reflexivity|].
  destruct ev; cbn; try exact IH.
  destruct (throttled r); [exact IH|]. cbn. rewrite IH. reflexivity.
Qed.

Lemma put_attempts_app t1 t2 :
  put_attempts (t1 ++ t2) = put_attempts t1 ++ put_attempts t2.
Proof.
  induction t1 as [|ev t1 IH]; [reflexivity|].
  destruct ev; cbn; try exact IH. rewrite IH. reflexivity.
Qed.

Lemma sleeps_app t1 t2 : sleeps (t1 ++ t2) = sleeps t1 ++ sleeps t2.
Proof.
  induction t1 as [|ev t1 IH]; [reflexivity|].
  destruct ev; cbn; try exact IH. rewrite IH. reflexivity.
Qed.

Lemma held_from_app t1 : forall c t2,
  held_from c (t1 ++ t2) = held_from (held_from c t1) t2.
Proof.
  induction t1 as [|ev t1 IH]; intros c t2; [reflexivity|].
  destruct ev; cbn; try apply IH. destruct r; apply IH.
Qed.

Lemma container_calls_app t1 t2 :
  container_calls (t1 ++ t2) = container_calls t1 ++ container_calls t2.
Proof. apply filter_app. Qed.

Lemma submitted_logs t : Forall is_log t -> submitted t = [].
Proof.
  induction 1 as [|ev t H _ IH]; [reflexivity|].
  destruct ev; cbn in *; try contradiction. exact IH.
Qed.

Section Retries.

Variables (e : env) (kw : kwargs).

Lemma submitted_retries K : forall n0,
  (forall i, i < K -> throttled (client_put_log_events e (n0 + i) kw) = true) ->
  submitted (retries e kw n0 K) = [].
Proof.
  induction K as [|K IH]; intros n0 H; [reflexivity|].
  cbn. pose proof (H 0) as H0. rewrite Nat.add_0_r in H0. rewrite H0 by lia.
  apply IH. intros i Hi. replace (S n0 + i) with (n0 + S i) by lia.
  apply H. lia.
Qed.

Lemma sleeps_retries K : forall n0, sleeps (retries e kw n0 K) = repeat 2 K.
Proof.
  induction K as [|K IH]; intros n0; [reflexivity|]. cbn. rewrite IH. reflexivity.
Qed.

Lemma put_attempts_retries K : forall n0,
  map fst (put_attempts (retries e kw n0 K)) = repeat kw K.
Proof.
  induction K as [|K IH]; intros n0; [reflexivity|]. cbn. rewrite IH. reflexivity.
Qed.

Lemma held_from_retries K : forall n0 c,
  (forall i, i < K -> throttled (client_put_log_events e (n0 + i) kw) = true) ->
  held_from c (retries e kw n0 K) = c.
Proof.
  induction K as [|K IH]; intros n0 c H; [reflexivity|].
  cbn. pose proof (H 0) as H0. rewrite Nat.add_0_r in H0.
  destruct (client_put_log_events e n0 kw) as [next|x].
  - specialize (H0 ltac:(lia)). discriminate.
  - cbn. apply IH. intros i Hi. replace (S n0 + i) with (n0 + S i) by lia.
    apply H. lia.
Qed.

End Retries.

(** An attempt that is not throttled adds the call and at most the
    error log. *)
Lemma finish_inv c s kw r res s' :
  finish c s kw r = (res, s') ->
  exists more,
    trace s' = trace s ++ EvPut kw r :: more /\ Forall is_log more /\
    ticks s' = ticks s /\ puts s' = S (puts s).
Proof.
  unfold finish, after_put. intros H.
  destruct r as [next|x]; [|destruct (is_ClientError x)];
    inversion H; subst; cbn; eexists; (split; [reflexivity|]);
    (split; [|split; reflexivity]); repeat constructor.
Qed.

(** ** Batches, as a function of the events *)

Lemma full_batches_concat evs : forall buf,
  concat (fst (full_batches buf evs)) ++ snd (full_batches buf evs) = buf ++ evs.
Proof.
  induction evs as [|ev evs IH]; intros buf; cbn.
  - rewrite app_nil_r. reflexivity.
  - destruct (10 <=? length (buf ++ [ev])); cbn.
    + rewrite <- !app_assoc, IH. cbn. reflexivity.
    + rewrite IH, <- app_assoc. reflexivity.
Qed.

Lemma full_batches_sizes evs : forall buf,
  length buf < 10 ->
  Forall (fun b => length b = 10) (fst (full_batches buf evs)) /\
  length (snd (full_batches buf evs)) < 10.
Proof.
  induction evs as [|ev evs IH]; intros buf Hb; cbn.
  - split; [constructor|exact Hb].
  - destruct (10 <=? length (buf ++ [ev])) eqn:L; cbn.
    + apply Nat.leb_le in L. rewrite length_app in L. cbn in L.
      destruct (IH [] ltac:(cbn; lia)) as [F R]. split; [|exact R].
      constructor; [|exact F]. rewrite length_app. cbn. lia.
    + apply Nat.leb_gt in L. apply IH. exact L.
Qed.

Lemma length_concat_full (bs : list batch) :
  Forall (fun b => length b = 10) bs -> length (concat bs) = 10 * length bs.
Proof.
  induction 1 as [|b bs Hb _ IH]; [reflexivity|].
  cbn [concat length]. rewrite length_app, Hb, IH. lia.
Qed.

(** How many batches, and how much is left: quotient and remainder. *)
Lemma full_batches_count evs buf :
  length buf < 10 ->
  length (fst (full_batches buf evs)) = (length buf + length evs) / 10 /\
  length (snd (full_batches buf evs)) = (length buf + length evs) mod 10.
Proof.
  intros Hb. destruct (full_batches_sizes evs buf Hb) as [F R].
  pose proof (full_batches_concat evs buf) as C.
  apply (f_equal (@length _)) in C. rewrite !length_app in C.
  rewrite (length_concat_full _ F) in C.
  split.
  - apply Nat.div_unique with (r := length (snd (full_batches buf evs)));
      [exact R|lia].
  - apply Nat.mod_unique with (q := length (fst (full_batches buf evs)));
      [exact R|lia].
Qed.

Lemma map_message_stamp e msgs : forall n, map message (stamp e n msgs) = msgs.
Proof.
  induction msgs as [|m msgs IH]; intros n; [reflexivity|]. cbn. rewrite IH.
  reflexivity.
Qed.

Lemma length_stamp e msgs n : length (stamp e n msgs) = length msgs.
Proof. rewrite <- (map_message_stamp e msgs n) at 2. rewrite length_map. reflexivity. Qed.

(** ** Runs that return *)

Lemma bind_inv {A B} (m : M A) (k : A -> M B) s r s' :
  bind m k s = (r, s') ->
  (exists a s1, m s = (Return a, s1) /\ k a s1 = (r, s'))
  \/ (exists x, m s = (Raise x, s') /\ r = Raise x)
  \/ (m s = (OutOfFuel, s') /\ r = OutOfFuel).
Proof.
  unfold bind. destruct (m s) as [[a|x|] s1]; intros H.
  - left. eauto.
  - right. left. inversion H; subst. eauto.
  - right. right. inversion H; subst. eauto.
Qed.

Lemma bind_returns {A B} (m : M A) (k : A -> M B) s b s' :
  bind m k s = (Return b, s') ->
  exists a s1, m s = (Return a, s1) /\ k a s1 = (Return b, s').
Proof.
  intros H. apply bind_inv in H.
  destruct H as [H|[(x & _ & H)|[_ H]]]; [exact H|discriminate|discriminate].
Qed.

Lemma answer_returns r s u s' :
  answer r s = (Return u, s') -> r = None /\ s' = s.
Proof.
  destruct r; cbn; intros H; inversion H; subst. split; reflexivity.
Qed.

Lemma push_returned fuel e g st b c s c' s' :
  b <> [] ->
  push_log_events fuel e g st b c s = (Return c', s') ->
  exists new,
    trace s' = trace s ++ new /\ ticks s' = ticks s /\ submitted new = [b].
Proof.
  intros Hb H.
  apply (push_inv e g st b c Hb) in H.
  destruct H as [(K & _ & Hthr & Hlast & Hfin)|[Hr _]]; [|discriminate].
  symmetry in Hfin. apply finish_inv in Hfin.
  destruct Hfin as (more & Ht & Hlog & Hticks & _).
  cbn [retried trace ticks] in Ht, Hticks.
  exists (retries e (make_kwargs g st b c) (puts s) K
          ++ EvPut (make_kwargs g st b c)
               (client_put_log_events e (puts s + K) (make_kwargs g st b c))
             :: more).
  split; [rewrite Ht, <- app_assoc; reflexivity|]. split; [exact Hticks|].
  rewrite submitted_app, (submitted_retries e _ K (puts s) Hthr).
  cbn. rewrite Hlast, (submitted_logs more Hlog). reflexivity.
Qed.

(** The comprehension of the second read cannot fail: it stamps the
    accepted lines. *)
Lemma drain_events_eq e lines : forall s,
  drain_events e lines s =
  (Return (stamp e (ticks s) (accepted lines)),
   mkState (puts s) (ticks s + length (accepted lines)) (trace s)).
Proof.
  induction lines as [|line lines IH]; intros s.
  - cbn. rewrite Nat.add_0_r. destruct s; reflexivity.
  - cbn [drain_events]. unfold accepted in *. cbn [map filter].
    destruct (truthy_str (strip line)).
    + unfold bind at 1. unfold now. unfold bind at 1. rewrite IH.
      cbn. rewrite Nat.add_succ_r. reflexivity.
    + apply IH.
Qed.

Lemma stream_loop_returned fuel e args lines : forall buf c s buf' c' s',
  stream_loop fuel e args lines buf c s = (Return (buf', c'), s') ->
  exists new,
    trace s' = trace s ++ new /\
    ticks s' = ticks s + length (accepted lines) /\
    submitted new = fst (full_batches buf (stamp e (ticks s) (accepted lines))) /\
    buf' = snd (full_batches buf (stamp e (ticks s) (accepted lines))).
Proof.
  induction lines as [|line lines IH]; intros buf c s buf' c' s' H.
  - cbn in H. inversion H; subst. exists []. cbn.
    rewrite app_nil_r, Nat.add_0_r. repeat split; reflexivity.
  - cbn [stream_loop] in H. unfold accepted in *. cbn [map filter].
    destruct (truthy_str (strip line)).
    + apply bind_returns in H. destruct H as (t & s1 & Hnow & H).
      unfold now in Hnow. inversion Hnow; subst t s1; clear Hnow.
      cbn [stamp full_batches length].
      destruct (10 <=? length (buf ++ [mkEvent (clock e (ticks s)) (strip line)])).
      * apply bind_returns in H. destruct H as (c1 & s2 & Hpush & H).
        apply push_returned in Hpush; [|intros E; destruct buf; discriminate].
        destruct Hpush as (new1 & Ht1 & Hk1 & Hs1).
        apply IH in H. destruct H as (new2 & Ht2 & Hk2 & Hs2 & Hb2).
        cbn [trace ticks] in Ht1, Hk1.
        rewrite Hk1 in *.
        exists (new1 ++ new2).
        split; [rewrite Ht2, Ht1, app_assoc; reflexivity|].
        split; [rewrite Hk2; lia|].
        split; [rewrite submitted_app, Hs1, Hs2; reflexivity|exact Hb2].
      * apply IH in H. destruct H as (new & Ht & Hk & Hs & Hb).
        cbn [trace ticks] in Ht, Hk, Hs, Hb.
        exists new. split; [exact Ht|]. split; [rewrite Hk; lia|].
        split; assumption.
    + apply IH in H. exact H.
Qed.

Lemma pump_returned fuel e args buf c s s' :
  pump fuel e args buf c s = (Return tt, s') ->
  exists during after,
    trace s' = trace s ++ EvLogs true :: during ++ EvLogs false :: after /\
    logs_stream_end e = None /\ logs_drain_end e = None /\
    submitted during =
      fst (full_batches buf (stamp e (ticks s) (accepted (logs_stream e)))) /\
    submitted after =
      (if is_empty (last_batch e buf (ticks s)) then []
       else [last_batch e buf (ticks s)]).
Proof.
  unfold pump. intros H.
  apply bind_returns in H. destruct H as ([] & s1 & H1 & H).
  unfold emit in H1. inversion H1; subst s1; clear H1.
  apply bind_returns in H. destruct H as ([buf1 c1] & s2 & Hloop & H).
  apply stream_loop_returned in Hloop.
  destruct Hloop as (during & Ht2 & Hk2 & Hs2 & Hb2).
  cbn [trace ticks] in Ht2, Hk2, Hs2, Hb2.
  apply bind_returns in H. destruct H as ([] & s3 & Hend & H).
  apply answer_returns in Hend. destruct Hend as [Hend ->].
  apply bind_returns in H. destruct H as ([] & s4 & H4 & H).
  unfold emit in H4. inversion H4; subst s4; clear H4.
  apply bind_returns in H. destruct H as (extra & s5 & Hdrain & H).
  rewrite drain_events_eq in Hdrain. inversion Hdrain; subst extra s5; clear Hdrain.
  apply bind_returns in H. destruct H as ([] & s6 & Hend2 & H).
  apply answer_returns in Hend2. destruct Hend2 as [Hend2 ->].
  cbn [fst snd puts ticks trace] in H.
  assert (Hlast : buf1 ++ stamp e (ticks s2) (accepted (logs_drain e))
                  = last_batch e buf (ticks s)).
  { unfold last_batch. rewrite Hb2, Hk2. reflexivity. }
  rewrite Hlast in H.
  destruct (is_empty (last_batch e buf (ticks s))) eqn:E.
  - unfold ret in H. inversion H; subst s'; clear H. cbn [trace].
    exists during, []. rewrite Ht2, <- !app_assoc. cbn.
    repeat split; trivial.
  - apply bind_returns in H. destruct H as (c2 & s7 & Hpush & H).
    unfold ret in H. inversion H; subst s7; clear H.
    apply push_returned in Hpush; [|intros N; rewrite N in E; discriminate].
    destruct Hpush as (after & Ht & _ & Hs). cbn [trace] in Ht.
    exists during, after. rewrite Ht, Ht2, <- !app_assoc. cbn.
    repeat split; trivial.
Qed.

(** ** [push_log_events]: the empty batch, the token parameter, retries *)

Lemma push_nil fuel e g st c s :
  push_log_events fuel e g st [] c s = (Return c, s).
Proof. rewrite push_log_events_unfold. reflexivity. Qed.

(** C6.  For every cursor, [push_log_events] on an empty batch returns
    the cursor unchanged and leaves the state as it was: no call is made
    on the sink (the call count and the trace are unchanged). *)
Theorem push_empty_batch_is_noop : forall fuel e g st c s,
  push_log_events fuel e g st [] c s = (Return c, s).
Proof. intros. rewrite push_log_events_unfold. reflexivity. Qed.

Lemma sent_token_some c t : sent_token c = Some t <-> c = Some t /\ t <> "".
Proof.
  unfold sent_token. destruct c as [[|a u]|]; cbn.
  - split; [discriminate|]. intros [E N]. inversion E; subst. congruence.
  - split.
    + intros E. inversion E; subst. split; [reflexivity|discriminate].
    + intros [E _]. exact E.
  - split; [discriminate|]. intros [E _]. discriminate.
Qed.

Lemma sent_token_falsy c : truthy c = false -> sent_token c = None.
Proof. unfold sent_token. intros ->. reflexivity. Qed.

(** What a call adds to the trace, whatever its outcome: attempts on
    one and the same [kwargs], at least one. *)
Lemma push_attempts fuel e g st b c s :
  b <> [] ->
  exists new K,
    trace (snd (push_log_events fuel e g st b c s)) = trace s ++ new /\
    map fst (put_attempts new) = repeat (make_kwargs g st b c) (S K).
Proof.
  intros Hb.
  destruct (push_log_events fuel e g st b c s) as [r s'] eqn:H.
  apply (push_inv e g st b c Hb) in H.
  destruct H as [(K & _ & _ & _ & Hfin)|(_ & -> & _)].
  - symmetry in Hfin. apply finish_inv in Hfin.
    destruct Hfin as (more & Ht & Hlog & _). cbn [retried trace] in Ht.
    eexists. exists K. cbn [snd]. split.
    + rewrite Ht, <- app_assoc. reflexivity.
    + rewrite put_attempts_app, map_app, put_attempts_retries. cbn.
      replace (put_attempts more) with (@nil (kwargs * put_result)).
      * cbn. rewrite <- repeat_cons. reflexivity.
      * clear Ht. induction Hlog as [|ev more Hev _ IH]; [reflexivity|].
        destruct ev; cbn in *; try contradiction. exact IH.
  - eexists. exists fuel. cbn [snd retried trace]. split; [reflexivity|].
    apply put_attempts_retries.
Qed.

(** C10.  Every sink call of [push_log_events] on a non-empty batch
    carries the [sequenceToken] parameter exactly when the cursor is
    truthy, and then with the cursor as its value; at least one call is
    made.  So the parameter is absent for the cursor [None] and for any
    falsy cursor such as the empty string. *)
Theorem sequence_token_sent_iff_truthy : forall fuel e g st b c s,
  b <> [] ->
  exists new,
    trace (snd (push_log_events fuel e g st b c s)) = trace s ++ new /\
    put_attempts new <> [] /\
    forall kw r, In (kw, r) (put_attempts new) ->
      logEvents kw = b /\
      (forall t, sequenceToken kw = Some t <-> c = Some t /\ t <> "") /\
      (truthy c = false -> sequenceToken kw = None).
Proof.
  intros fuel e g st b c s Hb.
  destruct (push_attempts fuel e g st b c s Hb) as (new & K & Ht & Hkw).
  exists new. split; [exact Ht|]. split.
  - intros N. rewrite N in Hkw. discriminate.
  - intros kw r Hin.
    assert (Hk : kw = make_kwargs g st b c).
    { apply (repeat_spec (S K)). rewrite <- Hkw.
      apply (in_map fst) in Hin. exact Hin. }
    subst kw. cbn [make_kwargs logEvents sequenceToken].
    split; [reflexivity|]. split; [apply sent_token_some|apply sent_token_falsy].
Qed.


(** ** The streaming loop, forwards *)

Lemma stamp_app e a : forall n b,
  stamp e n (a ++ b) = stamp e n a ++ stamp e (n + length a) b.
Proof.
  induction a as [|m a IH]; intros n b; cbn.
  - rewrite Nat.add_0_r. reflexivity.
  - rewrite IH, Nat.add_succ_r. reflexivity.
Qed.

Lemma accepted_app l1 l2 : accepted (l1 ++ l2) = accepted l1 ++ accepted l2.
Proof. unfold accepted. rewrite map_app, filter_app. reflexivity. Qed.

Lemma accepted_cons line lines :
  accepted (line :: lines) =
  if truthy_str (strip line) then strip line :: accepted lines else accepted lines.
Proof. reflexivity. Qed.

(** While the buffer stays below ten events nothing is pushed. *)
Lemma stream_loop_short fuel e args c lines : forall buf s,
  length buf + length (accepted lines) < 10 ->
  stream_loop fuel e args lines buf c s =
  (Return (buf ++ stamp e (ticks s) (accepted lines), c),
   mkState (puts s) (ticks s + length (accepted lines)) (trace s)).
Proof.
  induction lines as [|line lines IH]; intros buf s H.
  - cbn. rewrite app_nil_r, Nat.add_0_r. destruct s; reflexivity.
  - cbn [stream_loop]. rewrite accepted_cons in *.
    destruct (truthy_str (strip line)).
    + cbn [length] in H. unfold bind at 1, now.
      replace (10 <=? length (buf ++ [mkEvent (clock e (ticks s)) (strip line)]))
        with false.
      2:{ symmetry. apply Nat.leb_gt. rewrite length_app. cbn. lia. }
      rewrite IH by (cbn [ticks]; rewrite length_app; cbn; lia).
      cbn [puts ticks trace stamp length]. rewrite <- app_assoc, Nat.add_succ_r.
      reflexivity.
    + apply IH. exact H.
Qed.

(** The line that brings the buffer to ten events has it pushed, and the
    loop goes on with an empty buffer and the cursor the push returns. *)
Lemma stream_loop_fill fuel e args c line l2 l1 : forall buf s,
  truthy_str (strip line) = true ->
  length buf + length (accepted l1) = 9 ->
  stream_loop fuel e args (l1 ++ line :: l2) buf c s =
  bind
    (push_log_events fuel e (aws_cloudwatch_group args) (aws_cloudwatch_stream args)
       (buf ++ stamp e (ticks s) (accepted l1 ++ [strip line])) c)
    (fun c' => stream_loop fuel e args l2 [] c')
    (mkState (puts s) (ticks s + S (length (accepted l1))) (trace s)).
Proof.
  induction l1 as [|a l1 IH]; intros buf s T H.
  - cbn [app stream_loop]. rewrite T. unfold bind at 1, now.
    cbn in H.
    replace (10 <=? length (buf ++ [mkEvent (clock e (ticks s)) (strip line)]))
      with true.
    2:{ symmetry. apply Nat.leb_le. rewrite length_app. cbn. lia. }
    cbn. rewrite Nat.add_1_r. reflexivity.
  - cbn [app stream_loop]. rewrite accepted_cons in *.
    destruct (truthy_str (strip a)).
    + cbn [length] in H. unfold bind at 1, now.
      replace (10 <=? length (buf ++ [mkEvent (clock e (ticks s)) (strip a)]))
        with false.
      2:{ symmetry. apply Nat.leb_gt. rewrite length_app. cbn. lia. }
      rewrite IH; [|exact T|rewrite length_app; cbn; lia].
      cbn [puts ticks trace app stamp length].
      rewrite <- app_assoc.
      replace (S (ticks s) + S (length (accepted l1)))
        with (ticks s + S (S (length (accepted l1)))) by lia.
      reflexivity.
    + apply IH; assumption.
Qed.

(** The input up to its [k+1]-th accepted line. *)
Lemma accepted_split lines : forall k,
  k < length (accepted lines) ->
  exists l1 line l2,
    lines = l1 ++ line :: l2 /\ truthy_str (strip line) = true /\
    length (accepted l1) = k /\
    accepted lines = accepted l1 ++ strip line :: accepted l2.
Proof.
  induction lines as [|a lines IH]; intros k H; [cbn in H; lia|].
  rewrite accepted_cons in H.
  destruct (truthy_str (strip a)) eqn:T.
  - destruct k as [|k].
    + exists [], a, lines. rewrite accepted_cons, T. repeat split; trivial.
    + cbn [length] in H. destruct (IH k ltac:(lia)) as (l1 & line & l2 & E & Tl & L & A).
      exists (a :: l1), line, l2. rewrite !accepted_cons, T. cbn [length app].
      rewrite E at 1. rewrite A. repeat split; trivial. lia.
  - destruct (IH k H) as (l1 & line & l2 & E & Tl & L & A).
    exists (a :: l1), line, l2. rewrite !accepted_cons, T. cbn [app].
    rewrite E at 1. repeat split; trivial.
Qed.

(** ** An abandoned batch *)

Lemma push_abandoned fuel e g st b c s code msg :
  b <> [] ->
  client_put_log_events e (puts s) (make_kwargs g st b c)
    = PutRaise (ClientError code msg) ->
  code <> "ThrottlingException" ->
  push_log_events fuel e g st b c s =
  (Return c,
   mkState (S (puts s)) (ticks s)
     (trace s ++ [EvPut (make_kwargs g st b c) (PutRaise (ClientError code msg));
                  EvLog ERROR ("Failed to push log events: " ++ msg)])).
Proof.
  intros Hb Hr Hc.
  rewrite (push_not_throttled e g st b c Hb); rewrite Hr.
  - reflexivity.
  - cbn. apply String.eqb_neq. exact Hc.
Qed.

Lemma push_accepted fuel e g st b c s next :
  b <> [] ->
  client_put_log_events e (puts s) (make_kwargs g st b c) = PutOk next ->
  push_log_events fuel e g st b c s =
  (Return next,
   mkState (S (puts s)) (ticks s)
     (trace s ++ [EvPut (make_kwargs g st b c) (PutOk next)])).
Proof.
  intros Hb Hr.
  rewrite (push_not_throttled e g st b c Hb); rewrite Hr; reflexivity.
Qed.

Lemma stamp_nonempty e n msgs : msgs <> [] -> stamp e n msgs <> [].
Proof. destruct msgs; [congruence|discriminate]. Qed.

Section ThreeBatches.

Variables (fuel : nat) (e : env) (args : Namespace) (s : state).
Variables (t1 t3 : cursor) (code msg : string).

Let g := aws_cloudwatch_group args.
Let st := aws_cloudwatch_stream args.
Let acc := accepted (logs_stream e).
Let extra := accepted (logs_drain e).

Hypothesis stream_ends : logs_stream_end e = None.
Hypothesis drain_ends : logs_drain_end e = None.
Hypothesis two_full : 20 <= length acc < 30.
Hypothesis a_third : 20 < length acc + length extra.
Hypothesis first_ok : forall kw, client_put_log_events e (puts s) kw = PutOk t1.
Hypothesis second_fails :
  forall kw, client_put_log_events e (puts s + 1) kw = PutRaise (ClientError code msg).
Hypothesis not_throttling : code <> "ThrottlingException".
Hypothesis third_ok : forall kw, client_put_log_events e (puts s + 2) kw = PutOk t3.

Lemma pump_three_batches :
  exists b1 b2 b3,
    length b1 = 10 /\ length b2 = 10 /\
    b1 ++ b2 ++ b3 = stamp e (ticks s) (acc ++ extra) /\
    pump fuel e args [] None s =
    (Return tt,
     mkState (puts s + 3) (ticks s + length acc + length extra)
       (trace s ++
        [EvLogs true;
         EvPut (make_kwargs g st b1 None) (PutOk t1);
         EvPut (make_kwargs g st b2 t1) (PutRaise (ClientError code msg));
         EvLog ERROR ("Failed to push log events: " ++ msg);
         EvLogs false;
         EvPut (make_kwargs g st b3 t1) (PutOk t3)])).
Proof.
  destruct (accepted_split (logs_stream e) 9) as (l1 & ln1 & rest1 & E1 & T1 & L1 & A1);
    [fold acc; lia|].
  assert (Hr1 : 9 < length (accepted rest1)).
  { fold acc in A1. pose proof (f_equal (@length _) A1) as HL.
    rewrite length_app in HL. cbn in HL. lia. }
  destruct (accepted_split rest1 9 Hr1) as (l2 & ln2 & rest2 & E2 & T2 & L2 & A2).
  assert (Hr2 : length (accepted rest2) = length acc - 20).
  { fold acc in A1. pose proof (f_equal (@length _) A1) as HL.
    pose proof (f_equal (@length _) A2) as HL2.
    rewrite length_app in HL, HL2. cbn in HL, HL2. lia. }
  exists (stamp e (ticks s) (accepted l1 ++ [strip ln1])),
         (stamp e (ticks s + 10) (accepted l2 ++ [strip ln2])),
         (stamp e (ticks s + 20) (accepted rest2 ++ extra)).
  split; [rewrite length_stamp, length_app; cbn; lia|].
  split; [rewrite length_stamp, length_app; cbn; lia|].
  split.
  { fold acc in A1.
    remember (accepted l1 ++ [strip ln1]) as X1 eqn:EX1.
    remember (accepted l2 ++ [strip ln2]) as X2 eqn:EX2.
    assert (EA : acc ++ extra = X1 ++ X2 ++ accepted rest2 ++ extra).
    { rewrite A1, A2, EX1, EX2.
      repeat (rewrite <- app_assoc || rewrite <- app_comm_cons). reflexivity. }
    assert (LX1 : length X1 = 10) by (rewrite EX1, length_app; cbn; lia).
    assert (LX2 : length X2 = 10) by (rewrite EX2, length_app; cbn; lia).
    rewrite EA, (stamp_app e X1), (stamp_app e X2), LX1, LX2.
    replace (ticks s + 10 + 10) with (ticks s + 20) by lia. reflexivity. }
  assert (Hloop :
    stream_loop fuel e args (logs_stream e) [] None
      (mkState (puts s) (ticks s) (trace s ++ [EvLogs true]))
    = (Return (stamp e (ticks s + 20) (accepted rest2), t1),
       mkState (puts s + 2) (ticks s + length acc)
         (trace s ++
          [EvLogs true;
           EvPut (make_kwargs g st (stamp e (ticks s) (accepted l1 ++ [strip ln1])) None)
             (PutOk t1);
           EvPut (make_kwargs g st (stamp e (ticks s + 10) (accepted l2 ++ [strip ln2])) t1)
             (PutRaise (ClientError code msg));
           EvLog ERROR ("Failed to push log events: " ++ msg)]))).
  { rewrite E1, (stream_loop_fill fuel e args None ln1 rest1 l1 [] _ T1 L1).
    unfold bind. cbn [app puts ticks trace].
    erewrite push_accepted;
      [|apply stamp_nonempty; destruct (accepted l1); discriminate|apply first_ok].
    rewrite E2, (stream_loop_fill fuel e args t1 ln2 rest2 l2 [] _ T2 L2).
    unfold bind. cbn [app puts ticks trace]. rewrite L1, L2.
    erewrite push_abandoned;
      [|apply stamp_nonempty; destruct (accepted l2); discriminate
       |cbn [puts]; rewrite <- Nat.add_1_r; apply second_fails
       |exact not_throttling].
    rewrite stream_loop_short by (cbn [length]; lia).
    cbn [app puts ticks trace]. rewrite <- !app_assoc. cbn [app].
    replace (ticks s + 10 + 10) with (ticks s + 20) by lia.
    replace (ticks s + 20 + length (accepted rest2)) with (ticks s + length acc) by lia.
    replace (S (S (puts s))) with (puts s + 2) by lia.
    reflexivity. }
  unfold pump, bind, emit. rewrite Hloop, stream_ends. cbn [answer ret fst snd puts ticks trace].
  rewrite drain_events_eq, drain_ends. cbn [answer ret fst snd puts ticks trace].
  fold extra.
  replace (stamp e (ticks s + 20) (accepted rest2) ++ stamp e (ticks s + length acc) extra)
    with (stamp e (ticks s + 20) (accepted rest2 ++ extra)).
  2:{ rewrite stamp_app. do 2 f_equal. lia. }
  assert (Hne : stamp e (ticks s + 20) (accepted rest2 ++ extra) <> []).
  { apply stamp_nonempty. intros N. apply (f_equal (@length _)) in N.
    rewrite length_app in N. cbn in N. lia. }
  destruct (stamp e (ticks s + 20) (accepted rest2 ++ extra)) as [|ev b3] eqn:B3;
    [congruence|].
  cbn [is_empty].
  erewrite push_accepted; [|discriminate|cbn [puts]; apply third_ok].
  cbn [ret puts ticks trace]. rewrite <- !app_assoc. cbn [app].
  replace (S (puts s + 2)) with (puts s + 3) by lia. reflexivity.
Qed.

End ThreeBatches.


(** ** Batches of a completed pump *)

Lemma accepted_not_whitespace lines :
  accepted lines = map strip (filter (fun l => negb (whitespace_only l)) lines).
Proof.
  induction lines as [|l lines IH]; [reflexivity|].
  rewrite accepted_cons, truthy_strip. cbn [filter].
  destruct (negb (whitespace_only l)); cbn [map]; rewrite IH; reflexivity.
Qed.

Lemma map_length_full (bs : list batch) :
  Forall (fun b => length b = 10) bs ->
  map (@length LogEvent) bs = repeat 10 (length bs).
Proof.
  induction 1 as [|b bs Hb _ IH]; [reflexivity|]. cbn. rewrite Hb, IH. reflexivity.
Qed.

Lemma is_empty_length {A} (l : list A) : is_empty l = true <-> length l = 0.
Proof. destruct l; cbn; split; congruence. Qed.

Section Completed.

Variables (fuel : nat) (e : env) (args : Namespace) (s s' : state).
Hypothesis completed : pump fuel e args [] None s = (Return tt, s').

Let n_s := length (accepted (logs_stream e)).
Let n_d := length (accepted (logs_drain e)).

(** The shape of a completed run: full batches while streaming, and
    after the second read one batch with all the rest, unless there is
    nothing left. *)
Lemma pump_completed :
  exists during after,
    trace s' = trace s ++ EvLogs true :: during ++ EvLogs false :: after /\
    Forall (fun b => length b = 10) (submitted during) /\
    length (submitted during) = n_s / 10 /\
    length (concat (submitted after)) = n_s mod 10 + n_d /\
    length (submitted after) <= 1 /\
    ~ In [] (submitted after) /\
    concat (submitted during ++ submitted after)
      = stamp e (ticks s) (accepted (logs_stream e) ++ accepted (logs_drain e)) /\
    concat (submitted after)
      = skipn (10 * (n_s / 10)) (stamp e (ticks s) (accepted (logs_stream e)))
        ++ stamp e (ticks s + n_s) (accepted (logs_drain e)).
Proof.
  destruct (pump_returned fuel e args [] None s s' completed)
    as (during & after & Ht & _ & _ & Hd & Ha).
  exists during, after. split; [exact Ht|].
  set (evs := stamp e (ticks s) (accepted (logs_stream e))) in *.
  assert (L0 : @length LogEvent [] < 10) by (cbn; lia).
  destruct (full_batches_sizes evs [] L0) as [F R].
  destruct (full_batches_count evs [] L0) as [Cq Cr].
  cbn [length Nat.add] in Cq, Cr. unfold evs in Cq, Cr.
  rewrite length_stamp in Cq, Cr. fold evs in Cq, Cr. fold n_s in Cq, Cr.
  pose proof (full_batches_concat evs []) as C. cbn [app] in C.
  assert (Hlast : concat (submitted after) = last_batch e [] (ticks s)).
  { rewrite Ha. destruct (last_batch e [] (ticks s)); cbn; [reflexivity|].
    rewrite app_nil_r. reflexivity. }
  assert (Hleft : snd (full_batches [] evs) = skipn (10 * (n_s / 10)) evs).
  { rewrite <- C at 2. rewrite <- Cq, <- (length_concat_full _ F).
    rewrite skipn_app, skipn_all, Nat.sub_diag. reflexivity. }
  rewrite Hd. split; [exact F|]. split; [exact Cq|].
  split.
  { rewrite Hlast. unfold last_batch. fold evs.
    rewrite length_app, Cr, length_stamp. reflexivity. }
  split.
  { rewrite Ha. destruct (is_empty (last_batch e [] (ticks s))); cbn; lia. }
  split.
  { rewrite Ha. destruct (is_empty (last_batch e [] (ticks s))) eqn:E; cbn.
    - tauto.
    - intros [N|[]]. rewrite N in E. discriminate. }
  split.
  { rewrite concat_app, Hlast. unfold last_batch. fold evs.
    rewrite app_assoc, C. unfold evs. rewrite stamp_app. reflexivity. }
  rewrite Hlast. unfold last_batch. fold evs. fold n_s. rewrite Hleft. reflexivity.
Qed.

End Completed.



(** ** Blank lines *)

Lemma stream_loop_skips_blank fuel e args line post pre : forall buf c s,
  whitespace_only line = true ->
  stream_loop fuel e args (pre ++ line :: post) buf c s
  = stream_loop fuel e args (pre ++ post) buf c s.
Proof.
  induction pre as [|a pre IH]; intros buf c s W.
  - cbn [app stream_loop]. rewrite truthy_strip, W. reflexivity.
  - cbn [app stream_loop]. destruct (truthy_str (strip a)).
    + unfold bind at 1 3, now.
      destruct (10 <=? length (buf ++ [mkEvent (clock e (ticks s)) (strip a)])).
      * unfold bind.
        destruct (push_log_events fuel e (aws_cloudwatch_group args)
                    (aws_cloudwatch_stream args)
                    (buf ++ [mkEvent (clock e (ticks s)) (strip a)]) c _)
          as [[c'| |] s1]; [apply IH; exact W|reflexivity|reflexivity].
      * apply IH. exact W.
    + apply IH. exact W.
Qed.

Lemma drain_events_skips_blank e line post pre s :
  whitespace_only line = true ->
  drain_events e (pre ++ line :: post) s = drain_events e (pre ++ post) s.
Proof.
  intros W. rewrite !drain_events_eq, !accepted_app, accepted_cons, truthy_strip, W.
  reflexivity.
Qed.

(** C8.  A line that is empty or whitespace only makes no event: the
    streaming loop and the comprehension of the second read do on an
    input with such a line what they do on the input without it.  Any
    other line makes one event, with the stripped line as its message:
    in the comprehension; in the loop, where it joins the buffer, which
    is pushed when that makes ten; and over a run that completes, where
    the events pushed are, in order, the lines of both reads that are
    not whitespace only, stripped. *)
Theorem blank_lines_make_no_event :
  (forall fuel e args pre line post buf c s,
     whitespace_only line = true ->
     stream_loop fuel e args (pre ++ line :: post) buf c s
     = stream_loop fuel e args (pre ++ post) buf c s)
  /\
  (forall e pre line post s,
     whitespace_only line = true ->
     drain_events e (pre ++ line :: post) s = drain_events e (pre ++ post) s)
  /\
  (forall e line s,
     whitespace_only line = false ->
     drain_events e [line] s
     = (Return [mkEvent (clock e (ticks s)) (strip line)],
        mkState (puts s) (S (ticks s)) (trace s)))
  /\
  (forall fuel e args line buf c s,
     whitespace_only line = false ->
     let s1 := mkState (puts s) (S (ticks s)) (trace s) in
     let buf' := buf ++ [mkEvent (clock e (ticks s)) (strip line)] in
     stream_loop fuel e args [line] buf c s
     = if 10 <=? length buf' then
         bind (push_log_events fuel e (aws_cloudwatch_group args)
                 (aws_cloudwatch_stream args) buf' c)
           (fun c' => ret ([], c')) s1
       else (Return (buf', c), s1))
  /\
  (forall fuel e args s s',
     pump fuel e args [] None s = (Return tt, s') ->
     exists during after,
       trace s' = trace s ++ EvLogs true :: during ++ EvLogs false :: after /\
       map message (concat (submitted during ++ submitted after))
       = map strip (filter (fun l => negb (whitespace_only l))
                      (logs_stream e ++ logs_drain e))).
Proof.
  split; [|split; [|split; [|split]]].
  - intros. apply stream_loop_skips_blank. assumption.
  - intros. apply drain_events_skips_blank. assumption.
  - intros e line s W. rewrite drain_events_eq, accepted_cons, truthy_strip, W.
    cbn. rewrite Nat.add_1_r. reflexivity.
  - intros fuel e args line buf c s W s1 buf'. cbn [stream_loop].
    rewrite truthy_strip, W. cbn [negb]. unfold bind at 1, now. fold s1. fold buf'.
    destruct (10 <=? length buf'); reflexivity.
  - intros fuel e args s s' H.
    destruct (pump_completed fuel e args s s' H)
      as (during & after & Ht & _ & _ & _ & _ & _ & Call & _).
    exists during, after. split; [exact Ht|].
    rewrite Call, map_message_stamp, <- accepted_app. apply accepted_not_whitespace.
Qed.

(** ** Cursor threading *)

Lemma chained_app t1 : forall c t2,
  chained c (t1 ++ t2) <-> chained c t1 /\ chained (held_from c t1) t2.
Proof.
  induction t1 as [|ev t1 IH]; intros c t2.
  - cbn. tauto.
  - destruct ev; cbn [app chained held_from]; try apply IH.
    destruct r; rewrite IH; tauto.
Qed.

Lemma quiet_chained t c :
  Forall (fun ev => is_put ev = false) t -> chained c t /\ held_from c t = c.
Proof.
  induction 1 as [|ev t Hev _ IH]; [split; [exact I|reflexivity]|].
  destruct ev; cbn in *; try exact IH. discriminate.
Qed.

Lemma logs_quiet t : Forall is_log t -> Forall (fun ev => is_put ev = false) t.
Proof.
  apply Forall_impl. intros ev H. destruct ev; cbn in *; try contradiction.
  reflexivity.
Qed.

Lemma chained_retries e kw c K : forall n0,
  sequenceToken kw = sent_token c ->
  (forall i, i < K -> throttled (client_put_log_events e (n0 + i) kw) = true) ->
  chained c (retries e kw n0 K).
Proof.
  induction K as [|K IH]; intros n0 Hkw H; [exact I|].
  cbn. split; [exact Hkw|].
  pose proof (H 0) as H0. rewrite Nat.add_0_r in H0.
  destruct (client_put_log_events e n0 kw) as [next|x].
  - specialize (H0 ltac:(lia)). discriminate.
  - apply IH; [exact Hkw|]. intros i Hi.
    replace (S n0 + i) with (n0 + S i) by lia. apply H. lia.
Qed.

(** One call of [push_log_events], whatever its outcome: its attempts
    carry the cursor it was given, and the cursor it returns is the one
    held after them. *)
Lemma push_chained fuel e g st b c s r s' :
  push_log_events fuel e g st b c s = (r, s') ->
  exists new,
    trace s' = trace s ++ new /\ chained c new /\
    (forall c', r = Return c' -> held_from c new = c').
Proof.
  intros H. destruct b as [|ev b].
  - rewrite push_nil in H. inversion H; subst.
    exists []. rewrite app_nil_r. repeat split. intros c' E. inversion E; reflexivity.
  - apply (push_inv e g st (ev :: b) c ltac:(discriminate)) in H.
    set (kw := make_kwargs g st (ev :: b) c) in *.
    destruct H as [(K & _ & Hthr & Hlast & Hfin)|(-> & -> & Hall)].
    + pose proof Hfin as Hf. symmetry in Hf. apply finish_inv in Hf.
      destruct Hf as (more & Ht & Hlog & _). cbn [retried trace] in Ht.
      exists (retries e kw (puts s) K
              ++ EvPut kw (client_put_log_events e (puts s + K) kw) :: more).
      split; [rewrite Ht, <- app_assoc; reflexivity|].
      destruct (quiet_chained more
                  (match client_put_log_events e (puts s + K) kw with
                   | PutOk next => next | PutRaise _ => c end)
                  (logs_quiet more Hlog)) as [Hc Hh].
      split.
      * apply chained_app. split.
        -- apply chained_retries; [reflexivity|exact Hthr].
        -- rewrite (held_from_retries e kw K (puts s) c Hthr).
           cbn [chained]. split; [reflexivity|exact Hc].
      * intros c' E. rewrite held_from_app, (held_from_retries e kw K (puts s) c Hthr).
        unfold finish in Hfin.
        destruct (client_put_log_events e (puts s + K) kw) as [next|x].
        -- cbn [held_from]. rewrite Hh. inversion Hfin; subst. inversion H0; reflexivity.
        -- cbn [held_from].
           destruct (quiet_chained more c (logs_quiet more Hlog)) as [_ Hh'].
           rewrite Hh'. destruct (is_ClientError x); inversion Hfin; subst.
           ++ inversion H0; reflexivity.
           ++ discriminate.
    + exists (retries e kw (puts s) (S fuel)). cbn [retried trace].
      split; [reflexivity|]. split; [|discriminate].
      apply chained_retries; [reflexivity|exact Hall].
Qed.

Lemma stream_loop_chained fuel e args lines : forall buf c s r s',
  stream_loop fuel e args lines buf c s = (r, s') ->
  exists new,
    trace s' = trace s ++ new /\ chained c new /\
    (forall buf' c', r = Return (buf', c') -> held_from c new = c').
Proof.
  induction lines as [|line lines IH]; intros buf c s r s' H.
  - cbn in H. inversion H; subst. exists []. rewrite app_nil_r.
    repeat split. intros buf' c' E. inversion E; reflexivity.
  - cbn [stream_loop] in H. destruct (truthy_str (strip line)); [|eapply IH; exact H].
    unfold bind at 1, now in H.
    destruct (10 <=? length (buf ++ [mkEvent (clock e (ticks s)) (strip line)]));
      [|apply IH in H; exact H].
    apply bind_inv in H.
    destruct H as [(c1 & s1 & Hp & H)|[(x & Hp & ->)|[Hp ->]]].
    + apply push_chained in Hp. destruct Hp as (new1 & Ht1 & Hc1 & Hh1).
      apply IH in H. destruct H as (new2 & Ht2 & Hc2 & Hh2).
      cbn [trace] in Ht1. specialize (Hh1 c1 eq_refl).
      exists (new1 ++ new2). split; [rewrite Ht2, Ht1, app_assoc; reflexivity|].
      split.
      * apply chained_app. rewrite Hh1. split; assumption.
      * intros buf' c' E. rewrite held_from_app, Hh1. eapply Hh2. exact E.
    + apply push_chained in Hp. destruct Hp as (new1 & Ht1 & Hc1 & _).
      exists new1. split; [exact Ht1|]. split; [exact Hc1|discriminate].
    + apply push_chained in Hp. destruct Hp as (new1 & Ht1 & Hc1 & _).
      exists new1. split; [exact Ht1|]. split; [exact Hc1|discriminate].
Qed.

Lemma answer_inv a s r s' :
  answer a s = (r, s') ->
  s' = s /\ (a = None /\ r = Return tt \/ exists x, a = Some x /\ r = Raise x).
Proof.
  destruct a as [x|]; cbn; intros H; inversion H; subst; split; eauto.
Qed.

Lemma pump_chained fuel e args buf c s r s' :
  pump fuel e args buf c s = (r, s') ->
  exists new, trace s' = trace s ++ new /\ chained c new.
Proof.
  unfold pump. unfold bind at 1, emit at 1. intros H.
  apply bind_inv in H.
  destruct H as [([buf1 c1] & s1 & Hl & H)|[(x & Hl & ->)|[Hl ->]]].
  2,3: apply stream_loop_chained in Hl; destruct Hl as (new & Ht & Hc & _);
       cbn [trace] in Ht; exists (EvLogs true :: new);
       (split; [rewrite Ht, <- app_assoc; reflexivity|exact Hc]).
  apply stream_loop_chained in Hl. destruct Hl as (new1 & Ht1 & Hc1 & Hh1).
  cbn [trace] in Ht1. specialize (Hh1 buf1 c1 eq_refl).
  assert (Base : exists new, trace s1 = trace s ++ new /\ chained c new
                             /\ held_from c new = c1).
  { exists (EvLogs true :: new1). split; [rewrite Ht1, <- app_assoc; reflexivity|].
    split; [exact Hc1|exact Hh1]. }
  clear Ht1 Hc1 Hh1. destruct Base as (new & Ht & Hc & Hh).
  apply bind_inv in H.
  destruct H as [([] & s2 & Ha & H)|[(x & Ha & ->)|[Ha ->]]];
    apply answer_inv in Ha; destruct Ha as [-> _];
    [|exists new; split; assumption|exists new; split; assumption].
  unfold bind at 1, emit at 1 in H.
  unfold bind at 1 in H. rewrite drain_events_eq in H.
  cbn [fst snd puts ticks trace] in H.
  apply bind_inv in H.
  assert (Base : chained c (new ++ [EvLogs false])
                 /\ held_from c (new ++ [EvLogs false]) = c1).
  { rewrite held_from_app, Hh. split; [|reflexivity]. apply chained_app.
    rewrite Hh. split; [exact Hc|exact I]. }
  destruct Base as [Hc' Hh'].
  destruct H as [([] & s3 & Ha & H)|[(x & Ha & ->)|[Ha ->]]];
    apply answer_inv in Ha; destruct Ha as [Es _]; cbn [trace] in *.
  2,3: subst s'; cbn [trace]; exists (new ++ [EvLogs false]);
       (split; [rewrite Ht, <- app_assoc; reflexivity|exact Hc']).
  subst s3.
  destruct (is_empty _).
  - unfold ret in H. inversion H; subst. cbn [trace].
    exists (new ++ [EvLogs false]).
    split; [rewrite Ht, <- app_assoc; reflexivity|exact Hc'].
  - assert (Hp : exists rp, push_log_events fuel e (aws_cloudwatch_group args)
                   (aws_cloudwatch_stream args)
                   (buf1 ++ stamp e (ticks s1) (accepted (logs_drain e))) c1
                   (mkState (puts s1) (ticks s1 + length (accepted (logs_drain e)))
                      (trace s1 ++ [EvLogs false])) = (rp, s')).
    { apply bind_inv in H.
      destruct H as [(c2 & s4 & Hp & H)|[(x & Hp & _)|[Hp _]]]; eauto.
      unfold ret in H. inversion H; subst. eauto. }
    destruct Hp as (rp & Hp). apply push_chained in Hp.
    destruct Hp as (new2 & Ht2 & Hc2 & _). cbn [trace] in Ht2.
    exists ((new ++ [EvLogs false]) ++ new2).
    split; [rewrite Ht2, Ht, <- !app_assoc; reflexivity|].
    apply chained_app. rewrite Hh'. split; assumption.
Qed.

(** ** What a computation may add to the trace, and what it may raise *)

Section Rules.

Variables (K : event -> Prop) (R : exn -> Prop).

Lemma obeys_ret {A} (a : A) : obeys K R (ret a).
Proof.
  intros s r s' H. inversion H; subst. split; [|discriminate].
  exists []. rewrite app_nil_r. split; [reflexivity|constructor].
Qed.

Lemma obeys_raise {A} x : R x -> obeys K R (@raise A x).
Proof.
  intros Hx s r s' H. inversion H; subst. split.
  - exists []. rewrite app_nil_r. split; [reflexivity|constructor].
  - intros y E. inversion E; subst. exact Hx.
Qed.

Lemma obeys_out_of_fuel {A} : obeys K R (@out_of_fuel A).
Proof.
  intros s r s' H. inversion H; subst. split; [|discriminate].
  exists []. rewrite app_nil_r. split; [reflexivity|constructor].
Qed.

Lemma obeys_emit ev : K ev -> obeys K R (emit ev).
Proof.
  intros Hev s r s' H. inversion H; subst. split; [|discriminate].
  exists [ev]. split; [reflexivity|]. constructor; [exact Hev|constructor].
Qed.

Lemma obeys_log lvl msg : K (EvLog lvl msg) -> obeys K R (log lvl msg).
Proof. apply obeys_emit. Qed.

Lemma obeys_sleep n : K (EvSleep n) -> obeys K R (sleep n).
Proof. apply obeys_emit. Qed.

Lemma obeys_answer a : (forall x, a = Some x -> R x) -> obeys K R (answer a).
Proof.
  intros Ha. destruct a as [x|]; [apply obeys_raise; auto|apply obeys_ret].
Qed.

Lemma obeys_now e : obeys K R (now e).
Proof.
  intros s r s' H. inversion H; subst. split; [|discriminate].
  exists []. cbn. rewrite app_nil_r. split; [reflexivity|constructor].
Qed.

Lemma obeys_bind {A B} (m : M A) (k : A -> M B) :
  obeys K R m -> (forall a, obeys K R (k a)) -> obeys K R (bind m k).
Proof.
  intros Hm Hk s r s' H. apply bind_inv in H.
  destruct H as [(a & s1 & H1 & H2)|[(x & H1 & ->)|[H1 ->]]].
  - destruct (Hm _ _ _ H1) as [(n1 & T1 & F1) _].
    destruct (Hk a _ _ _ H2) as [(n2 & T2 & F2) Hr].
    split; [|exact Hr]. exists (n1 ++ n2).
    split; [rewrite T2, T1, app_assoc; reflexivity|apply Forall_app; auto].
  - destruct (Hm _ _ _ H1) as [Ht Hr]. split; [exact Ht|].
    intros y E. inversion E; subst. apply Hr. reflexivity.
  - destruct (Hm _ _ _ H1) as [Ht _]. split; [exact Ht|discriminate].
Qed.

Lemma select_in {A} (clauses : list ((exn -> bool) * (exn -> M A))) x h :
  select clauses x = Some h ->
  exists cls handler, In (cls, handler) clauses /\ cls x = true /\ h = handler x.
Proof.
  induction clauses as [|[cls handler] rest IH]; [discriminate|].
  cbn. destruct (cls x) eqn:C.
  - intros E. inversion E; subst. exists cls, handler. auto.
  - intros E. destruct (IH E) as (c' & h' & I' & C' & E'). exists c', h'. auto.
Qed.

(** The body may raise more ([R']) than the whole: what a clause
    catches is handled, the rest must be in [R]. *)
Lemma obeys_try_except {A} (R' : exn -> Prop) (body : M A) clauses :
  obeys K R' body ->
  (forall cls handler x, In (cls, handler) clauses -> R' x -> cls x = true ->
     obeys K R (handler x)) ->
  (forall x, R' x -> select clauses x = None -> R x) ->
  obeys K R (try_except body clauses).
Proof.
  intros Hb Hh Hu s r s' H. unfold try_except in H.
  destruct (body s) as [[a|x|] s1] eqn:Eb.
  - inversion H; subst. destruct (Hb _ _ _ Eb) as [Ht _].
    split; [exact Ht|discriminate].
  - destruct (Hb _ _ _ Eb) as [(n1 & T1 & F1) Hx]. specialize (Hx x eq_refl).
    destruct (select clauses x) as [h|] eqn:Es.
    + destruct (select_in _ _ _ Es) as (cls & handler & Hin & Hc & ->).
      destruct (Hh cls handler x Hin Hx Hc _ _ _ H) as [(n2 & T2 & F2) Hr].
      split; [|exact Hr]. exists (n1 ++ n2).
      split; [rewrite T2, T1, app_assoc; reflexivity|apply Forall_app; auto].
    + inversion H; subst. split; [eauto|].
      intros y E. inversion E; subst. auto.
  - inversion H; subst. destruct (Hb _ _ _ Eb) as [Ht _].
    split; [exact Ht|discriminate].
Qed.

Lemma obeys_try_finally {A} (body : M A) (fin : M unit) :
  obeys K R body -> obeys K R fin -> obeys K R (try_finally body fin).
Proof.
  intros Hb Hf s r s' H. unfold try_finally in H.
  destruct (body s) as [rb s1] eqn:Eb.
  destruct (Hb _ _ _ Eb) as [(n1 & T1 & F1) Hx].
  assert (Hfin : forall rf s2, fin s1 = (rf, s2) ->
            (exists new, trace s2 = trace s ++ new /\ Forall K new)
            /\ (forall x, rf = Raise x -> R x)).
  { intros rf s2 E2. destruct (Hf _ _ _ E2) as [(n2 & T2 & F2) Hr].
    split; [|exact Hr]. exists (n1 ++ n2).
    split; [rewrite T2, T1, app_assoc; reflexivity|apply Forall_app; auto]. }
  destruct rb as [a|x|].
  - destruct (fin s1) as [[u|y|] s2] eqn:E2; inversion H; subst;
      destruct (Hfin _ _ eq_refl) as [Ht Hr]; (split; [exact Ht|]);
      [discriminate| |discriminate].
    intros z E. inversion E; subst. apply Hr. reflexivity.
  - destruct (fin s1) as [[u|y|] s2] eqn:E2; inversion H; subst;
      destruct (Hfin _ _ eq_refl) as [Ht Hr]; (split; [exact Ht|]);
      [exact Hx| |discriminate].
    intros z E. inversion E; subst. apply Hr. reflexivity.
  - inversion H; subst. split; [eauto|discriminate].
Qed.

End Rules.

Create HintDb obeys.
#[local] Hint Resolve obeys_ret obeys_out_of_fuel obeys_now obeys_bind : obeys.

(** ** The pump: its events and its exceptions *)

Lemma put_log_events_obeys e kw :
  obeys is_pump_event (raised_by_sink e) (put_log_events e kw).
Proof.
  intros s r s' H. unfold put_log_events in H.
  destruct (client_put_log_events e (puts s) kw) as [next|x] eqn:E;
    inversion H; subst; cbn [trace].
  - split; [|discriminate]. eexists. split; [reflexivity|].
    constructor; [exact I|constructor].
  - split.
    + eexists. split; [reflexivity|]. constructor; [exact I|constructor].
    + intros y Ey. inversion Ey; subst. exists (puts s), kw. exact E.
Qed.

Lemma push_obeys e g st b c : forall fuel,
  obeys is_pump_event (raised_in_pump e) (push_log_events fuel e g st b c).
Proof.
  assert (Step : forall fuel,
            (forall f, f < fuel ->
               obeys is_pump_event (raised_in_pump e) (push_log_events f e g st b c)) ->
            obeys is_pump_event (raised_in_pump e) (push_log_events fuel e g st b c)).
  { intros fuel IH. rewrite push_log_events_unfold.
    destruct (is_empty b); [apply obeys_ret|].
    apply obeys_try_except with (R' := raised_by_sink e).
    - apply put_log_events_obeys.
    - intros cls handler x [E|[]] _ _. inversion E; subst.
      destruct (is_throttling x).
      + apply obeys_bind; [apply obeys_log; exact I|intros _].
        apply obeys_bind; [apply obeys_sleep; exact I|intros _].
        destruct fuel as [|f]; [apply obeys_out_of_fuel|apply IH; lia].
      + apply obeys_bind; [apply obeys_log; exact I|intros _]. apply obeys_ret.
    - intros x Hx Hs. right. right. split; [exact Hx|].
      cbn in Hs. destruct (is_ClientError x); [discriminate|reflexivity]. }
  intros fuel. induction fuel as [fuel IH] using lt_wf_ind. apply Step. exact IH.
Qed.

Lemma stream_loop_obeys fuel e args lines : forall buf c,
  obeys is_pump_event (raised_in_pump e) (stream_loop fuel e args lines buf c).
Proof.
  induction lines as [|line lines IH]; intros buf c; cbn [stream_loop].
  - apply obeys_ret.
  - destruct (truthy_str (strip line)); [|apply IH].
    apply obeys_bind; [apply obeys_now|intros t].
    destruct (10 <=? length (buf ++ [mkEvent t (strip line)])); [|apply IH].
    apply obeys_bind; [apply push_obeys|intros c']. apply IH.
Qed.

Lemma drain_events_obeys e lines K R : obeys K R (drain_events e lines).
Proof.
  induction lines as [|line lines IH]; cbn [drain_events].
  - auto with obeys.
  - destruct (truthy_str (strip line)); auto 6 with obeys.
Qed.

Lemma pump_obeys fuel e args buf c :
  obeys is_pump_event (raised_in_pump e) (pump fuel e args buf c).
Proof.
  unfold pump.
  apply obeys_bind; [apply obeys_emit; exact I|intros _].
  apply obeys_bind; [apply stream_loop_obeys|intros st].
  apply obeys_bind; [apply obeys_answer; intros x E; left; exact E|intros _].
  apply obeys_bind; [apply obeys_emit; exact I|intros _].
  apply obeys_bind; [apply drain_events_obeys|intros extra].
  apply obeys_bind;
    [apply obeys_answer; intros x E; right; left; exact E|intros _].
  destruct (is_empty (fst st ++ extra)); [auto with obeys|].
  apply obeys_bind; [apply push_obeys|auto with obeys].
Qed.

(** ** The guarded pump and the cleanup *)

Lemma cleanup_eq e s :
  cleanup e s
  = (cleanup_result e, mkState (puts s) (ticks s) (trace s ++ cleanup_events e)).
Proof.
  unfold cleanup, cleanup_result, cleanup_events, bind, emit, answer, raise, ret.
  destruct (container_stop e); [reflexivity|].
  destruct (container_remove e); cbn; rewrite <- app_assoc; reflexivity.
Qed.

Lemma cleanup_result_raise e x :
  cleanup_result e = Raise x -> raised_in_cleanup e x.
Proof.
  unfold cleanup_result, raised_in_cleanup.
  destruct (container_stop e); [intros E; inversion E; auto|].
  destruct (container_remove e); intros E; inversion E; auto.
Qed.

Lemma caught_pump_inv fuel e args s r s' :
  try_except (pump fuel e args [] None) api_error_clause s = (r, s') ->
  exists mid,
    trace s' = trace s ++ mid /\ Forall is_pump_event mid /\ chained None mid /\
    (forall x, r = Raise x -> raised_in_pump e x /\ is_APIError x = false).
Proof.
  unfold try_except. destruct (pump fuel e args [] None s) as [rp sp] eqn:Ep.
  destruct (pump_obeys fuel e args [] None _ _ _ Ep) as [(new & T & F) Hr].
  destruct (pump_chained fuel e args [] None _ _ _ Ep) as (new' & T' & C).
  assert (new' = new) by (rewrite T in T'; apply app_inv_head in T'; congruence).
  subst new'.
  destruct rp as [u|x|].
  - intros H. inversion H; subst. exists new.
    split; [exact T|]. split; [exact F|]. split; [exact C|discriminate].
  - cbn [api_error_clause select]. destruct (is_APIError x) eqn:A.
    + unfold log, emit. intros H. inversion H; subst. cbn [trace].
      exists (new ++ [EvLog ERROR ("Docker API error: " ++ str x)]).
      split; [rewrite T, <- app_assoc; reflexivity|].
      split; [apply Forall_app; split; [exact F|repeat constructor]|].
      split; [|discriminate].
      apply chained_app. split; [exact C|exact I].
    + intros H. inversion H; subst. exists new.
      split; [exact T|]. split; [exact F|]. split; [exact C|].
      intros y E. inversion E; subst. split; [apply Hr; reflexivity|exact A].
  - intros H. inversion H; subst. exists new.
    split; [exact T|]. split; [exact F|]. split; [exact C|discriminate].
Qed.

Lemma guarded_inv fuel e args s r s' :
  try_finally (try_except (pump fuel e args [] None) api_error_clause) (cleanup e) s
  = (r, s') ->
  exists mid,
    Forall is_pump_event mid /\ chained None mid /\
    ((r = OutOfFuel /\ trace s' = trace s ++ mid)
     \/ (r <> OutOfFuel /\ trace s' = trace s ++ mid ++ cleanup_events e)) /\
    (forall x, r = Raise x ->
       (raised_in_pump e x /\ is_APIError x = false) \/ raised_in_cleanup e x).
Proof.
  unfold try_finally.
  destruct (try_except (pump fuel e args [] None) api_error_clause s)
    as [rb s1] eqn:Eb.
  apply caught_pump_inv in Eb. destruct Eb as (mid & T & F & C & Hr).
  intros H. exists mid. split; [exact F|]. split; [exact C|].
  pose proof (cleanup_result_raise e) as Hc.
  assert (Hnf : cleanup_result e <> OutOfFuel).
  { unfold cleanup_result. destruct (container_stop e); [discriminate|].
    destruct (container_remove e); discriminate. }
  destruct rb as [u|x|]; cbv beta iota in H.
  - rewrite cleanup_eq in H.
    destruct (cleanup_result e) as [v|y|]; [| |congruence];
      inversion H; subst; cbn [trace]; rewrite T, <- app_assoc.
    + split; [right; split; [discriminate|reflexivity]|discriminate].
    + split; [right; split; [discriminate|reflexivity]|].
      intros z E. inversion E; subst. right. apply Hc. reflexivity.
  - rewrite cleanup_eq in H.
    destruct (cleanup_result e) as [v|y|]; [| |congruence];
      inversion H; subst; cbn [trace]; rewrite T, <- app_assoc.
    + split; [right; split; [discriminate|reflexivity]|].
      intros z E. inversion E; subst. left. apply Hr. reflexivity.
    + split; [right; split; [discriminate|reflexivity]|].
      intros z E. inversion E; subst. right. apply Hc. reflexivity.
  - inversion H; subst.
    split; [left; split; [reflexivity|exact T]|discriminate].
Qed.

(** ** The whole of [main] *)

Lemma create_log_group_eq e g s :
  create_log_group e g s =
  let called := EvCreateLogGroup g (client_create_log_group e) in
  match client_create_log_group e with
  | None =>
      (Return tt, mkState (puts s) (ticks s)
                    (trace s ++ [called; EvLog INFO ("Created log group " ++ g)]))
  | Some x =>
      if is_ResourceAlreadyExists x then
        (Return tt, mkState (puts s) (ticks s)
                      (trace s ++ [called;
                                   EvLog INFO ("Log group " ++ g ++ " already exists")]))
      else (Raise x, mkState (puts s) (ticks s) (trace s ++ [called]))
  end.
Proof.
  unfold create_log_group, try_except, log, bind, emit, answer, raise, ret.
  destruct (client_create_log_group e) as [x|]; cbn [select puts ticks trace].
  - destruct (is_ResourceAlreadyExists x); cbn [select puts ticks trace];
      [rewrite <- app_assoc|]; reflexivity.
  - rewrite <- app_assoc. reflexivity.
Qed.

Lemma create_log_stream_eq e g st s :
  create_log_stream e g st s =
  let called := EvCreateLogStream g st (client_create_log_stream e) in
  match client_create_log_stream e with
  | None =>
      (Return tt, mkState (puts s) (ticks s)
                    (trace s ++ [called; EvLog INFO ("Created log stream " ++ st)]))
  | Some x =>
      if is_ResourceAlreadyExists x then
        (Return tt, mkState (puts s) (ticks s)
                      (trace s ++ [called;
                                   EvLog INFO ("Log stream " ++ st ++ " already exists")]))
      else (Raise x, mkState (puts s) (ticks s) (trace s ++ [called]))
  end.
Proof.
  unfold create_log_stream, try_except, log, bind, emit, answer, raise, ret.
  destruct (client_create_log_stream e) as [x|]; cbn [select puts ticks trace].
  - destruct (is_ResourceAlreadyExists x); cbn [select puts ticks trace];
      [rewrite <- app_assoc|]; reflexivity.
  - rewrite <- app_assoc. reflexivity.
Qed.

Lemma main_eq fuel e args :
  main fuel e args =
  (emit (EvClient (boto3_client e)) ;;
   answer (boto3_client e) ;;
   try_except (provisioned_pump fuel e args) main_clauses).
Proof. reflexivity. Qed.

Lemma provisioned_pump_inv fuel e args s r s' :
  provisioned_pump fuel e args s = (r, s') ->
  (exists pre x,
     r = Raise x /\ trace s' = trace s ++ pre /\ Forall is_setup pre /\
     raised_in_setup e x)
  \/
  (exists pre s1,
     trace s1 = trace s ++ pre
                ++ [EvRun (docker_image args)
                      ("/bin/bash -c '" ++ bash_command args ++ "'") None] /\
     Forall is_setup pre /\
     try_finally (try_except (pump fuel e args [] None) api_error_clause)
       (cleanup e) s1 = (r, s')).
Proof.
  unfold provisioned_pump. unfold bind at 1. rewrite create_log_group_eq. cbv zeta.
  intros H.
  assert (G : exists l1 s1,
            trace s1 = trace s ++ l1 /\ Forall is_setup l1 /\
            ((create_log_stream e (aws_cloudwatch_group args)
                (aws_cloudwatch_stream args) ;;
              emit (EvFromEnv (docker_from_env e)) ;;
              answer (docker_from_env e) ;;
              emit (EvRun (docker_image args)
                      ("/bin/bash -c '" ++ bash_command args ++ "'")
                      (containers_run e)) ;;
              answer (containers_run e) ;;
              try_finally (try_except (pump fuel e args [] None) api_error_clause)
                (cleanup e)) s1 = (r, s')
             \/ exists x, r = Raise x /\ s' = s1 /\ raised_in_setup e x)).
  { destruct (client_create_log_group e) as [x|] eqn:Eg.
    - destruct (is_ResourceAlreadyExists x) eqn:Ex.
      + eexists; eexists; (split; [|split; [|left; exact H]]);
          [reflexivity|repeat constructor].
      + inversion H; subst.
        eexists; eexists;
          (split; [|split; [|right; exists x; unfold raised_in_setup; auto]]);
          [reflexivity|repeat constructor].
    - eexists; eexists; (split; [|split; [|left; exact H]]);
        [reflexivity|repeat constructor]. }
  clear H. destruct G as (l1 & s1 & T1 & F1 & [H|(x & -> & -> & Hx)]).
  2:{ left. exists l1, x. auto. }
  unfold bind at 1 in H. rewrite create_log_stream_eq in H. cbv zeta in H.
  assert (G : exists l2 s2,
            trace s2 = trace s1 ++ l2 /\ Forall is_setup l2 /\
            ((emit (EvFromEnv (docker_from_env e)) ;;
              answer (docker_from_env e) ;;
              emit (EvRun (docker_image args)
                      ("/bin/bash -c '" ++ bash_command args ++ "'")
                      (containers_run e)) ;;
              answer (containers_run e) ;;
              try_finally (try_except (pump fuel e args [] None) api_error_clause)
                (cleanup e)) s2 = (r, s')
             \/ exists x, r = Raise x /\ s' = s2 /\ raised_in_setup e x)).
  { destruct (client_create_log_stream e) as [x|] eqn:Eg.
    - destruct (is_ResourceAlreadyExists x) eqn:Ex.
      + eexists; eexists; (split; [|split; [|left; exact H]]);
          [reflexivity|repeat constructor].
      + inversion H; subst.
        eexists; eexists;
          (split; [|split; [|right; exists x; unfold raised_in_setup; auto]]);
          [reflexivity|repeat constructor].
    - eexists; eexists; (split; [|split; [|left; exact H]]);
        [reflexivity|repeat constructor]. }
  clear H. destruct G as (l2 & s2 & T2 & F2 & [H|(x & -> & -> & Hx)]).
  2:{ left. exists (l1 ++ l2), x. rewrite T2, T1, app_assoc.
      split; [reflexivity|]. split; [reflexivity|].
      split; [apply Forall_app; auto|exact Hx]. }
  unfold bind at 1, emit at 1 in H. unfold bind at 1 in H.
  destruct (docker_from_env e) as [x|] eqn:Ef; cbn [answer raise ret] in H.
  { inversion H; subst. left. exists (l1 ++ l2 ++ [EvFromEnv (Some x)]), x.
    cbn [trace]. rewrite T2, T1, <- !app_assoc.
    split; [reflexivity|]. split; [reflexivity|].
    split; [repeat (apply Forall_app; split); auto; repeat constructor|].
    unfold raised_in_setup. auto. }
  unfold bind at 1, emit at 1 in H. unfold bind at 1 in H.
  destruct (containers_run e) as [x|] eqn:Er; cbn [answer raise ret] in H.
  { inversion H; subst. left.
    exists (l1 ++ l2 ++ [EvFromEnv None;
                         EvRun (docker_image args)
                           ("/bin/bash -c '" ++ bash_command args ++ "'") (Some x)]), x.
    cbn [trace puts ticks]. rewrite T2, T1, <- !app_assoc.
    split; [reflexivity|]. split; [reflexivity|].
    split; [repeat (apply Forall_app; split); auto; repeat constructor|].
    unfold raised_in_setup. auto. }
  right. exists (l1 ++ l2 ++ [EvFromEnv None]). eexists.
  split; [|split; [|exact H]].
  - cbn [trace puts ticks]. rewrite T2, T1, <- !app_assoc. reflexivity.
  - repeat (apply Forall_app; split); auto; repeat constructor.
Qed.

(** The three outer clauses catch every [Exception] and log it; only a
    [BaseException] passes. *)
Lemma handled_inv (body : M unit) s r s' :
  try_except body main_clauses s = (r, s') ->
  exists rb sb,
    body s = (rb, sb) /\
    ((r = rb /\ s' = sb /\ forall x, rb = Raise x -> is_Exception x = false)
     \/ (exists x msg,
           rb = Raise x /\ is_Exception x = true /\ r = Return tt /\
           trace s' = trace sb ++ [EvLog ERROR msg])).
Proof.
  unfold try_except. destruct (body s) as [rb sb]. intros H.
  exists rb, sb. split; [reflexivity|].
  destruct rb as [u|x|].
  - inversion H; subst. left. repeat split. discriminate.
  - destruct x; cbn [main_clauses select is_DockerException is_ClientError
                     is_Exception] in H; unfold log, emit in H;
      inversion H; subst; cbn [trace];
      try (right; eexists; eexists; repeat split; reflexivity).
    left. split; [reflexivity|]. split; [reflexivity|].
    intros y E. inversion E; subst. reflexivity.
  - inversion H; subst. left. repeat split. discriminate.
Qed.

(** Every run of [main]: the client could not be built; or no container
    was acquired; or one was, the pump ran, and (unless it is still
    retrying) the cleanup followed it. *)
Lemma main_inv fuel e args s r s' :
  main fuel e args s = (r, s') ->
  (exists x,
     boto3_client e = Some x /\ r = Raise x /\
     trace s' = trace s ++ [EvClient (Some x)])
  \/
  (boto3_client e = None /\
   (forall x, r = Raise x -> is_Exception x = false /\ raised_by e x) /\
   ((exists pre,
       r <> OutOfFuel /\ trace s' = trace s ++ EvClient None :: pre /\
       Forall is_setup pre)
    \/
    (exists pre mid logs,
       Forall is_setup pre /\ Forall is_pump_event mid /\ chained None mid /\
       Forall is_log logs /\
       ((r = OutOfFuel /\
         trace s' = trace s ++ EvClient None :: pre
                    ++ EvRun (docker_image args)
                         ("/bin/bash -c '" ++ bash_command args ++ "'") None
                       :: mid)
        \/
        (r <> OutOfFuel /\
         trace s' = trace s ++ EvClient None :: pre
                    ++ EvRun (docker_image args)
                         ("/bin/bash -c '" ++ bash_command args ++ "'") None
                       :: mid ++ cleanup_events e ++ logs))))).
Proof.
  rewrite main_eq. unfold bind at 1, emit at 1. unfold bind at 1.
  destruct (boto3_client e) as [x|] eqn:Eb; cbn [answer raise ret].
  { intros H. inversion H; subst. left. exists x. auto. }
  intros H. right. split; [reflexivity|].
  apply handled_inv in H. destruct H as (rb & sb & Hb & Hh).
  apply provisioned_pump_inv in Hb. cbn [trace] in Hb.
  destruct Hb as [(pre & x & -> & T & F & Hx)|(pre & s1 & T1 & F1 & Hg)].
  - (* no container *)
    destruct Hh as [(-> & -> & Hne)|(y & msg & E & Hy & -> & T')].
    + split.
      * intros y E. inversion E; subst. split; [apply Hne; reflexivity|].
        left. exact Hx.
      * left. exists pre. split; [discriminate|].
        split; [rewrite T, <- app_assoc; reflexivity|exact F].
    + split; [discriminate|]. left. exists (pre ++ [EvLog ERROR msg]).
      split; [discriminate|].
      split; [rewrite T', T, <- !app_assoc; reflexivity|].
      apply Forall_app. split; [exact F|repeat constructor].
  - (* a container *)
    apply guarded_inv in Hg. destruct Hg as (mid & Fm & Cm & Ht & Hr).
    destruct Hh as [(-> & -> & Hne)|(y & msg & E & Hy & -> & T')].
    + split.
      * intros y E. split; [apply Hne; exact E|].
        destruct (Hr y E) as [[Hp _]|Hc]; [right; left|right; right]; assumption.
      * right. exists pre, mid, []. split; [exact F1|]. split; [exact Fm|].
        split; [exact Cm|]. split; [constructor|].
        destruct Ht as [[-> T]|[Hn T]]; [left|right]; (split; [trivial|]);
          rewrite T, T1, <- !app_assoc; cbn [app]; rewrite ?app_nil_r;
          reflexivity.
    + split; [discriminate|].
      right. exists pre, mid, [EvLog ERROR msg]. split; [exact F1|].
      split; [exact Fm|]. split; [exact Cm|]. split; [repeat constructor|].
      right. split; [discriminate|].
      destruct Ht as [[-> _]|[_ T]]; [discriminate|].
      rewrite T', T, T1, <- !app_assoc. reflexivity.
Qed.

(** ** Cleanup *)

Lemma container_calls_none (K : event -> Prop) t :
  (forall ev, K ev -> is_container_call ev = false) ->
  Forall K t -> container_calls t = [].
Proof.
  intros HK. induction 1 as [|ev t Hev _ IH]; [reflexivity|].
  cbn. rewrite (HK ev Hev). exact IH.
Qed.

Lemma setup_no_call ev : is_setup ev -> is_container_call ev = false.
Proof. destruct ev; cbn; try contradiction; reflexivity. Qed.

Lemma pump_no_call ev : is_pump_event ev -> is_container_call ev = false.
Proof. destruct ev; cbn; try contradiction; reflexivity. Qed.

Lemma log_no_call ev : is_log ev -> is_container_call ev = false.
Proof. destruct ev; cbn; try contradiction; reflexivity. Qed.

Lemma container_calls_cleanup e : container_calls (cleanup_events e) = cleanup_events e.
Proof. unfold cleanup_events. destruct (container_stop e); reflexivity. Qed.

Lemma setup_not_acquired pre : Forall is_setup pre -> ~ acquired pre.
Proof.
  intros F (image & command & Hin).
  rewrite Forall_forall in F. exact (F _ Hin).
Qed.

(** C2, as the code has it.  In every run of [main] that ends: if a
    container handle was acquired, the calls on it are the stop and,
    when the stop returns, the remove after it, each made once, after
    everything else but the logging of an error; when the stop raises,
    the remove is not made.  If no handle was acquired, neither call is
    made. *)
Theorem cleanup_stop_then_remove : forall fuel e args r s',
  main fuel e args init = (r, s') ->
  r <> OutOfFuel ->
  (acquired (trace s') ->
   (exists before logs,
      trace s' = before ++ cleanup_events e ++ logs /\
      container_calls before = [] /\ Forall is_log logs) /\
   (container_stop e = None ->
    container_calls (trace s') = [EvStop None; EvRemove (container_remove e)]) /\
   (forall x, container_stop e = Some x ->
    container_calls (trace s') = [EvStop (Some x)]))
  /\
  (~ acquired (trace s') -> container_calls (trace s') = []).
Proof.
  intros fuel e args r s' H Hr. apply main_inv in H. cbn [init trace app] in H.
  destruct H as [(x & _ & _ & T)|(_ & _ & [(pre & _ & T & F)|H])].
  - rewrite T. split; [|reflexivity].
    intros (image & command & [E|[]]). discriminate.
  - assert (F' : Forall is_setup (EvClient None :: pre))
      by (constructor; [exact I|exact F]).
    rewrite T. split.
    + intros A. exfalso. exact (setup_not_acquired _ F' A).
    + intros _. exact (container_calls_none _ _ setup_no_call F').
  - destruct H as (pre & mid & logs & Fp & Fm & _ & Fl & [[E _]|[_ T]]);
      [congruence|].
    set (run := EvRun (docker_image args)
                  ("/bin/bash -c '" ++ bash_command args ++ "'") None) in *.
    assert (Hb : container_calls (EvClient None :: pre ++ run :: mid) = []).
    { change (EvClient None :: pre ++ run :: mid)
        with ((EvClient None :: pre) ++ [run] ++ mid).
      rewrite !container_calls_app,
        (container_calls_none _ _ setup_no_call
           (Forall_cons (EvClient None) I Fp)),
        (container_calls_none _ _ pump_no_call Fm).
      reflexivity. }
    assert (T' : trace s' = (EvClient None :: pre ++ run :: mid)
                            ++ cleanup_events e ++ logs).
    { rewrite T. cbn [app]. rewrite <- !app_assoc. reflexivity. }
    assert (Hall : container_calls (trace s') = cleanup_events e).
    { rewrite T', !container_calls_app, Hb, container_calls_cleanup,
        (container_calls_none _ _ log_no_call Fl), app_nil_r.
      reflexivity. }
    split.
    + intros _. split; [|split].
      * exists (EvClient None :: pre ++ run :: mid), logs.
        split; [exact T'|split; [exact Hb|exact Fl]].
      * intros Es. rewrite Hall. unfold cleanup_events. rewrite Es. reflexivity.
      * intros x Es. rewrite Hall. unfold cleanup_events. rewrite Es. reflexivity.
    + intros N. exfalso. apply N. exists (docker_image args).
      exists ("/bin/bash -c '" ++ bash_command args ++ "'")%string.
      rewrite T. right. apply in_or_app. right. left. reflexivity.
Qed.

(** ** The cursor, over a whole run *)

Lemma setup_quiet ev : is_setup ev -> is_put ev = false.
Proof. destruct ev; cbn; try contradiction; reflexivity. Qed.

Lemma cleanup_quiet e : Forall (fun ev => is_put ev = false) (cleanup_events e).
Proof.
  unfold cleanup_events. destruct (container_stop e); repeat constructor.
Qed.

Lemma main_chained fuel e args r s' :
  main fuel e args init = (r, s') -> chained None (trace s').
Proof.
  intros H. apply main_inv in H. cbn [init trace app] in H.
  destruct H as [(x & _ & _ & T)|(_ & _ & [(pre & _ & T & F)|H])].
  - rewrite T. exact I.
  - rewrite T. cbn [chained].
    apply (quiet_chained pre None). revert F. apply Forall_impl.
    exact setup_quiet.
  - destruct H as (pre & mid & logs & Fp & Fm & Cm & Fl & Ht).
    assert (Qp : Forall (fun ev => is_put ev = false) pre)
      by (revert Fp; apply Forall_impl; exact setup_quiet).
    destruct (quiet_chained pre None Qp) as [Cp Hp].
    assert (Cmid : forall rest, chained (held_from None mid) rest ->
              chained None (EvClient None :: pre
                 ++ EvRun (docker_image args)
                      ("/bin/bash -c '" ++ bash_command args ++ "'") None
                 :: mid ++ rest)).
    { intros rest Hrest. cbn [chained]. apply chained_app. split; [exact Cp|].
      rewrite Hp. cbn [chained]. apply chained_app. split; assumption. }
    destruct Ht as [[_ T]|[_ T]]; rewrite T.
    + rewrite <- (app_nil_r mid). apply Cmid. exact I.
    + apply Cmid. apply quiet_chained. apply Forall_app.
      split; [apply cleanup_quiet|apply logs_quiet; exact Fl].
Qed.

(** C5.  In every run of [main], the append attempts are chained: the
    first carries no token; each later one carries the cursor held when
    it is made, which is the cursor the sink returned to the last
    accepted attempt before it.  So, of two consecutive attempts, the
    later carries the next cursor the earlier one got, or, when the
    earlier one failed (throttled and retried, or abandoned), the token
    the earlier one carried.  The token parameter is the cursor itself
    when it is truthy and is absent otherwise. *)
Theorem cursor_is_threaded : forall fuel e args r s',
  main fuel e args init = (r, s') ->
  (forall pre kw r0 post,
     trace s' = pre ++ EvPut kw r0 :: post ->
     sequenceToken kw = sent_token (held_from None pre))
  /\
  (forall pre kw1 r1 mid kw2 r2 post,
     trace s' = pre ++ EvPut kw1 r1 :: mid ++ EvPut kw2 r2 :: post ->
     Forall (fun ev => is_put ev = false) mid ->
     sequenceToken kw2
     = match r1 with
       | PutOk next => sent_token next
       | PutRaise _ => sequenceToken kw1
       end).
Proof.
  intros fuel e args r s' H. apply main_chained in H.
  assert (D : forall pre kw r0 post,
            trace s' = pre ++ EvPut kw r0 :: post ->
            sequenceToken kw = sent_token (held_from None pre)).
  { intros pre kw r0 post T. rewrite T in H. apply chained_app in H.
    destruct H as [_ [H _]]. exact H. }
  split; [exact D|].
  intros pre kw1 r1 mid kw2 r2 post T Q.
  pose proof (D pre kw1 r1 _ T) as H1.
  assert (T2 : trace s' = (pre ++ EvPut kw1 r1 :: mid) ++ EvPut kw2 r2 :: post)
    by (rewrite T, <- app_assoc; reflexivity).
  rewrite (D _ kw2 r2 _ T2), held_from_app. cbn [held_from].
  destruct r1 as [next|x].
  - destruct (quiet_chained mid next Q) as [_ ->]. reflexivity.
  - destruct (quiet_chained mid (held_from None pre) Q) as [_ ->].
    symmetry. exact H1.
Qed.

(** ** What leaves [main] *)

(** C9, where the code departs from it.  An exception raised while the
    log client is built, before the outer [try] is entered, leaves
    [main] as it is: nothing is logged and nothing else is called. *)
Theorem client_construction_error_escapes : forall fuel e args s x,
  boto3_client e = Some x ->
  main fuel e args s
  = (Raise x, mkState (puts s) (ticks s) (trace s ++ [EvClient (Some x)])).
Proof.
  intros fuel e args s x E. rewrite main_eq.
  unfold bind, emit. rewrite E. reflexivity.
Qed.

(** Once the client is built, every [Exception] the collaborators raise
    is caught: [main] returns, or is still retrying. *)
Lemma main_catches_exceptions fuel e args s r s' :
  boto3_client e = None ->
  (forall x, raised_by e x -> is_Exception x = true) ->
  main fuel e args s = (r, s') ->
  r = Return tt \/ r = OutOfFuel.
Proof.
  intros Eb Hx H. apply main_inv in H.
  destruct H as [(x & E & _)|(_ & Hr & _)]; [congruence|].
  destruct r as [[]|x|]; [left; reflexivity| |right; reflexivity].
  destruct (Hr x eq_refl) as [N R]. rewrite (Hx x R) in N. discriminate.
Qed.

(** ** Concrete runs *)

(** The scenario of the spec: twenty-five accepted lines on the stream. *)
Example twenty_five_run :
  map (fun b => length b) (submitted (trace (snd (main 0 twenty_five args init))))
  = [10; 10; 5].
Proof. vm_compute. reflexivity. Qed.



(** The cleanup of C2 stops short when the stop raises: a handle was
    acquired, the run ends, and the remove is never called. *)
Lemma remove_skipped_when_stop_raises :
  fst (main 0 stop_fails args init) = Return tt /\
  acquired (trace (snd (main 0 stop_fails args init))) /\
  container_calls (trace (snd (main 0 stop_fails args init)))
  = [EvStop (Some (APIError "500 Server Error"))] /\
  ~ (exists r1 r2,
       container_calls (trace (snd (main 0 stop_fails args init)))
       = [EvStop r1; EvRemove r2]).
Proof.
  split; [vm_compute; reflexivity|]. split.
  - exists "alpine", "/bin/bash -c 'echo hello'". vm_compute. tauto.
  - split; [vm_compute; reflexivity|].
    intros (r1 & r2 & H). vm_compute in H. discriminate.
Qed.

(** ** The theorems at concrete inputs *)


Lemma cleanup_stop_then_remove_witness :
  let s' := snd (main 0 twenty_five args init) in
  main 0 twenty_five args init = (Return tt, s') /\
  Return tt <> @OutOfFuel unit /\
  ((acquired (trace s') ->
    (exists before logs,
       trace s' = before ++ cleanup_events twenty_five ++ logs /\
       container_calls before = [] /\ Forall is_log logs) /\
    (container_stop twenty_five = None ->
     container_calls (trace s')
     = [EvStop None; EvRemove (container_remove twenty_five)]) /\
    (forall x, container_stop twenty_five = Some x ->
     container_calls (trace s') = [EvStop (Some x)]))
   /\
   (~ acquired (trace s') -> container_calls (trace s') = [])).
Proof.
  intros s'. split; [vm_compute; reflexivity|]. split; [discriminate|].
  apply (cleanup_stop_then_remove 0 twenty_five args (Return tt) s').
  - vm_compute. reflexivity.
  - discriminate.
Defined.



Lemma cursor_is_threaded_witness :
  let s' := snd (main 0 second_refused args init) in
  main 0 second_refused args init = (Return tt, s') /\
  ((forall pre kw r0 post,
      trace s' = pre ++ EvPut kw r0 :: post ->
      sequenceToken kw = sent_token (held_from None pre))
   /\
   (forall pre kw1 r1 mid kw2 r2 post,
      trace s' = pre ++ EvPut kw1 r1 :: mid ++ EvPut kw2 r2 :: post ->
      Forall (fun ev => is_put ev = false) mid ->
      sequenceToken kw2
      = match r1 with
        | PutOk next => sent_token next
        | PutRaise _ => sequenceToken kw1
        end)).
Proof.
  intros s'. split; [vm_compute; reflexivity|].
  apply (cursor_is_threaded 0 second_refused args (Return tt) s').
  vm_compute. reflexivity.
Defined.


Lemma blank_lines_make_no_event_witness :
  whitespace_only "  " = true /\
  stream_loop 0 twenty_five args (letters 97 12 ++ "  " :: letters 109 13) [] None init
  = stream_loop 0 twenty_five args (letters 97 12 ++ letters 109 13) [] None init /\
  drain_events twenty_five ([] ++ " " :: []) init
  = drain_events twenty_five ([] ++ []) init /\
  whitespace_only " a " = false /\
  drain_events twenty_five [" a "] init
  = (Return [mkEvent (clock twenty_five (ticks init)) (strip " a ")],
     mkState (puts init) (S (ticks init)) (trace init)).
Proof.
  assert (W : whitespace_only "  " = true) by reflexivity.
  assert (W1 : whitespace_only " " = true) by reflexivity.
  assert (N : whitespace_only " a " = false) by reflexivity.
  split; [exact W|].
  split; [exact (proj1 blank_lines_make_no_event 0 twenty_five args
                   (letters 97 12) "  " (letters 109 13) [] None init W)|].
  split; [exact (proj1 (proj2 blank_lines_make_no_event) twenty_five
                   [] " " [] init W1)|].
  split; [exact N|].
  exact (proj1 (proj2 (proj2 blank_lines_make_no_event)) twenty_five " a " init N).
Defined.

Lemma client_construction_error_escapes_witness :
  boto3_client bad_region = Some (OtherException "InvalidRegionError") /\
  main 0 bad_region args init
  = (Raise (OtherException "InvalidRegionError"),
     mkState 0 0 [EvClient (Some (OtherException "InvalidRegionError"))]).
Proof.
  split; [reflexivity|].
  exact (client_construction_error_escapes 0 bad_region args init
           (OtherException "InvalidRegionError") eq_refl).
Defined.

Lemma sequence_token_sent_iff_truthy_witness :
  let e := quiet [] [] accepting in
  one_event <> [] /\
  exists new,
    trace (snd (push_log_events 0 e "group" "stream" one_event (Some "") init))
    = trace init ++ new /\
    put_attempts new <> [] /\
    forall kw r, In (kw, r) (put_attempts new) ->
      logEvents kw = one_event /\
      (forall t, sequenceToken kw = Some t <-> Some "" = Some t /\ t <> "") /\
      (truthy (Some "") = false -> sequenceToken kw = None).
Proof.
  intros e. assert (Hb : one_event <> []) by discriminate.
  split; [exact Hb|].
  exact (sequence_token_sent_iff_truthy 0 e "group" "stream" one_event (Some "")
           init Hb).
Defined.

(** * Further properties *)

(** ** Provisioning *)

Lemma extend_extend s a b : extend (extend s a) b = extend s (a ++ b).
Proof. unfold extend. cbn. rewrite <- app_assoc. reflexivity. Qed.

Lemma emit_extend ev s : emit ev s = (Return tt, extend s [ev]).
Proof. reflexivity. Qed.

Lemma create_log_group_run e g s :
  create_log_group e g s =
  (match failed (client_create_log_group e) with
   | Some x => Raise x
   | None => Return tt
   end, extend s (group_events e g)).
Proof.
  rewrite create_log_group_eq. unfold failed, group_events, extend. cbv zeta.
  destruct (client_create_log_group e) as [x|]; [|reflexivity].
  destruct (is_ResourceAlreadyExists x); reflexivity.
Qed.

Lemma create_log_stream_run e g st s :
  create_log_stream e g st s =
  (match failed (client_create_log_stream e) with
   | Some x => Raise x
   | None => Return tt
   end, extend s (stream_events e g st)).
Proof.
  rewrite create_log_stream_eq. unfold failed, stream_events, extend. cbv zeta.
  destruct (client_create_log_stream e) as [x|]; [|reflexivity].
  destruct (is_ResourceAlreadyExists x); reflexivity.
Qed.

(** The steps before the inner [try], run: they stop at the first
    exception, or hand over to the guarded pump. *)
Lemma provisioned_pump_run fuel e args s :
  provisioned_pump fuel e args s =
  match setup_failure e with
  | Some x => (Raise x, extend s (setup_trace e args))
  | None =>
      try_finally (try_except (pump fuel e args [] None) api_error_clause)
        (cleanup e) (extend s (setup_trace e args))
  end.
Proof.
  unfold provisioned_pump, setup_failure, setup_trace. cbv zeta.
  unfold bind at 1. rewrite create_log_group_run.
  destruct (failed (client_create_log_group e)) as [x|];
    [rewrite app_nil_r; reflexivity|].
  unfold bind at 1. rewrite create_log_stream_run.
  destruct (failed (client_create_log_stream e)) as [x|];
    [rewrite extend_extend, app_nil_r; reflexivity|].
  unfold bind at 1. rewrite emit_extend. unfold bind at 1.
  destruct (docker_from_env e) as [x|]; cbn [answer raise ret].
  { rewrite !extend_extend. reflexivity. }
  unfold bind at 1. rewrite emit_extend. unfold bind at 1.
  destruct (containers_run e) as [x|]; cbn [answer raise ret];
    rewrite !extend_extend; reflexivity.
Qed.

Lemma main_run fuel e args s :
  main fuel e args s =
  match boto3_client e with
  | Some x => (Raise x, extend s [EvClient (Some x)])
  | None =>
      try_except (provisioned_pump fuel e args) main_clauses
        (extend s [EvClient None])
  end.
Proof.
  rewrite main_eq. unfold bind at 1. rewrite emit_extend. unfold bind at 1.
  destruct (boto3_client e); reflexivity.
Qed.

Lemma setup_failure_none e :
  setup_failure e = None <->
  created (client_create_log_group e) = true /\
  created (client_create_log_stream e) = true /\
  docker_from_env e = None /\ containers_run e = None.
Proof.
  unfold setup_failure, failed, created.
  destruct (client_create_log_group e) as [x|];
    [destruct (is_ResourceAlreadyExists x)|];
    (destruct (client_create_log_stream e) as [y|];
       [destruct (is_ResourceAlreadyExists y)|]);
    destruct (docker_from_env e); destruct (containers_run e);
    split; try discriminate; try (intros (A & B & C & D); discriminate);
    repeat split; reflexivity.
Qed.

Lemma group_events_setup e g : Forall is_setup (group_events e g).
Proof.
  unfold group_events. destruct (client_create_log_group e) as [x|];
    [destruct (is_ResourceAlreadyExists x)|]; repeat constructor.
Qed.

Lemma stream_events_setup e g st : Forall is_setup (stream_events e g st).
Proof.
  unfold stream_events. destruct (client_create_log_stream e) as [x|];
    [destruct (is_ResourceAlreadyExists x)|]; repeat constructor.
Qed.

(** The steps before the pump leave a started container in the trace
    exactly when none of them failed. *)
Lemma setup_trace_shape e args :
  match setup_failure e with
  | Some _ => Forall is_setup (setup_trace e args)
  | None =>
      exists pre,
        Forall is_setup pre /\
        setup_trace e args
        = pre ++ [EvRun (docker_image args)
                    ("/bin/bash -c '" ++ bash_command args ++ "'") None]
  end.
Proof.
  unfold setup_failure, setup_trace. cbv zeta.
  pose proof (group_events_setup e (aws_cloudwatch_group args)) as G.
  pose proof (stream_events_setup e (aws_cloudwatch_group args)
                (aws_cloudwatch_stream args)) as S.
  destruct (failed (client_create_log_group e)).
  { rewrite app_nil_r. exact G. }
  destruct (failed (client_create_log_stream e)).
  { rewrite app_nil_r. apply Forall_app. split; assumption. }
  destruct (docker_from_env e).
  { repeat (apply Forall_app; split); trivial. repeat constructor. }
  destruct (containers_run e).
  { repeat (apply Forall_app; split); trivial. repeat constructor. }
  exists (group_events e (aws_cloudwatch_group args)
          ++ stream_events e (aws_cloudwatch_group args) (aws_cloudwatch_stream args)
          ++ [EvFromEnv None]).
  split.
  - repeat (apply Forall_app; split); trivial. repeat constructor.
  - rewrite <- !app_assoc. reflexivity.
Qed.

Lemma caught_pump_run fuel e args s r s' :
  try_except (pump fuel e args [] None) api_error_clause s = (r, s') ->
  exists rp sp logs,
    pump fuel e args [] None s = (rp, sp) /\ s' = extend sp logs /\
    Forall is_log logs /\
    (r = rp /\ logs = []
     \/ exists x, rp = Raise x /\ is_APIError x = true /\ r = Return tt
                  /\ logs = [EvLog ERROR ("Docker API error: " ++ str x)]).
Proof.
  unfold try_except. destruct (pump fuel e args [] None s) as [rp sp].
  intros H. exists rp, sp.
  assert (N : sp = extend sp []) by (unfold extend; rewrite app_nil_r; destruct sp; reflexivity).
  destruct rp as [u|x|].
  - inversion H; subst. exists []. rewrite <- N. repeat split; auto.
  - cbn [api_error_clause select] in H. destruct (is_APIError x) eqn:A.
    + unfold log in H. rewrite emit_extend in H. inversion H; subst.
      eexists. split; [reflexivity|]. split; [reflexivity|].
      split; [repeat constructor|]. right. exists x. auto.
    + inversion H; subst. exists []. rewrite <- N. repeat split; auto.
  - inversion H; subst. exists []. rewrite <- N. repeat split; auto.
Qed.

Lemma tail_of_logs t : Forall is_log t -> Forall is_tail t.
Proof.
  apply Forall_impl. intros ev H. destruct ev; cbn in *; try contradiction. exact I.
Qed.

Lemma cleanup_events_tail e : Forall is_tail (cleanup_events e).
Proof. unfold cleanup_events. destruct (container_stop e); repeat constructor. Qed.

(** Every run of [main], by what happened before the pump: the client
    was not built; a step before the pump failed; or the pump ran, from
    the state the steps left, and only log records and the cleanup
    follow it. *)
Lemma main_cases fuel e args s r s' :
  main fuel e args s = (r, s') ->
  (exists x, boto3_client e = Some x /\ trace s' = trace s ++ [EvClient (Some x)])
  \/
  (boto3_client e = None /\
   exists x logs,
     setup_failure e = Some x /\ Forall is_log logs /\
     trace s' = trace s ++ EvClient None :: setup_trace e args ++ logs)
  \/
  (boto3_client e = None /\ setup_failure e = None /\
   exists rp sp tail,
     pump fuel e args [] None (extend s (EvClient None :: setup_trace e args))
     = (rp, sp) /\
     trace s' = trace sp ++ tail /\ Forall is_tail tail).
Proof.
  rewrite main_run. destruct (boto3_client e) as [x|] eqn:Eb.
  { intros H. inversion H; subst. left. exists x. auto. }
  intros H. right. apply handled_inv in H. destruct H as (rb & sb & Hb & Hh).
  rewrite provisioned_pump_run, extend_extend in Hb. cbn [app] in Hb.
  assert (Hlogs : exists logs, Forall is_log logs /\ trace s' = trace sb ++ logs).
  { destruct Hh as [(_ & -> & _)|(y & msg & _ & _ & _ & T)].
    - exists []. rewrite app_nil_r. split; [constructor|reflexivity].
    - exists [EvLog ERROR msg]. split; [repeat constructor|exact T]. }
  destruct Hlogs as (logs & Fl & Tl).
  destruct (setup_failure e) as [x|] eqn:Ef.
  - left. split; [reflexivity|]. exists x, logs. inversion Hb; subst.
    split; [reflexivity|]. split; [exact Fl|].
    rewrite Tl. cbn [extend trace]. rewrite <- app_assoc. reflexivity.
  - right. split; [reflexivity|]. split; [reflexivity|].
    unfold try_finally in Hb.
    destruct (try_except (pump fuel e args [] None) api_error_clause
                (extend s (EvClient None :: setup_trace e args)))
      as [r1 s2] eqn:E1.
    apply caught_pump_run in E1.
    destruct E1 as (rp & sp & logs1 & Hp & -> & F1 & _).
    exists rp, sp.
    assert (Hsb : exists mid, Forall is_tail mid /\ trace sb = trace sp ++ mid).
    { destruct r1 as [u|y|]; cbv beta iota in Hb.
      - rewrite cleanup_eq in Hb.
        exists (logs1 ++ cleanup_events e).
        split; [apply Forall_app; split;
                [apply tail_of_logs; exact F1|apply cleanup_events_tail]|].
        destruct (cleanup_result e); inversion Hb; subst; cbn [extend trace];
          rewrite <- app_assoc; reflexivity.
      - rewrite cleanup_eq in Hb.
        exists (logs1 ++ cleanup_events e).
        split; [apply Forall_app; split;
                [apply tail_of_logs; exact F1|apply cleanup_events_tail]|].
        destruct (cleanup_result e); inversion Hb; subst; cbn [extend trace];
          rewrite <- app_assoc; reflexivity.
      - inversion Hb; subst. exists logs1.
        split; [apply tail_of_logs; exact F1|reflexivity]. }
    destruct Hsb as (mid & Fm & Tm).
    exists (mid ++ logs). split; [exact Hp|].
    split; [rewrite Tl, Tm, <- app_assoc; reflexivity|].
    apply Forall_app. split; [exact Fm|apply tail_of_logs; exact Fl].
Qed.

Lemma acquired_app t1 t2 : acquired (t1 ++ t2) <-> acquired t1 \/ acquired t2.
Proof.
  unfold acquired. split.
  - intros (i & c & H). apply in_app_or in H. destruct H; [left|right]; eauto.
  - intros [(i & c & H)|(i & c & H)]; exists i, c; apply in_or_app; auto.
Qed.

Lemma not_acquired (K : event -> Prop) t :
  (forall i c, ~ K (EvRun i c None)) -> Forall K t -> ~ acquired t.
Proof.
  intros HK F (i & c & H). rewrite Forall_forall in F. exact (HK i c (F _ H)).
Qed.

Lemma setup_not_run i c : ~ is_setup (EvRun i c None).
Proof. exact (fun H => H). Qed.

Lemma pump_not_run i c : ~ is_pump_event (EvRun i c None).
Proof. exact (fun H => H). Qed.

Lemma tail_not_run i c : ~ is_tail (EvRun i c None).
Proof. exact (fun H => H). Qed.

Lemma log_not_run i c : ~ is_log (EvRun i c None).
Proof. exact (fun H => H). Qed.

(** X1.  A container is started in a run of [main] exactly when the log
    client is built, the log group and the log stream are created or
    exist already, the Docker client is built and [containers.run]
    returns: an existing group or stream is no obstacle, and any other
    failure before the start means that no container is started. *)
Theorem container_started_iff_provisioned : forall fuel e args r s',
  main fuel e args init = (r, s') ->
  (acquired (trace s') <-> provisioning_ok e).
Proof.
  intros fuel e args r s' H. apply main_cases in H. cbn [init trace app] in H.
  unfold provisioning_ok.
  destruct H as [(x & Eb & T)|[(Eb & x & logs & Ef & Fl & T)
                               |(Eb & Ef & rp & sp & tail & Hp & T & Ft)]].
  - rewrite T. split.
    + intros (i & c & [E|[]]). discriminate.
    + intros (E & _). congruence.
  - split.
    + intros A. exfalso. rewrite T in A.
      change (EvClient None :: setup_trace e args ++ logs)
        with ([EvClient None] ++ setup_trace e args ++ logs) in A.
      rewrite !acquired_app in A.
      pose proof (setup_trace_shape e args) as S. rewrite Ef in S.
      destruct A as [A|[A|A]].
      * revert A. apply (not_acquired is_setup); [exact setup_not_run|].
        repeat constructor.
      * revert A. apply (not_acquired is_setup); [exact setup_not_run|exact S].
      * revert A. apply (not_acquired is_log); [exact log_not_run|exact Fl].
    + intros (_ & P). apply setup_failure_none in P. congruence.
  - split; [intros _; split; [exact Eb|apply setup_failure_none; exact Ef]|].
    intros _.
    destruct (pump_obeys fuel e args [] None _ _ _ Hp) as [(new & Tn & _) _].
    cbn [extend trace init app] in Tn.
    pose proof (setup_trace_shape e args) as S. rewrite Ef in S.
    destruct S as (pre & _ & S).
    exists (docker_image args), ("/bin/bash -c '" ++ bash_command args ++ "'")%string.
    rewrite T, Tn, S. apply in_or_app. left. right.
    apply in_or_app. left. apply in_or_app. right. left. reflexivity.
Qed.

Lemma container_started_iff_provisioned_witness :
  let s' := snd (main 0 twenty_five args init) in
  main 0 twenty_five args init = (Return tt, s') /\
  (acquired (trace s') <-> provisioning_ok twenty_five).
Proof.
  intros s'. split; [vm_compute; reflexivity|].
  apply (container_started_iff_provisioned 0 twenty_five args (Return tt) s').
  vm_compute. reflexivity.
Defined.

(** ** What is sent, in every run *)

Lemma put_log_events_obeys_any (K : event -> Prop) e kw :
  (forall r, K (EvPut kw r)) ->
  obeys K (raised_by_sink e) (put_log_events e kw).
Proof.
  intros HK s r s' H. unfold put_log_events in H.
  destruct (client_put_log_events e (puts s) kw) as [next|x] eqn:E;
    inversion H; subst; cbn [trace].
  - split; [|discriminate]. eexists. split; [reflexivity|].
    constructor; [apply HK|constructor].
  - split.
    + eexists. split; [reflexivity|]. constructor; [apply HK|constructor].
    + intros y Ey. inversion Ey; subst. exists (puts s), kw. exact E.
Qed.

(** A call of [push_log_events] only attempts the batch it is given. *)
Lemma push_obeys_batch (P : kwargs -> Prop) e g st b c :
  P (make_kwargs g st b c) ->
  forall fuel,
    obeys (is_push_event P) (raised_in_pump e) (push_log_events fuel e g st b c).
Proof.
  intros Pb fuel. induction fuel as [fuel IH] using lt_wf_ind.
  rewrite push_log_events_unfold.
  destruct (is_empty b); [apply obeys_ret|].
  apply obeys_try_except with (R' := raised_by_sink e).
  - apply put_log_events_obeys_any. intros r. exact Pb.
  - intros cls handler x [E|[]] _ _. inversion E; subst.
    destruct (is_throttling x).
    + apply obeys_bind; [apply obeys_log; exact I|intros _].
      apply obeys_bind; [apply obeys_sleep; exact I|intros _].
      destruct fuel as [|f]; [apply obeys_out_of_fuel|apply IH; lia].
    + apply obeys_bind; [apply obeys_log; exact I|intros _]. apply obeys_ret.
  - intros x Hx Hs. right. right. split; [exact Hx|].
    cbn in Hs. destruct (is_ClientError x); [discriminate|reflexivity].
Qed.

Section Batches.

Variables (fuel : nat) (e : env) (args : Namespace).
Variable Q : LogEvent -> Prop.

(** The arguments of an attempt of the streaming loop; of any attempt. *)
Let full (kw : kwargs) : Prop :=
  addressed args kw /\ length (logEvents kw) = 10 /\ Forall Q (logEvents kw).
Let some (kw : kwargs) : Prop :=
  addressed args kw /\ logEvents kw <> [] /\ Forall Q (logEvents kw).

Lemma stream_loop_batches lines : forall buf c s r s',
  (forall line n, In line lines -> truthy_str (strip line) = true ->
     Q (mkEvent (clock e n) (strip line))) ->
  Forall Q buf -> length buf < 10 ->
  stream_loop fuel e args lines buf c s = (r, s') ->
  (exists new, trace s' = trace s ++ new /\ Forall (is_push_event full) new) /\
  (forall buf' c', r = Return (buf', c') -> Forall Q buf' /\ length buf' < 10).
Proof.
  induction lines as [|line lines IH]; intros buf c s r s' HQ Fb Lb H.
  - cbn in H. inversion H; subst. split.
    + exists []. rewrite app_nil_r. split; [reflexivity|constructor].
    + intros buf' c' E. inversion E; subst. split; assumption.
  - assert (HQ' : forall l n, In l lines -> truthy_str (strip l) = true ->
               Q (mkEvent (clock e n) (strip l)))
      by (intros l n Hin; apply HQ; right; exact Hin).
    cbn [stream_loop] in H. destruct (truthy_str (strip line)) eqn:T;
      [|eapply IH; eassumption].
    unfold bind at 1, now in H.
    set (buf1 := buf ++ [mkEvent (clock e (ticks s)) (strip line)]) in *.
    assert (F1 : Forall Q buf1).
    { apply Forall_app. split; [exact Fb|]. constructor; [|constructor].
      apply HQ; [left; reflexivity|exact T]. }
    assert (L1 : length buf1 = S (length buf))
      by (unfold buf1; rewrite length_app; cbn; lia).
    destruct (10 <=? length buf1) eqn:L.
    + apply Nat.leb_le in L.
      assert (Pf : forall c0, full (make_kwargs (aws_cloudwatch_group args)
                                      (aws_cloudwatch_stream args) buf1 c0)).
      { intros c0. split; [split; reflexivity|]. split; [cbn; lia|exact F1]. }
      apply bind_inv in H.
      destruct H as [(c1 & s1 & Hp & H)|[(x & Hp & ->)|[Hp ->]]].
      * destruct (push_obeys_batch full e _ _ buf1 c (Pf c) fuel _ _ _ Hp)
          as [(n1 & T1 & K1) _].
        destruct (IH [] c1 s1 r s' HQ' (Forall_nil _) ltac:(cbn; lia) H)
          as [(n2 & T2 & K2) Hr].
        split; [|exact Hr]. exists (n1 ++ n2). cbn [trace] in T1.
        split; [rewrite T2, T1, app_assoc; reflexivity|apply Forall_app; auto].
      * destruct (push_obeys_batch full e _ _ buf1 c (Pf c) fuel _ _ _ Hp)
          as [Ht _]. split; [exact Ht|discriminate].
      * destruct (push_obeys_batch full e _ _ buf1 c (Pf c) fuel _ _ _ Hp)
          as [Ht _]. split; [exact Ht|discriminate].
    + apply Nat.leb_gt in L.
      destruct (IH _ _ _ _ _ HQ' F1 L H) as [(new & Tn & Kn) Hr].
      split; [|exact Hr]. exists new. split; [exact Tn|exact Kn].
Qed.

Hypothesis stream_Q : forall line n,
  In line (logs_stream e) -> truthy_str (strip line) = true ->
  Q (mkEvent (clock e n) (strip line)).
Hypothesis drain_Q : forall line n,
  In line (logs_drain e) -> truthy_str (strip line) = true ->
  Q (mkEvent (clock e n) (strip line)).

Lemma stamp_Q lines : forall n,
  (forall line k, In line lines -> truthy_str (strip line) = true ->
     Q (mkEvent (clock e k) (strip line))) ->
  Forall Q (stamp e n (accepted lines)).
Proof.
  induction lines as [|line lines IH]; intros n HQ; [constructor|].
  rewrite accepted_cons. destruct (truthy_str (strip line)) eqn:T.
  - cbn [stamp]. constructor.
    + apply HQ; [left; reflexivity|exact T].
    + apply IH. intros l k Hin. apply HQ. right. exact Hin.
  - apply IH. intros l k Hin. apply HQ. right. exact Hin.
Qed.

(** The trace of the pump, whatever its outcome: while streaming, full
    batches only; after the second read, one batch, not empty. *)
Lemma pump_batches s r s' :
  pump fuel e args [] None s = (r, s') ->
  exists during after,
    trace s' = trace s ++ EvLogs true :: during ++ after /\
    Forall (is_push_event full) during /\
    (after = [] \/
     exists rest, after = EvLogs false :: rest /\ Forall (is_push_event some) rest).
Proof.
  unfold pump. unfold bind at 1. rewrite emit_extend. intros H.
  apply bind_inv in H.
  assert (Hl : forall rl sl,
            stream_loop fuel e args (logs_stream e) [] None (extend s [EvLogs true])
            = (rl, sl) ->
            (exists during, trace sl = trace s ++ EvLogs true :: during
                            /\ Forall (is_push_event full) during) /\
            (forall buf' c', rl = Return (buf', c') ->
               Forall Q buf' /\ length buf' < 10)).
  { intros rl sl Hs.
    destruct (stream_loop_batches _ _ _ _ _ _ stream_Q (Forall_nil _)
                ltac:(cbn; lia) Hs) as [(new & T & K) Hr].
    split; [|exact Hr]. exists new. cbn [extend trace] in T.
    split; [rewrite T, <- app_assoc; reflexivity|exact K]. }
  destruct H as [([buf1 c1] & s1 & Hs & H)|[(x & Hs & ->)|[Hs ->]]].
  2,3: destruct (Hl _ _ Hs) as [(during & T & K) _]; exists during, [];
       rewrite app_nil_r; auto.
  destruct (Hl _ _ Hs) as [(during & T & K) Hr].
  destruct (Hr buf1 c1 eq_refl) as [Fb _]. clear Hl Hr Hs.
  cbn [fst snd] in H.
  apply bind_inv in H.
  destruct H as [([] & s2 & Ha & H)|[(x & Ha & ->)|[Ha ->]]];
    apply answer_inv in Ha; destruct Ha as [-> _].
  2,3: exists during, []; rewrite app_nil_r; auto.
  unfold bind at 1 in H. rewrite emit_extend in H.
  unfold bind at 1 in H. rewrite drain_events_eq in H.
  cbn [extend puts ticks trace] in H.
  assert (Fd : Forall Q (stamp e (ticks s1) (accepted (logs_drain e))))
    by (apply stamp_Q; exact drain_Q).
  apply bind_inv in H.
  destruct H as [([] & s3 & Ha & H)|[(x & Ha & ->)|[Ha ->]]];
    apply answer_inv in Ha; destruct Ha as [Es _].
  2,3: subst s'; cbn [trace]; exists during, [EvLogs false];
       (split; [rewrite T, <- app_assoc; reflexivity|]);
       (split; [exact K|right; exists []; split; [reflexivity|constructor]]).
  subst s3.
  set (last := buf1 ++ stamp e (ticks s1) (accepted (logs_drain e))) in *.
  destruct (is_empty last) eqn:E.
  - unfold ret in H. inversion H; subst. cbn [trace].
    exists during, [EvLogs false].
    split; [rewrite T, <- app_assoc; reflexivity|].
    split; [exact K|right; exists []; split; [reflexivity|constructor]].
  - assert (Ps : some (make_kwargs (aws_cloudwatch_group args)
                         (aws_cloudwatch_stream args) last c1)).
    { split; [split; reflexivity|].
      split; [cbn; intros N; rewrite N in E; discriminate|].
      cbn. apply Forall_app. split; assumption. }
    assert (Hp : exists rp, push_log_events fuel e (aws_cloudwatch_group args)
                   (aws_cloudwatch_stream args) last c1
                   (mkState (puts s1) (ticks s1 + length (accepted (logs_drain e)))
                      (trace s1 ++ [EvLogs false])) = (rp, s')).
    { apply bind_inv in H.
      destruct H as [(c2 & s4 & Hp & H)|[(x & Hp & _)|[Hp _]]]; eauto.
      unfold ret in H. inversion H; subst. eauto. }
    destruct Hp as (rp & Hp).
    destruct (push_obeys_batch some e _ _ last c1 Ps fuel _ _ _ Hp)
      as [(new & Tn & Kn) _].
    cbn [trace] in Tn. exists during, (EvLogs false :: new).
    split; [rewrite Tn, T, <- !app_assoc; reflexivity|].
    split; [exact K|right; exists new; split; [reflexivity|exact Kn]].
Qed.

End Batches.

Lemma before_drain_app l1 l2 :
  Forall (fun ev => ev <> EvLogs false) l1 ->
  before_drain (l1 ++ l2) = l1 ++ before_drain l2.
Proof.
  induction 1 as [|ev l1 Hev _ IH]; [reflexivity|].
  cbn [app before_drain]. rewrite IH.
  destruct ev; try reflexivity. destruct stream; [reflexivity|congruence].
Qed.

Lemma before_drain_In ev l : In ev (before_drain l) -> In ev l.
Proof.
  induction l as [|a l IH]; [intros []|].
  destruct a; cbn [before_drain]; try (intros [E|H]; [left; exact E|right; auto]).
  destruct stream; [intros [E|H]; [left; exact E|right; auto]|intros []].
Qed.

Lemma plain_no_drain l :
  Forall is_plain l -> Forall (fun ev => ev <> EvLogs false) l.
Proof. apply Forall_impl. intros ev H E. subst. exact H. Qed.

Lemma push_events_no_drain P l :
  Forall (is_push_event P) l -> Forall (fun ev => ev <> EvLogs false) l.
Proof. apply Forall_impl. intros ev H E. subst. exact H. Qed.

Lemma setup_plain ev : is_setup ev -> is_plain ev.
Proof. destruct ev; cbn; try contradiction; auto. Qed.

Lemma tail_plain ev : is_tail ev -> is_plain ev.
Proof. destruct ev; cbn; try contradiction; auto. Qed.

Lemma log_plain ev : is_log ev -> is_plain ev.
Proof. destruct ev; cbn; try contradiction; auto. Qed.

Lemma setup_trace_plain e args : Forall is_plain (setup_trace e args).
Proof.
  pose proof (setup_trace_shape e args) as S.
  destruct (setup_failure e).
  - revert S. apply Forall_impl. exact setup_plain.
  - destruct S as (pre & F & ->). apply Forall_app. split.
    + revert F. apply Forall_impl. exact setup_plain.
    + repeat constructor.
Qed.

Section Sent.

Variables (fuel : nat) (e : env) (args : Namespace).
Variable Q : LogEvent -> Prop.

Hypothesis stream_Q : forall line n,
  In line (logs_stream e) -> truthy_str (strip line) = true ->
  Q (mkEvent (clock e n) (strip line)).
Hypothesis drain_Q : forall line n,
  In line (logs_drain e) -> truthy_str (strip line) = true ->
  Q (mkEvent (clock e n) (strip line)).

(** The trace of [main], by what it sends: nothing before the pump,
    full batches while streaming, one batch after the second read,
    nothing after the pump. *)
Lemma main_batches r s' :
  main fuel e args init = (r, s') ->
  exists pre during after tail,
    trace s' = pre ++ during ++ after ++ tail /\
    Forall is_plain pre /\
    Forall (is_push_event
              (fun kw => addressed args kw /\ length (logEvents kw) = 10
                         /\ Forall Q (logEvents kw))) during /\
    (after = [] \/
     exists rest,
       after = EvLogs false :: rest /\
       Forall (is_push_event
                 (fun kw => addressed args kw /\ logEvents kw <> []
                            /\ Forall Q (logEvents kw))) rest) /\
    Forall is_plain tail.
Proof.
  intros H. apply main_cases in H. cbn [init trace app] in H.
  destruct H as [(x & Eb & T)|[(Eb & x & logs & Ef & Fl & T)
                               |(Eb & Ef & rp & sp & tail & Hp & T & Ft)]].
  - exists (trace s'), [], [], []. rewrite !app_nil_r.
    split; [reflexivity|]. split; [rewrite T; repeat constructor|].
    split; [constructor|]. split; [left; reflexivity|constructor].
  - exists (trace s'), [], [], []. rewrite !app_nil_r.
    split; [reflexivity|]. split.
    + rewrite T. constructor; [exact I|]. apply Forall_app. split.
      * apply setup_trace_plain.
      * revert Fl. apply Forall_impl. exact log_plain.
    + split; [constructor|]. split; [left; reflexivity|constructor].
  - apply (pump_batches fuel e args Q stream_Q drain_Q) in Hp.
    destruct Hp as (during & after & Tp & Kd & Ha).
    cbn [extend trace init app] in Tp.
    exists (EvClient None :: setup_trace e args ++ [EvLogs true]), during, after, tail.
    split.
    + rewrite T, Tp. cbn [app].
      repeat (rewrite <- app_assoc || rewrite <- app_comm_cons). reflexivity.
    + split.
      * constructor; [exact I|]. apply Forall_app.
        split; [apply setup_trace_plain|repeat constructor].
      * split; [exact Kd|]. split; [exact Ha|].
        revert Ft. apply Forall_impl. exact tail_plain.
Qed.

Lemma plain_not_put l kw r0 : Forall is_plain l -> ~ In (EvPut kw r0) l.
Proof. intros F H. rewrite Forall_forall in F. exact (F _ H). Qed.

(** Every attempt of a run is for the group and the stream of the
    command line and carries a batch that is not empty, holding events
    in [Q] only; before the second read it carries ten. *)
Lemma main_sent r s' :
  main fuel e args init = (r, s') ->
  (forall kw r0, In (EvPut kw r0) (trace s') ->
     addressed args kw /\ logEvents kw <> [] /\ Forall Q (logEvents kw)) /\
  (forall kw r0, In (EvPut kw r0) (before_drain (trace s')) ->
     length (logEvents kw) = 10).
Proof.
  intros H. apply main_batches in H.
  destruct H as (pre & during & after & tail & T & Fp & Kd & Ha & Ft).
  split.
  - intros kw r0 Hin. rewrite T in Hin.
    apply in_app_or in Hin. destruct Hin as [Hin|Hin];
      [exfalso; exact (plain_not_put _ _ _ Fp Hin)|].
    apply in_app_or in Hin. destruct Hin as [Hin|Hin].
    { rewrite Forall_forall in Kd. destruct (Kd _ Hin) as (A & L & F).
      split; [exact A|]. split; [|exact F].
      intros N. rewrite N in L. discriminate. }
    apply in_app_or in Hin. destruct Hin as [Hin|Hin];
      [|exfalso; exact (plain_not_put _ _ _ Ft Hin)].
    destruct Ha as [->|(rest & -> & Kr)]; [destruct Hin|].
    destruct Hin as [E|Hin]; [discriminate|].
    rewrite Forall_forall in Kr. exact (Kr _ Hin).
  - intros kw r0 Hin. rewrite T in Hin.
    rewrite before_drain_app in Hin by (apply plain_no_drain; exact Fp).
    rewrite before_drain_app in Hin by (eapply push_events_no_drain; exact Kd).
    apply in_app_or in Hin. destruct Hin as [Hin|Hin];
      [exfalso; exact (plain_not_put _ _ _ Fp Hin)|].
    apply in_app_or in Hin. destruct Hin as [Hin|Hin].
    { rewrite Forall_forall in Kd. destruct (Kd _ Hin) as (_ & L & _). exact L. }
    exfalso. destruct Ha as [->|(rest & -> & Kr)].
    + cbn [app] in Hin. apply before_drain_In in Hin.
      exact (plain_not_put _ _ _ Ft Hin).
    + cbn in Hin. exact Hin.
Qed.

End Sent.

(** X2.  In every run of [main], whatever its outcome, each call of
    [put_log_events] names the log group and the log stream of the
    command line and carries a batch that is not empty; each call made
    before the second read of the container's output carries exactly
    ten events.  Only the one call after the second read can carry
    another number. *)
Theorem every_attempt_carries_a_batch : forall fuel e args r s',
  main fuel e args init = (r, s') ->
  (forall kw r0, In (EvPut kw r0) (trace s') ->
     addressed args kw /\ logEvents kw <> []) /\
  (forall kw r0, In (EvPut kw r0) (before_drain (trace s')) ->
     length (logEvents kw) = 10).
Proof.
  intros fuel e args r s' H.
  destruct (main_sent fuel e args (fun _ => True)
              (fun _ _ _ _ => I) (fun _ _ _ _ => I) r s' H) as [A B].
  split; [|exact B].
  intros kw r0 Hin. destruct (A kw r0 Hin) as (Ha & Hn & _). split; assumption.
Qed.

Lemma every_attempt_carries_a_batch_witness :
  let s' := snd (main 0 long_drain args init) in
  main 0 long_drain args init = (Return tt, s') /\
  ((forall kw r0, In (EvPut kw r0) (trace s') ->
      addressed args kw /\ logEvents kw <> []) /\
   (forall kw r0, In (EvPut kw r0) (before_drain (trace s')) ->
      length (logEvents kw) = 10)).
Proof.
  intros s'. split; [vm_compute; reflexivity|].
  apply (every_attempt_carries_a_batch 0 long_drain args (Return tt) s').
  vm_compute. reflexivity.
Defined.

(** ** Where the events sent come from *)

Lemma lstrip_starts s : starts_with_space (lstrip s) = false.
Proof.
  induction s as [|a s IH]; [reflexivity|].
  cbn [lstrip]. destruct (isspace a) eqn:E; [exact IH|exact E].
Qed.

Lemma rstrip_starts s :
  starts_with_space s = false -> starts_with_space (rstrip s) = false.
Proof.
  destruct s as [|a s]; [reflexivity|].
  cbn [starts_with_space rstrip]. intros E. rewrite E.
  destruct (rstrip s); exact E.
Qed.

Lemma rstrip_ends s : ends_with_space (rstrip s) = false.
Proof.
  induction s as [|a s IH]; [reflexivity|].
  cbn [rstrip]. destruct (rstrip s) as [|b r].
  - destruct (isspace a) eqn:E; [reflexivity|exact E].
  - exact IH.
Qed.

(** A stripped text neither starts nor ends with whitespace. *)
Lemma strip_trimmed s :
  starts_with_space (strip s) = false /\ ends_with_space (strip s) = false.
Proof.
  unfold strip. split; [apply rstrip_starts, lstrip_starts|apply rstrip_ends].
Qed.

(** X3.  In every run of [main], whatever its outcome, every event of
    every batch handed to [put_log_events] was made from the output of
    the container: its message is the [strip] of a line of one of the
    two reads, it is not empty and neither starts nor ends with
    whitespace, and its timestamp is a reading of the clock.  The
    program sends no text of its own. *)
Theorem sent_events_come_from_the_reads : forall fuel e args r s',
  main fuel e args init = (r, s') ->
  forall kw r0 ev,
    In (EvPut kw r0) (trace s') -> In ev (logEvents kw) ->
    from_input e ev /\
    starts_with_space (message ev) = false /\
    ends_with_space (message ev) = false.
Proof.
  intros fuel e args r s' H kw r0 ev Hput Hev.
  set (Q := fun ev => from_input e ev /\
                      starts_with_space (message ev) = false /\
                      ends_with_space (message ev) = false).
  assert (HQ : forall lines line n,
             (forall l, In l lines -> In l (logs_stream e ++ logs_drain e)) ->
             In line lines -> truthy_str (strip line) = true ->
             Q (mkEvent (clock e n) (strip line))).
  { intros lines line n Sub Hin T. split; [|exact (strip_trimmed line)].
    split; [cbn; intros N; rewrite N in T; discriminate|].
    split; [exists n; reflexivity|].
    exists line. split; [apply Sub; exact Hin|reflexivity]. }
  destruct (main_sent fuel e args Q
              (fun line n => HQ (logs_stream e) line n
                               (fun l Hl => in_or_app _ _ _ (or_introl Hl)))
              (fun line n => HQ (logs_drain e) line n
                               (fun l Hl => in_or_app _ _ _ (or_intror Hl)))
              r s' H) as [A _].
  destruct (A kw r0 Hput) as (_ & _ & F).
  rewrite Forall_forall in F. exact (F ev Hev).
Qed.

Lemma sent_events_come_from_the_reads_witness :
  let s' := snd (main 0 twenty_five args init) in
  main 0 twenty_five args init = (Return tt, s') /\
  (forall kw r0 ev,
     In (EvPut kw r0) (trace s') -> In ev (logEvents kw) ->
     from_input twenty_five ev /\
     starts_with_space (message ev) = false /\
     ends_with_space (message ev) = false).
Proof.
  intros s'. split; [vm_compute; reflexivity|].
  apply (sent_events_come_from_the_reads 0 twenty_five args (Return tt) s').
  vm_compute. reflexivity.
Defined.

(** ** Timestamps *)

Lemma stamp_from e msgs : forall n,
  Forall (fun ev => exists k, n <= k /\ timestamp ev = clock e k) (stamp e n msgs).
Proof.
  induction msgs as [|m msgs IH]; intros n; [constructor|].
  cbn [stamp]. constructor.
  - exists n. split; [lia|reflexivity].
  - specialize (IH (S n)). revert IH. apply Forall_impl.
    intros ev (k & Hk & E). exists k. split; [lia|exact E].
Qed.

Lemma stamp_nondecreasing e msgs :
  monotone e -> forall n, nondecreasing (map timestamp (stamp e n msgs)).
Proof.
  intros Hm. induction msgs as [|m msgs IH]; intros n; [exact I|].
  cbn [stamp map nondecreasing timestamp]. split; [|apply IH].
  apply Forall_map. pose proof (stamp_from e msgs (S n)) as F.
  revert F. apply Forall_impl. intros ev (k & Hk & ->). apply Hm. lia.
Qed.

Lemma nondecreasing_app l1 l2 :
  nondecreasing (l1 ++ l2) -> nondecreasing l1 /\ nondecreasing l2.
Proof.
  induction l1 as [|a l1 IH]; [intros H; split; [exact I|exact H]|].
  cbn [app nondecreasing]. intros [F H]. apply Forall_app in F.
  destruct (IH H) as [H1 H2]. split; [split; [apply F|exact H1]|exact H2].
Qed.

Lemma nondecreasing_concat (bs : list batch) b :
  nondecreasing (map timestamp (concat bs)) -> In b bs ->
  nondecreasing (map timestamp b).
Proof.
  induction bs as [|a bs IH]; [intros _ []|].
  cbn [concat]. rewrite map_app. intros H. apply nondecreasing_app in H.
  destruct H as [Ha Hbs]. intros [->|Hin]; [exact Ha|exact (IH Hbs Hin)].
Qed.

(** X4.  In a run of the pump that completes, with a clock that never
    goes back: the events delivered, taken over all batches in the order
    of the calls, have timestamps that never decrease, and so has every
    single batch.  The timestamps are readings of the clock taken in the
    order in which the lines are read, one for each accepted line. *)
Theorem timestamps_never_decrease : forall fuel e args s s',
  monotone e ->
  pump fuel e args [] None s = (Return tt, s') ->
  exists new,
    trace s' = trace s ++ new /\
    nondecreasing (map timestamp (concat (submitted new))) /\
    (forall b, In b (submitted new) -> nondecreasing (map timestamp b)) /\
    ticks s' = ticks s + length (accepted (logs_stream e))
               + length (accepted (logs_drain e)).
Proof.
  intros fuel e args s s' Hm H.
  destruct (pump_completed fuel e args s s' H)
    as (during & after & T & _ & _ & _ & _ & _ & C & _).
  exists (EvLogs true :: during ++ EvLogs false :: after).
  assert (S : submitted (EvLogs true :: during ++ EvLogs false :: after)
              = submitted during ++ submitted after).
  { change (EvLogs true :: during ++ EvLogs false :: after)
      with ([EvLogs true] ++ during ++ [EvLogs false] ++ after).
    rewrite !submitted_app. reflexivity. }
  assert (N : nondecreasing (map timestamp (concat (submitted during ++ submitted after)))).
  { rewrite C. apply stamp_nondecreasing. exact Hm. }
  split; [exact T|]. rewrite S. split; [exact N|]. split.
  - intros b Hb. exact (nondecreasing_concat _ b N Hb).
  - revert H. unfold pump. intros H.
    apply bind_returns in H. destruct H as ([] & s1 & H1 & H).
    unfold emit in H1. inversion H1; subst s1; clear H1.
    apply bind_returns in H. destruct H as ([buf1 c1] & s2 & Hloop & H).
    apply stream_loop_returned in Hloop.
    destruct Hloop as (_ & _ & Hk2 & _). cbn [ticks] in Hk2.
    apply bind_returns in H. destruct H as ([] & s3 & Hend & H).
    apply answer_returns in Hend. destruct Hend as [_ ->].
    apply bind_returns in H. destruct H as ([] & s4 & H4 & H).
    unfold emit in H4. inversion H4; subst s4; clear H4.
    apply bind_returns in H. destruct H as (extra & s5 & Hdrain & H).
    rewrite drain_events_eq in Hdrain. inversion Hdrain; subst extra s5; clear Hdrain.
    apply bind_returns in H. destruct H as ([] & s6 & Hend2 & H).
    apply answer_returns in Hend2. destruct Hend2 as [_ ->].
    cbn [fst snd puts ticks trace] in H.
    destruct (is_empty _) in H.
    + unfold ret in H. inversion H; subst s'. cbn [ticks]. lia.
    + apply bind_returns in H. destruct H as (c2 & s7 & Hpush & H).
      unfold ret in H. inversion H; subst s7; clear H.
      destruct (buf1 ++ stamp e (ticks s2) (accepted (logs_drain e))) as [|ev l] eqn:E.
      * rewrite push_nil in Hpush. inversion Hpush; subst s'. cbn [ticks]. lia.
      * apply push_returned in Hpush; [|discriminate].
        destruct Hpush as (_ & _ & Hk & _). cbn [ticks] in Hk. lia.
Qed.

Lemma timestamps_never_decrease_witness :
  let s' := snd (pump 0 long_drain args [] None init) in
  monotone long_drain /\
  pump 0 long_drain args [] None init = (Return tt, s') /\
  exists new,
    trace s' = trace init ++ new /\
    nondecreasing (map timestamp (concat (submitted new))) /\
    (forall b, In b (submitted new) -> nondecreasing (map timestamp b)) /\
    ticks s' = ticks init + length (accepted (logs_stream long_drain))
               + length (accepted (logs_drain long_drain)).
Proof.
  intros s'.
  assert (Hm : monotone long_drain).
  { intros i j Hij. cbn. lia. }
  split; [exact Hm|]. split; [vm_compute; reflexivity|].
  apply (timestamps_never_decrease 0 long_drain args init s' Hm).
  vm_compute. reflexivity.
Defined.

(** ** A sink that takes every batch *)

Section Accepting.

Variables (fuel : nat) (e : env) (args : Namespace).
Hypothesis sink_accepts : accepts e.

Lemma deliveries_accepted bs : forall n0 c,
  Forall is_accepted_put (deliveries e args n0 c bs) /\
  length (deliveries e args n0 c bs) = length bs /\
  submitted (deliveries e args n0 c bs) = bs.
Proof.
  induction bs as [|b bs IH]; intros n0 c; [repeat split; constructor|].
  cbn [deliveries].
  destruct (sink_accepts n0 (make_kwargs (aws_cloudwatch_group args)
                               (aws_cloudwatch_stream args) b c)) as [next E].
  rewrite E. cbn [cursor_after submitted throttled length logEvents make_kwargs].
  destruct (IH (S n0) next) as (F & L & S).
  split; [constructor; [exact I|exact F]|]. split; [rewrite L|rewrite S]; reflexivity.
Qed.

(** The streaming loop, run: it returns, having made one attempt for
    each full batch and no other call. *)
Lemma stream_loop_accepting lines : forall buf c s,
  stream_loop fuel e args lines buf c s =
  (Return (snd (full_batches buf (stamp e (ticks s) (accepted lines))),
           held_from c
             (deliveries e args (puts s) c
                (fst (full_batches buf (stamp e (ticks s) (accepted lines)))))),
   mkState
     (puts s + length (fst (full_batches buf (stamp e (ticks s) (accepted lines)))))
     (ticks s + length (accepted lines))
     (trace s ++ deliveries e args (puts s) c
                   (fst (full_batches buf (stamp e (ticks s) (accepted lines)))))).
Proof.
  induction lines as [|line lines IH]; intros buf c s.
  - cbn. rewrite !Nat.add_0_r, app_nil_r. destruct s; reflexivity.
  - cbn [stream_loop]. rewrite accepted_cons.
    destruct (truthy_str (strip line)); [|apply IH].
    unfold bind at 1, now. cbn [stamp full_batches length].
    destruct (10 <=? length (buf ++ [mkEvent (clock e (ticks s)) (strip line)])).
    + set (b := buf ++ [mkEvent (clock e (ticks s)) (strip line)]).
      assert (Hb : b <> []) by (unfold b; intros E; destruct buf; discriminate).
      destruct (sink_accepts (puts s) (make_kwargs (aws_cloudwatch_group args)
                                         (aws_cloudwatch_stream args) b c))
        as [next E].
      unfold bind at 1.
      rewrite (push_accepted fuel e _ _ b c _ next Hb) by exact E.
      rewrite IH. cbn [puts ticks trace fst snd deliveries length].
      rewrite E. cbn [cursor_after held_from].
      rewrite <- app_assoc, !Nat.add_succ_r. reflexivity.
    + rewrite IH. cbn [puts ticks trace]. rewrite !Nat.add_succ_r. reflexivity.
Qed.

(** The pump, run: the attempts of the full batches, then, if the
    stream ends normally, the second read and, if that ends normally
    too, the attempt of the last batch. *)
Lemma pump_accepting s :
  let n_s := length (accepted (logs_stream e)) in
  let n_d := length (accepted (logs_drain e)) in
  let full := fst (full_batches [] (stamp e (ticks s) (accepted (logs_stream e)))) in
  let during := deliveries e args (puts s) None full in
  let last := last_batch e [] (ticks s) in
  let after :=
    deliveries e args (puts s + length full) (held_from None during)
      (if is_empty last then [] else [last]) in
  pump fuel e args [] None s =
  match logs_stream_end e with
  | Some x =>
      (Raise x,
       mkState (puts s + length full) (ticks s + n_s)
         (trace s ++ EvLogs true :: during))
  | None =>
      match logs_drain_end e with
      | Some x =>
          (Raise x,
           mkState (puts s + length full) (ticks s + n_s + n_d)
             (trace s ++ EvLogs true :: during ++ [EvLogs false]))
      | None =>
          (Return tt,
           mkState (puts s + length full + length after) (ticks s + n_s + n_d)
             (trace s ++ EvLogs true :: during ++ EvLogs false :: after))
      end
  end.
Proof.
  cbv zeta. unfold pump. unfold bind at 1, emit at 1.
  unfold bind at 1. rewrite stream_loop_accepting.
  cbn [puts ticks trace fst snd].
  set (full := fst (full_batches [] (stamp e (ticks s) (accepted (logs_stream e))))).
  set (during := deliveries e args (puts s) None full).
  unfold bind at 1.
  destruct (logs_stream_end e) as [x|]; cbn [answer raise ret].
  { rewrite <- !app_assoc. reflexivity. }
  unfold bind at 1, emit at 1. unfold bind at 1. rewrite drain_events_eq.
  cbn [puts ticks trace].
  unfold bind at 1.
  destruct (logs_drain_end e) as [x|]; cbn [answer raise ret].
  { rewrite <- !app_assoc. reflexivity. }
  change (snd (full_batches [] (stamp e (ticks s) (accepted (logs_stream e))))
          ++ stamp e (ticks s + length (accepted (logs_stream e)))
               (accepted (logs_drain e)))
    with (last_batch e [] (ticks s)).
  destruct (last_batch e [] (ticks s)) as [|ev l] eqn:El; cbn [is_empty].
  - cbn [deliveries length]. rewrite <- !app_assoc, Nat.add_0_r. reflexivity.
  - set (last := ev :: l).
    destruct (sink_accepts (puts s + length full)
                (make_kwargs (aws_cloudwatch_group args)
                   (aws_cloudwatch_stream args) last (held_from None during)))
      as [next E].
    unfold bind at 1.
    rewrite (push_accepted fuel e _ _ last _ _ next) by (discriminate || exact E).
    cbn [deliveries length puts ticks trace]. rewrite E.
    unfold ret. rewrite <- !app_assoc, Nat.add_1_r. reflexivity.
Qed.

End Accepting.

Lemma length_last_batch e n :
  length (last_batch e [] n)
  = length (accepted (logs_stream e)) mod 10 + length (accepted (logs_drain e)).
Proof.
  unfold last_batch. rewrite length_app, length_stamp.
  destruct (full_batches_count (stamp e n (accepted (logs_stream e))) [])
    as [_ R]; [cbn; lia|].
  rewrite R, length_stamp. reflexivity.
Qed.

(** X5.  With a sink that takes every batch and two reads that end
    normally, the pump completes, whatever the bound on the retries:
    it makes one call for each full batch of ten while streaming
    ([n_s / 10] calls, [n_s] being the number of accepted lines of the
    stream) and, after the second read, one call more for what is left
    unless nothing is; every call is accepted, there is no sleep and no
    log record, and the batches taken together are the accepted lines
    of both reads in order. *)
Theorem pump_completes_when_sink_accepts : forall fuel e args s,
  accepts e ->
  logs_stream_end e = None ->
  logs_drain_end e = None ->
  exists s' during after,
    pump fuel e args [] None s = (Return tt, s') /\
    trace s' = trace s ++ EvLogs true :: during ++ EvLogs false :: after /\
    Forall is_accepted_put during /\
    Forall is_accepted_put after /\
    length during = length (accepted (logs_stream e)) / 10 /\
    length after
    = (if length (accepted (logs_stream e)) mod 10
          + length (accepted (logs_drain e)) =? 0 then 0 else 1) /\
    puts s' = puts s + length during + length after /\
    concat (submitted during ++ submitted after)
    = stamp e (ticks s) (accepted (logs_stream e) ++ accepted (logs_drain e)).
Proof.
  intros fuel e args s Ha Hs Hd.
  pose proof (pump_accepting fuel e args Ha s) as P. cbv zeta in P.
  rewrite Hs, Hd in P.
  set (evs := stamp e (ticks s) (accepted (logs_stream e))) in *.
  set (full := fst (full_batches [] evs)) in *.
  set (during := deliveries e args (puts s) None full) in *.
  set (rest := if is_empty (last_batch e [] (ticks s)) then []
               else [last_batch e [] (ticks s)]) in *.
  set (after := deliveries e args (puts s + length full)
                  (held_from None during) rest) in *.
  destruct (deliveries_accepted e args Ha full (puts s) None) as (Fd & Ld & Sd).
  destruct (deliveries_accepted e args Ha rest (puts s + length full)
              (held_from None during)) as (Fa & La & Sa).
  fold during in Fd, Ld, Sd. fold after in Fa, La, Sa.
  eexists. exists during, after.
  split; [exact P|]. cbn [puts trace].
  split; [reflexivity|]. split; [exact Fd|]. split; [exact Fa|].
  split.
  { rewrite Ld. unfold full.
    destruct (full_batches_count evs []) as [Q _]; [cbn; lia|].
    rewrite Q. unfold evs. rewrite length_stamp. reflexivity. }
  split.
  { rewrite La. unfold rest. rewrite <- (length_last_batch e (ticks s)).
    destruct (last_batch e [] (ticks s)); reflexivity. }
  split; [rewrite Ld; reflexivity|].
  rewrite Sd, Sa, concat_app.
  assert (R : concat rest = last_batch e [] (ticks s)).
  { unfold rest. destruct (last_batch e [] (ticks s)); cbn; [reflexivity|].
    rewrite app_nil_r. reflexivity. }
  rewrite R. unfold last_batch. fold evs. rewrite app_assoc.
  unfold full. rewrite full_batches_concat. cbn [app].
  unfold evs. rewrite stamp_app. reflexivity.
Qed.

Lemma pump_completes_when_sink_accepts_witness :
  accepts twenty_five /\
  logs_stream_end twenty_five = None /\
  logs_drain_end twenty_five = None /\
  exists s' during after,
    pump 0 twenty_five args [] None init = (Return tt, s') /\
    trace s' = trace init ++ EvLogs true :: during ++ EvLogs false :: after /\
    Forall is_accepted_put during /\
    Forall is_accepted_put after /\
    length during = length (accepted (logs_stream twenty_five)) / 10 /\
    length after
    = (if length (accepted (logs_stream twenty_five)) mod 10
          + length (accepted (logs_drain twenty_five)) =? 0 then 0 else 1) /\
    puts s' = puts init + length during + length after /\
    concat (submitted during ++ submitted after)
    = stamp twenty_five (ticks init)
        (accepted (logs_stream twenty_five) ++ accepted (logs_drain twenty_five)).
Proof.
  assert (Ha : accepts twenty_five).
  { intros i kw. exists (Some "next"). reflexivity. }
  split; [exact Ha|]. split; [reflexivity|]. split; [reflexivity|].
  apply (pump_completes_when_sink_accepts 0 twenty_five args init Ha);
    reflexivity.
Defined.

(** ** [main], from the outcome of the pump *)

Lemma extend_nil s : extend s [] = s.
Proof. unfold extend. rewrite app_nil_r. destruct s; reflexivity. Qed.

Lemma handled_run (body : M unit) s :
  try_except body main_clauses s =
  match body s with
  | (Raise x, s1) =>
      match outer_record x with
      | Some ev => (Return tt, extend s1 [ev])
      | None => (Raise x, s1)
      end
  | other => other
  end.
Proof.
  unfold try_except. destruct (body s) as [[u|x|] s1]; try reflexivity.
  destruct x; reflexivity.
Qed.

Lemma cleanup_result_ends e : cleanup_result e <> OutOfFuel.
Proof.
  unfold cleanup_result. destruct (container_stop e); [discriminate|].
  destruct (container_remove e); discriminate.
Qed.

Lemma guarded_run fuel e args s rp sp :
  pump fuel e args [] None s = (rp, sp) ->
  try_finally (try_except (pump fuel e args [] None) api_error_clause) (cleanup e) s
  = (guarded_result e rp, extend sp (guarded_events e rp)).
Proof.
  intros Hp. unfold try_finally, try_except. rewrite Hp.
  unfold guarded_result, guarded_events, inner_result, inner_record.
  pose proof (cleanup_result_ends e) as N.
  destruct rp as [u|x|].
  - rewrite cleanup_eq. cbn [app].
    destruct (cleanup_result e); [reflexivity|reflexivity|congruence].
  - cbn [api_error_clause select]. destruct (is_APIError x).
    + unfold log. rewrite emit_extend, cleanup_eq.
      cbn [extend puts ticks trace]. rewrite <- app_assoc.
      destruct (cleanup_result e); [reflexivity|reflexivity|congruence].
    + rewrite cleanup_eq. cbn [app].
      destruct (cleanup_result e); [reflexivity|reflexivity|congruence].
  - rewrite extend_nil. reflexivity.
Qed.

(** A run of [main] in which the pump is reached, from its outcome. *)
Lemma main_of_pump fuel e args s rp sp :
  boto3_client e = None ->
  setup_failure e = None ->
  pump fuel e args [] None (extend s (EvClient None :: setup_trace e args))
  = (rp, sp) ->
  main fuel e args s =
  match guarded_result e rp with
  | Raise y =>
      match outer_record y with
      | Some ev => (Return tt, extend sp (guarded_events e rp ++ [ev]))
      | None => (Raise y, extend sp (guarded_events e rp))
      end
  | r => (r, extend sp (guarded_events e rp))
  end.
Proof.
  intros Eb Ef Hp. rewrite main_run, Eb, handled_run, provisioned_pump_run, Ef.
  rewrite extend_extend. cbn [app]. rewrite (guarded_run _ _ _ _ _ _ Hp).
  destruct (guarded_result e rp) as [u|y|]; try reflexivity.
  destruct (outer_record y); [rewrite extend_extend|]; reflexivity.
Qed.

(** A run of [main] in which a step before the pump fails. *)
Lemma main_of_setup_failure fuel e args s x :
  boto3_client e = None ->
  setup_failure e = Some x ->
  main fuel e args s =
  match outer_record x with
  | Some ev => (Return tt, extend s (EvClient None :: setup_trace e args ++ [ev]))
  | None => (Raise x, extend s (EvClient None :: setup_trace e args))
  end.
Proof.
  intros Eb Ef. rewrite main_run, Eb, handled_run, provisioned_pump_run, Ef.
  rewrite extend_extend. cbn [app].
  destruct (outer_record x); [rewrite extend_extend|]; reflexivity.
Qed.

(** ** Sustained throttling *)

Lemma prelude_silent t :
  Forall is_prelude t ->
  sleeps t = [] /\ submitted t = [] /\ put_attempts t = [] /\ container_calls t = [].
Proof.
  induction 1 as [|ev t H _ IH]; [repeat split|].
  destruct ev; cbn in *; try contradiction; exact IH.
Qed.

Lemma setup_trace_prelude e args : Forall is_prelude (setup_trace e args).
Proof.
  assert (P : forall ev, is_setup ev -> is_prelude ev)
    by (intros ev; destruct ev; cbn; try contradiction; auto).
  pose proof (setup_trace_shape e args) as S.
  destruct (setup_failure e).
  - revert S. apply Forall_impl. exact P.
  - destruct S as (pre & F & ->). apply Forall_app. split.
    + revert F. apply Forall_impl. exact P.
    + repeat constructor.
Qed.

Lemma container_calls_retries e kw K : forall n0,
  container_calls (retries e kw n0 K) = [].
Proof. induction K as [|K IH]; intros n0; [reflexivity|]. cbn. apply IH. Qed.

(** Under sustained throttling the first push of the pump uses up any
    bound on its retries: the one of the streaming loop when the stream
    has ten accepted lines, the last one otherwise. *)
Lemma pump_sustained fuel e args s :
  always_throttled e ->
  (10 <= length (accepted (logs_stream e)) \/
   (logs_stream_end e = None /\ logs_drain_end e = None /\
    0 < length (accepted (logs_stream e)) + length (accepted (logs_drain e)))) ->
  exists reads kw t,
    pump fuel e args [] None s
    = (OutOfFuel,
       mkState (puts s + S fuel) t
         (trace s ++ reads ++ retries e kw (puts s) (S fuel))) /\
    Forall is_prelude reads /\ logEvents kw <> [].
Proof.
  intros Ht Hn. unfold pump. unfold bind at 1, emit at 1. unfold bind at 1.
  destruct (le_lt_dec 10 (length (accepted (logs_stream e)))) as [L|L].
  - destruct (accepted_split (logs_stream e) 9 ltac:(lia))
      as (l1 & line & l2 & E & T & L1 & _).
    rewrite E.
    rewrite (stream_loop_fill fuel e args None line l2 l1 [] _ T)
      by (cbn [length]; lia).
    cbn [puts ticks trace app].
    set (b := stamp e (ticks s) (accepted l1 ++ [strip line])).
    assert (Hb : b <> []).
    { apply stamp_nonempty. intros N. apply app_eq_nil in N.
      destruct N as [_ N]. discriminate. }
    unfold bind at 1.
    rewrite (push_sustained_throttling e _ _ b None Hb)
      by (intros i; apply Ht).
    unfold retried. cbn [puts ticks trace].
    exists [EvLogs true], (make_kwargs (aws_cloudwatch_group args)
                             (aws_cloudwatch_stream args) b None).
    eexists. rewrite <- app_assoc.
    split; [reflexivity|]. split; [repeat constructor|exact Hb].
  - destruct Hn as [Hn|(Hs & Hd & Hn)]; [lia|].
    rewrite (stream_loop_short fuel e args None (logs_stream e) [] _)
      by (cbn [length]; lia).
    cbn [puts ticks trace app fst snd]. rewrite Hs.
    unfold bind at 1. cbn [answer ret]. unfold bind at 1, emit at 1.
    unfold bind at 1. rewrite drain_events_eq. cbn [puts ticks trace].
    rewrite Hd. unfold bind at 1. cbn [answer ret].
    set (b := stamp e (ticks s) (accepted (logs_stream e))
              ++ stamp e (ticks s + length (accepted (logs_stream e)))
                   (accepted (logs_drain e))).
    assert (Hb : b <> []).
    { intros N. apply (f_equal (@length _)) in N. unfold b in N.
      rewrite length_app, !length_stamp in N. cbn in N. lia. }
    destruct b as [|ev b'] eqn:Eb; [congruence|]. cbn [is_empty].
    rewrite <- Eb. unfold bind at 1.
    rewrite (push_sustained_throttling e _ _ b None)
      by (rewrite ?Eb; discriminate || (intros i; apply Ht)).
    unfold retried. cbn [puts ticks trace].
    exists [EvLogs true; EvLogs false],
      (make_kwargs (aws_cloudwatch_group args) (aws_cloudwatch_stream args) b None).
    eexists. rewrite <- !app_assoc.
    split; [reflexivity|]. split; [repeat constructor|].
    cbn [make_kwargs logEvents]. rewrite Eb. discriminate.
Qed.



(** ** A read that fails *)

Lemma full_batches_firstn evs :
  concat (fst (full_batches [] evs)) = firstn (10 * (length evs / 10)) evs.
Proof.
  destruct (full_batches_sizes evs []) as [F _]; [cbn; lia|].
  destruct (full_batches_count evs []) as [Q _]; [cbn; lia|].
  cbn [length Nat.add] in Q.
  pose proof (full_batches_concat evs []) as C. cbn [app] in C.
  rewrite <- Q, <- (length_concat_full _ F). rewrite <- C at 3.
  rewrite firstn_app, firstn_all, Nat.sub_diag, firstn_O, app_nil_r.
  reflexivity.
Qed.

Lemma accepted_put_plain ev : is_accepted_put ev -> ev <> EvLogs false.
Proof. intros H E. subst. exact H. Qed.

(** X7.  When the streaming read of the container's output ends with an
    exception, the sink taking every batch and the stop and the remove
    returning: the full batches of ten read so far have been delivered,
    the events left in the buffer (fewer than ten) are never sent, the
    second read is not made, and the container is stopped and removed.
    An [APIError] is logged as a Docker API error before the cleanup;
    another [Exception] is logged by the outer handlers after it, and
    [main] returns; an exception that is no [Exception] leaves [main]
    after the cleanup. *)
Theorem stream_error_drops_the_buffer : forall fuel e args x,
  provisioning_ok e ->
  accepts e ->
  logs_stream_end e = Some x ->
  container_stop e = None ->
  container_remove e = None ->
  exists s' during,
    main fuel e args init
    = (if is_Exception x then Return tt else Raise x, s') /\
    trace s'
    = EvClient None :: setup_trace e args ++ EvLogs true :: during ++ closing x /\
    Forall is_accepted_put during /\
    concat (submitted during)
    = firstn (10 * (length (accepted (logs_stream e)) / 10))
        (stamp e 0 (accepted (logs_stream e))) /\
    ~ In (EvLogs false) (trace s').
Proof.
  intros fuel e args x (Eb & Hp) Ha Hx Hstop Hrem.
  apply setup_failure_none in Hp.
  pose proof (pump_accepting fuel e args Ha
                (extend init (EvClient None :: setup_trace e args))) as P.
  cbv zeta in P. rewrite Hx in P. cbn [extend init puts ticks trace app] in P.
  set (full := fst (full_batches [] (stamp e 0 (accepted (logs_stream e))))) in *.
  set (during := deliveries e args 0 None full) in *.
  destruct (deliveries_accepted e args Ha full 0 None) as (Fd & _ & Sd).
  fold during in Fd, Sd.
  assert (Hc : cleanup_result e = Return tt)
    by (unfold cleanup_result; rewrite Hstop, Hrem; reflexivity).
  assert (He : cleanup_events e = [EvStop None; EvRemove None])
    by (unfold cleanup_events; rewrite Hstop, Hrem; reflexivity).
  assert (M : exists s',
             main fuel e args init
             = (if is_Exception x then Return tt else Raise x, s') /\
             trace s' = EvClient None :: setup_trace e args
                        ++ EvLogs true :: during ++ closing x).
  { rewrite (main_of_pump _ _ _ _ _ _ Eb Hp P).
    unfold guarded_result, guarded_events, inner_result, inner_record, closing.
    rewrite Hc, He.
    destruct x; cbn [is_APIError is_Exception outer_record is_DockerException
                     is_ClientError];
      eexists; (split; [reflexivity|]); cbn [extend trace app];
      repeat (rewrite <- app_assoc || rewrite <- app_comm_cons); reflexivity. }
  destruct M as (s' & Hm & T). exists s', during.
  split; [exact Hm|]. split; [exact T|]. split; [exact Fd|].
  split; [rewrite Sd; unfold full; rewrite full_batches_firstn, length_stamp;
          reflexivity|].
  rewrite T. intros [N|N]; [discriminate|].
  apply in_app_or in N. destruct N as [N|N].
  { pose proof (setup_trace_plain e args) as F. rewrite Forall_forall in F.
    exact (F _ N). }
  destruct N as [N|N]; [discriminate|].
  apply in_app_or in N. destruct N as [N|N].
  { rewrite Forall_forall in Fd. exact (accepted_put_plain _ (Fd _ N) eq_refl). }
  unfold closing in N. destruct (is_APIError x).
  - destruct N as [N|[N|[N|[]]]]; discriminate.
  - destruct N as [N|[N|N]]; try discriminate.
    destruct x; cbn in N; intuition discriminate.
Qed.

Lemma stream_error_drops_the_buffer_witness :
  provisioning_ok broken_stream /\
  accepts broken_stream /\
  exists s' during,
    main 0 broken_stream args init = (Return tt, s') /\
    trace s'
    = EvClient None :: setup_trace broken_stream args
      ++ EvLogs true :: during ++ closing (APIError "500 Server Error") /\
    Forall is_accepted_put during /\
    concat (submitted during)
    = firstn (10 * (length (accepted (logs_stream broken_stream)) / 10))
        (stamp broken_stream 0 (accepted (logs_stream broken_stream))) /\
    ~ In (EvLogs false) (trace s').
Proof.
  assert (Hp : provisioning_ok broken_stream) by (repeat split).
  assert (Ha : accepts broken_stream)
    by (intros i kw; exists (Some "next"); reflexivity).
  split; [exact Hp|]. split; [exact Ha|].
  exact (stream_error_drops_the_buffer 0 broken_stream args
           (APIError "500 Server Error") Hp Ha eq_refl eq_refl eq_refl).
Defined.

(** X8.  An exception leaves [main] only in two cases: it was raised by
    the construction of the log client, which is outside the [try]; or
    it is no [Exception] (a [KeyboardInterrupt], a [SystemExit]) and
    was raised by a call inside the [try].  Every [Exception] raised by
    the provisioning, the reads, the sink or the cleanup is caught. *)
Theorem only_these_exceptions_escape : forall fuel e args x s',
  main fuel e args init = (Raise x, s') ->
  boto3_client e = Some x \/
  (boto3_client e = None /\ is_Exception x = false /\ raised_by e x).
Proof.
  intros fuel e args x s' H. apply main_inv in H.
  destruct H as [(y & E & R & _)|(Eb & Hr & _)].
  - left. inversion R; subst. exact E.
  - right. split; [exact Eb|]. apply Hr. reflexivity.
Qed.

Lemma only_these_exceptions_escape_witness :
  let s' := snd (main 0 bad_region args init) in
  main 0 bad_region args init = (Raise (OtherException "InvalidRegionError"), s') /\
  (boto3_client bad_region = Some (OtherException "InvalidRegionError") \/
   (boto3_client bad_region = None /\
    is_Exception (OtherException "InvalidRegionError") = false /\
    raised_by bad_region (OtherException "InvalidRegionError"))).
Proof.
  intros s'. split; [vm_compute; reflexivity|].
  apply (only_these_exceptions_escape 0 bad_region args
           (OtherException "InvalidRegionError") s').
  vm_compute. reflexivity.
Defined.



(** ** Nothing before the start of the container *)

Lemma split_after (K : event -> Prop) A : forall B pre ev post,
  Forall (fun a => ~ K a) A -> K ev ->
  A ++ B = pre ++ ev :: post ->
  exists pre', pre = A ++ pre'.
Proof.
  induction A as [|a A IH]; intros B pre ev post F Hev E.
  - exists pre. reflexivity.
  - inversion F as [|? ? Ha FA]; subst.
    destruct pre as [|p pre]; cbn [app] in E; inversion E; subst.
    + contradiction.
    + destruct (IH _ _ _ _ FA Hev H1) as (pre' & ->).
      exists pre'. reflexivity.
Qed.

Lemma setup_trace_before_start e args :
  Forall (fun a => ~ follows_start a) (setup_trace e args).
Proof.
  assert (P : forall ev, is_setup ev -> ~ follows_start ev)
    by (intros ev; destruct ev; cbn; tauto).
  pose proof (setup_trace_shape e args) as S.
  destruct (setup_failure e).
  - revert S. apply Forall_impl. exact P.
  - destruct S as (pre & F & ->). apply Forall_app. split.
    + revert F. apply Forall_impl. exact P.
    + repeat constructor. exact (fun H => H).
Qed.

(** X10.  In every run of [main], whatever its outcome, nothing is done
    on or for a container before one is started: every read of the
    output, every append attempt, every wait, the stop and the remove
    come after a [containers.run] that returned.  In a run in which no
    container is started none of them is made. *)
Theorem nothing_before_the_start : forall fuel e args r s',
  main fuel e args init = (r, s') ->
  forall pre ev post,
    trace s' = pre ++ ev :: post -> follows_start ev -> acquired pre.
Proof.
  intros fuel e args r s' H pre ev post T Hev.
  apply main_cases in H. cbn [init trace app] in H.
  destruct H as [(x & Eb & T')|[(Eb & x & logs & Ef & Fl & T')
                                |(Eb & Ef & rp & sp & tail & Hp & T' & Ft)]].
  - exfalso. rewrite T' in T. destruct pre as [|p pre]; inversion T; subst.
    + exact Hev.
    + destruct pre; discriminate.
  - exfalso.
    assert (F : Forall (fun a => ~ follows_start a)
                  (EvClient None :: setup_trace e args ++ logs)).
    { constructor; [exact (fun H => H)|]. apply Forall_app.
      split; [apply setup_trace_before_start|].
      revert Fl. apply Forall_impl. intros a; destruct a; cbn; tauto. }
    rewrite <- T', T in F. apply Forall_app in F.
    destruct F as [_ F]. inversion F; subst. contradiction.
  - destruct (pump_obeys fuel e args [] None _ _ _ Hp) as [(new & Tn & _) _].
    cbn [extend trace init app] in Tn.
    assert (F : Forall (fun a => ~ follows_start a)
                  (EvClient None :: setup_trace e args)).
    { constructor; [exact (fun H => H)|apply setup_trace_before_start]. }
    assert (E : (EvClient None :: setup_trace e args) ++ (new ++ tail)
                = pre ++ ev :: post).
    { rewrite <- T, T', Tn. cbn [app]. rewrite <- app_assoc. reflexivity. }
    destruct (split_after follows_start _ _ _ _ _ F Hev E) as (pre' & ->).
    apply acquired_app. left.
    pose proof (setup_trace_shape e args) as S. rewrite Ef in S.
    destruct S as (p0 & _ & S).
    exists (docker_image args), ("/bin/bash -c '" ++ bash_command args ++ "'")%string.
    right. rewrite S. apply in_or_app. right. left. reflexivity.
Qed.

Lemma nothing_before_the_start_witness :
  let s' := snd (main 0 twenty_five args init) in
  main 0 twenty_five args init = (Return tt, s') /\
  (forall pre ev post,
     trace s' = pre ++ ev :: post -> follows_start ev -> acquired pre).
Proof.
  intros s'. split; [vm_compute; reflexivity|].
  apply (nothing_before_the_start 0 twenty_five args (Return tt) s').
  vm_compute. reflexivity.
Defined.

(** ** Throttled attempts, in every run *)

Lemma resumes_app kw t1 t2 c : resumes false kw t1 -> resumes c kw (t1 ++ t2).
Proof.
  intros (rest & -> & [[_ N]|(r & rest' & ->)]); [discriminate|].
  eexists. split; [reflexivity|]. right. exists r, (rest' ++ t2). reflexivity.
Qed.

Lemma backed_off_app c t1 t2 :
  backed_off false t1 -> backed_off c t2 -> backed_off c (t1 ++ t2).
Proof.
  intros H1 H2. induction t1 as [|a t1 IH]; [exact H2|].
  destruct a; cbn [app backed_off] in *; try (apply IH; exact H1).
  destruct H1 as [Hr H1]. split; [|apply IH; exact H1].
  intros T. apply resumes_app. apply Hr. exact T.
Qed.

Lemma backed_off_weaken c t : backed_off false t -> backed_off c t.
Proof.
  intros H. rewrite <- (app_nil_r t). apply backed_off_app; [exact H|exact I].
Qed.

Lemma backed_off_quiet c t :
  Forall (fun ev => is_put ev = false) t -> backed_off c t.
Proof.
  induction 1 as [|ev t H _ IH]; [exact I|].
  destruct ev; cbn [backed_off]; try exact IH. discriminate.
Qed.

Lemma backed_off_retries e kw K : forall n0, backed_off true (retries e kw n0 K).
Proof.
  induction K as [|K IH]; intros n0; [exact I|].
  cbn [retries backed_off]. split; [|apply IH].
  intros _. eexists. split; [reflexivity|].
  destruct K as [|K]; [left; split; reflexivity|].
  right. cbn [retries]. eexists. eexists. reflexivity.
Qed.

Lemma backed_off_attempt e kw K r more : forall n0,
  throttled r = false -> Forall is_log more ->
  backed_off false (retries e kw n0 K ++ EvPut kw r :: more).
Proof.
  intros n0 T F. revert n0. induction K as [|K IH]; intros n0.
  - cbn [retries app backed_off]. split; [congruence|].
    apply backed_off_quiet, logs_quiet. exact F.
  - cbn [retries app backed_off]. split; [|apply IH].
    intros _. eexists. split; [reflexivity|]. right.
    destruct K as [|K]; cbn [retries app]; eexists; eexists; reflexivity.
Qed.

Lemma push_backs_off fuel e g st b c : backs_off (push_log_events fuel e g st b c).
Proof.
  intros s r s' H. destruct b as [|ev b].
  { rewrite push_nil in H. inversion H; subst. exists [].
    rewrite app_nil_r. split; [reflexivity|exact I]. }
  apply (push_inv e g st (ev :: b) c) in H; [|discriminate].
  destruct H as [(K & _ & _ & Hlast & Hfin)|(-> & -> & _)].
  - symmetry in Hfin. apply finish_inv in Hfin.
    destruct Hfin as (more & T & F & _). cbn [retried trace] in T.
    eexists. split; [rewrite T, <- app_assoc; reflexivity|].
    apply backed_off_weaken. apply backed_off_attempt; assumption.
  - eexists. split; [reflexivity|]. apply backed_off_retries.
Qed.

Lemma backs_off_ret {A} (a : A) : backs_off (ret a).
Proof.
  intros s r s' H. inversion H; subst. exists [].
  rewrite app_nil_r. split; [reflexivity|exact I].
Qed.

Lemma backs_off_emit ev : is_put ev = false -> backs_off (emit ev).
Proof.
  intros Q s r s' H. inversion H; subst. exists [ev].
  split; [reflexivity|]. apply backed_off_quiet. repeat constructor. exact Q.
Qed.

Lemma backs_off_answer a : backs_off (answer a).
Proof.
  intros s r s' H. destruct a; inversion H; subst; exists [];
    rewrite app_nil_r; (split; [reflexivity|exact I]).
Qed.

Lemma backs_off_now e : backs_off (now e).
Proof.
  intros s r s' H. inversion H; subst. exists [].
  cbn [trace]. rewrite app_nil_r. split; [reflexivity|exact I].
Qed.

Lemma backs_off_bind {A B} (m : M A) (k : A -> M B) :
  backs_off m -> (forall a, backs_off (k a)) -> backs_off (bind m k).
Proof.
  intros Hm Hk s r s' H. apply bind_inv in H.
  destruct H as [(a & s1 & H1 & H2)|[(x & H1 & ->)|[H1 ->]]].
  - destruct (Hm _ _ _ H1) as (n1 & T1 & B1).
    destruct (Hk a _ _ _ H2) as (n2 & T2 & B2).
    exists (n1 ++ n2). split; [rewrite T2, T1, app_assoc; reflexivity|].
    apply backed_off_app; assumption.
  - exact (Hm _ _ _ H1).
  - exact (Hm _ _ _ H1).
Qed.

Lemma stream_loop_backs_off fuel e args lines : forall buf c,
  backs_off (stream_loop fuel e args lines buf c).
Proof.
  induction lines as [|line lines IH]; intros buf c; [apply backs_off_ret|].
  cbn [stream_loop]. destruct (truthy_str (strip line)); [|apply IH].
  apply backs_off_bind; [apply backs_off_now|]. intros t.
  destruct (10 <=? length (buf ++ [mkEvent t (strip line)])); [|apply IH].
  apply backs_off_bind; [apply push_backs_off|]. intros c'. apply IH.
Qed.

Lemma drain_events_backs_off e lines : backs_off (drain_events e lines).
Proof.
  intros s r s' H. rewrite drain_events_eq in H. inversion H; subst.
  exists []. cbn [trace]. rewrite app_nil_r. split; [reflexivity|exact I].
Qed.

Lemma pump_backs_off fuel e args buf c : backs_off (pump fuel e args buf c).
Proof.
  unfold pump.
  apply backs_off_bind; [apply backs_off_emit; reflexivity|]. intros _.
  apply backs_off_bind; [apply stream_loop_backs_off|]. intros st.
  apply backs_off_bind; [apply backs_off_answer|]. intros _.
  apply backs_off_bind; [apply backs_off_emit; reflexivity|]. intros _.
  apply backs_off_bind; [apply drain_events_backs_off|]. intros extra.
  apply backs_off_bind; [apply backs_off_answer|]. intros _.
  destruct (is_empty (fst st ++ extra)); [apply backs_off_ret|].
  apply backs_off_bind; [apply push_backs_off|]. intros _. apply backs_off_ret.
Qed.

Lemma plain_quiet t : Forall is_plain t -> Forall (fun ev => is_put ev = false) t.
Proof.
  apply Forall_impl. intros ev; destruct ev; cbn; try reflexivity. contradiction.
Qed.

Lemma guarded_events_quiet e rp :
  Forall (fun ev => is_put ev = false) (guarded_events e rp).
Proof.
  unfold guarded_events, inner_record.
  destruct rp as [u|x|]; [| |constructor].
  - apply cleanup_quiet.
  - apply Forall_app. split; [|apply cleanup_quiet].
    destruct (is_APIError x); repeat constructor.
Qed.

Lemma outer_record_quiet x ev : outer_record x = Some ev -> is_put ev = false.
Proof.
  unfold outer_record.
  destruct (is_DockerException x); [intros E; inversion E; reflexivity|].
  destruct (is_ClientError x); [intros E; inversion E; reflexivity|].
  destruct (is_Exception x); [intros E; inversion E; reflexivity|discriminate].
Qed.

(** The trace of every run of [main] is backed off. *)
Lemma main_backs_off fuel e args : backs_off (main fuel e args).
Proof.
  intros s r s' H.
  destruct (boto3_client e) as [x|] eqn:Eb.
  { rewrite main_run, Eb in H. apply pair_equal_spec in H; destruct H as [<- <-]. eexists.
    split; [reflexivity|]. apply backed_off_quiet. repeat constructor. }
  assert (Qs : Forall (fun ev => is_put ev = false)
                 (EvClient None :: setup_trace e args)).
  { constructor; [reflexivity|]. apply plain_quiet, setup_trace_plain. }
  destruct (setup_failure e) as [x|] eqn:Ef.
  { rewrite (main_of_setup_failure _ _ _ _ _ Eb Ef) in H.
    destruct (outer_record x) as [ev|] eqn:Eo; apply pair_equal_spec in H; destruct H as [<- <-];
      eexists; (split; [reflexivity|]); apply backed_off_quiet.
    - change (EvClient None :: setup_trace e args ++ [ev])
        with ((EvClient None :: setup_trace e args) ++ [ev]).
      apply Forall_app. split; [exact Qs|].
      repeat constructor. exact (outer_record_quiet _ _ Eo).
    - exact Qs. }
  destruct (pump fuel e args [] None (extend s (EvClient None :: setup_trace e args)))
    as [rp sp] eqn:Hp.
  rewrite (main_of_pump _ _ _ _ _ _ Eb Ef Hp) in H.
  destruct (pump_backs_off _ _ _ _ _ _ _ _ Hp) as (new & T & B).
  cbn [extend trace] in T.
  pose proof (guarded_events_quiet e rp) as Qg.
  assert (C : forall tail,
            Forall (fun ev => is_put ev = false) tail ->
            (is_out rp = true -> tail = []) ->
            forall c, (is_out rp = true -> c = true) ->
            backed_off c ((EvClient None :: setup_trace e args) ++ new ++ tail)).
  { intros tail Qt Ht c Hc.
    apply backed_off_app; [apply backed_off_quiet; exact Qs|].
    destruct (is_out rp) eqn:O.
    - rewrite (Ht eq_refl), app_nil_r, (Hc eq_refl). exact B.
    - apply backed_off_app; [exact B|apply backed_off_quiet; exact Qt]. }
  assert (Tl : forall tail,
            trace (extend sp tail)
            = trace s ++ (EvClient None :: setup_trace e args) ++ new ++ tail).
  { intros tail. cbn [extend trace]. rewrite T, <- !app_assoc. reflexivity. }
  assert (Fin : forall (r1 : result unit) tail,
            (r1, extend sp tail) = (r, s') ->
            Forall (fun ev => is_put ev = false) tail ->
            (is_out rp = true -> tail = [] /\ r1 = OutOfFuel) ->
            exists new0, trace s' = trace s ++ new0 /\ backed_off (is_out r) new0).
  { intros r1 tail E Qt Ho. apply pair_equal_spec in E. destruct E as [<- <-].
    eexists. split; [apply Tl|].
    apply C; [exact Qt|intros O; apply Ho; exact O|].
    intros O. destruct (Ho O) as [_ ->]. reflexivity. }
  assert (Out : forall y,
            is_out rp = false ->
            match outer_record y with
            | Some ev => (Return tt, extend sp (guarded_events e rp ++ [ev]))
            | None => (Raise y, extend sp (guarded_events e rp))
            end = (r, s') ->
            exists new0, trace s' = trace s ++ new0 /\ backed_off (is_out r) new0).
  { intros y O E. destruct (outer_record y) as [ev|] eqn:Eo;
      apply Fin in E; trivial; try (rewrite O; discriminate).
    apply Forall_app. split; [exact Qg|].
    repeat constructor. exact (outer_record_quiet _ _ Eo). }
  clear C Tl.
  pose proof (cleanup_result_ends e) as Nc.
  destruct rp as [u|x|]; unfold guarded_result, inner_result in H;
    cbv beta iota in H.
  - destruct (cleanup_result e) as [v|y|]; [|exact (Out y eq_refl H)|congruence].
    apply Fin in H; trivial. discriminate.
  - destruct (is_APIError x);
      (destruct (cleanup_result e) as [v|y|];
         [|exact (Out y eq_refl H)|congruence]).
    + apply Fin in H; trivial. discriminate.
    + exact (Out x eq_refl H).
  - apply Fin in H; [exact H|constructor|]. intros _. split; reflexivity.
Qed.

Lemma backed_off_at c pre : forall kw r post,
  backed_off c (pre ++ EvPut kw r :: post) ->
  throttled r = true -> resumes c kw post.
Proof.
  induction pre as [|a pre IH]; intros kw r post H T.
  - cbn [app backed_off] in H. apply H. exact T.
  - apply (IH kw r post); [|exact T]. destruct a; cbn [app backed_off] in H;
      try exact H. apply H.
Qed.



(** ** A sink that fails otherwise *)

Lemma retries_not_fatal e kw K : forall n0,
  (forall i, i < K -> throttled (client_put_log_events e (n0 + i) kw) = true) ->
  Forall (fun ev => is_fatal ev = false) (retries e kw n0 K).
Proof.
  induction K as [|K IH]; intros n0 H; [constructor|].
  cbn [retries]. pose proof (H 0 ltac:(lia)) as H0. rewrite Nat.add_0_r in H0.
  constructor.
  - destruct (client_put_log_events e n0 kw) as [next|x]; [reflexivity|].
    cbn in *. rewrite (is_throttling_ClientError x H0). reflexivity.
  - constructor; [reflexivity|]. constructor; [reflexivity|].
    apply IH. intros i Hi. replace (S n0 + i) with (n0 + S i) by lia.
    apply H. lia.
Qed.

Lemma push_stops_at_fatal fuel e g st b c :
  stops_at_fatal (push_log_events fuel e g st b c).
Proof.
  intros s r s' H. destruct b as [|ev b].
  { rewrite push_nil in H. inversion H; subst. exists [], [].
    rewrite app_nil_r. repeat split; constructor. }
  apply (push_inv e g st (ev :: b) c) in H; [|discriminate].
  set (kw := make_kwargs g st (ev :: b) c) in *.
  destruct H as [(K & _ & Hthr & Hlast & Hfin)|(-> & -> & Hthr)].
  - pose proof (retries_not_fatal e kw K (puts s) Hthr) as F.
    unfold finish, after_put, retried in Hfin. cbn [puts ticks trace] in Hfin.
    destruct (client_put_log_events e (puts s + K) kw) as [next|x].
    + inversion Hfin; subst. exists (retries e kw (puts s) K ++ [EvPut kw (PutOk next)]), [].
      cbn [trace]. rewrite app_nil_r, <- app_assoc.
      split; [reflexivity|]. split; [|reflexivity].
      apply Forall_app. split; [exact F|repeat constructor].
    + destruct (is_ClientError x) eqn:Ec; inversion Hfin; subst; cbn [trace].
      * exists (retries e kw (puts s) K
                ++ [EvPut kw (PutRaise x);
                    EvLog ERROR ("Failed to push log events: " ++ str x)]), [].
        rewrite app_nil_r, <- app_assoc.
        split; [reflexivity|]. split; [|reflexivity].
        apply Forall_app. split; [exact F|].
        repeat constructor. cbn. rewrite Ec. reflexivity.
      * exists (retries e kw (puts s) K), [EvPut kw (PutRaise x)].
        rewrite <- app_assoc.
        split; [reflexivity|]. split; [exact F|cbn; lia].
  - exists (retries e kw (puts s) (S fuel)), [].
    cbn [retried trace]. rewrite app_nil_r.
    split; [reflexivity|]. split; [|cbn; lia].
    apply retries_not_fatal. exact Hthr.
Qed.

Lemma stops_nothing {A} (f : M A) :
  (forall s r s', f s = (r, s') -> trace s' = trace s) -> stops_at_fatal f.
Proof.
  intros Hf s r s' H. exists [], []. rewrite (Hf _ _ _ H), app_nil_r.
  split; [reflexivity|]. split; [constructor|].
  destruct r; [reflexivity|cbn; lia|cbn; lia].
Qed.

Lemma stops_emit ev : is_fatal ev = false -> stops_at_fatal (emit ev).
Proof.
  intros Q s r s' H. inversion H; subst. exists [ev], [].
  split; [reflexivity|]. split; [repeat constructor; exact Q|reflexivity].
Qed.

Lemma stops_bind {A B} (m : M A) (k : A -> M B) :
  stops_at_fatal m -> (forall a, stops_at_fatal (k a)) -> stops_at_fatal (bind m k).
Proof.
  intros Hm Hk s r s' H. apply bind_inv in H.
  destruct H as [(a & s1 & H1 & H2)|[(x & H1 & ->)|[H1 ->]]].
  - destruct (Hm _ _ _ H1) as (b1 & l1 & T1 & F1 & ->).
    destruct (Hk a _ _ _ H2) as (b2 & l2 & T2 & F2 & L2).
    exists (b1 ++ b2), l2. rewrite app_nil_r in T1.
    split; [rewrite T2, T1, <- !app_assoc; reflexivity|].
    split; [apply Forall_app; split; assumption|exact L2].
  - exact (Hm _ _ _ H1).
  - exact (Hm _ _ _ H1).
Qed.

Lemma stream_loop_stops fuel e args lines : forall buf c,
  stops_at_fatal (stream_loop fuel e args lines buf c).
Proof.
  induction lines as [|line lines IH]; intros buf c.
  { apply stops_nothing. intros s r s' H. inversion H; reflexivity. }
  cbn [stream_loop]. destruct (truthy_str (strip line)); [|apply IH].
  apply stops_bind.
  { apply stops_nothing. intros s r s' H. inversion H; reflexivity. }
  intros t.
  destruct (10 <=? length (buf ++ [mkEvent t (strip line)])); [|apply IH].
  apply stops_bind; [apply push_stops_at_fatal|]. intros c'. apply IH.
Qed.

Lemma pump_stops fuel e args buf c : stops_at_fatal (pump fuel e args buf c).
Proof.
  assert (Ha : forall a, stops_at_fatal (answer a)).
  { intros a. apply stops_nothing. intros s r s' H.
    destruct a; inversion H; reflexivity. }
  assert (Hr : forall (A : Type) (a : A), stops_at_fatal (ret a)).
  { intros A a. apply stops_nothing. intros s r s' H. inversion H; reflexivity. }
  unfold pump.
  apply stops_bind; [apply stops_emit; reflexivity|]. intros _.
  apply stops_bind; [apply stream_loop_stops|]. intros st.
  apply stops_bind; [apply Ha|]. intros _.
  apply stops_bind; [apply stops_emit; reflexivity|]. intros _.
  apply stops_bind.
  { apply stops_nothing. intros s r s' H. rewrite drain_events_eq in H.
    inversion H; reflexivity. }
  intros extra.
  apply stops_bind; [apply Ha|]. intros _.
  destruct (is_empty (fst st ++ extra)); [apply Hr|].
  apply stops_bind; [apply push_stops_at_fatal|]. intros _. apply Hr.
Qed.

Lemma quiet_not_fatal t :
  Forall (fun ev => is_put ev = false) t -> Forall (fun ev => is_fatal ev = false) t.
Proof. apply Forall_impl. intros ev; destruct ev; cbn; congruence. Qed.

Lemma guarded_events_tail e rp : Forall is_tail (guarded_events e rp).
Proof.
  unfold guarded_events, inner_record.
  destruct rp as [u|x|]; [| |constructor].
  - apply cleanup_events_tail.
  - apply Forall_app. split; [|apply cleanup_events_tail].
    destruct (is_APIError x); repeat constructor.
Qed.

Lemma outer_record_tail x ev : outer_record x = Some ev -> is_tail ev.
Proof.
  unfold outer_record.
  destruct (is_DockerException x); [intros E; inversion E; exact I|].
  destruct (is_ClientError x); [intros E; inversion E; exact I|].
  destruct (is_Exception x); [intros E; inversion E; exact I|discriminate].
Qed.

(** The trace of a run that reaches the pump: the steps before it, what
    the pump added, and records and cleanup only after it. *)
Lemma main_after_pump fuel e args r s' rp sp :
  boto3_client e = None ->
  setup_failure e = None ->
  pump fuel e args [] None (extend init (EvClient None :: setup_trace e args))
  = (rp, sp) ->
  main fuel e args init = (r, s') ->
  exists tail, trace s' = trace sp ++ tail /\ Forall is_tail tail.
Proof.
  intros Eb Ef Hp H. rewrite (main_of_pump _ _ _ _ _ _ Eb Ef Hp) in H.
  pose proof (guarded_events_tail e rp) as G.
  destruct (guarded_result e rp) as [u|y|].
  - apply pair_equal_spec in H. destruct H as [_ <-].
    eexists. split; [reflexivity|exact G].
  - destruct (outer_record y) as [ev|] eqn:Eo;
      apply pair_equal_spec in H; destruct H as [_ <-]; eexists;
      (split; [reflexivity|]); [|exact G].
    apply Forall_app. split; [exact G|].
    repeat constructor. exact (outer_record_tail _ _ Eo).
  - apply pair_equal_spec in H. destruct H as [_ <-].
    eexists. split; [reflexivity|exact G].
Qed.

Lemma tail_not_put kw r : ~ is_tail (EvPut kw r).
Proof. exact (fun H => H). Qed.

(** X12.  In every run of [main], an append attempt that ends with an
    exception other than a [ClientError] (a connection failure, a
    response without the next token) is the last thing the pump does:
    the batch is not retried, nothing more is read or sent, and only
    log records and the stop and the remove of the container follow.
    Only a [ClientError] is retried or given up with the run going on. *)
Theorem other_sink_failure_ends_the_pump : forall fuel e args r s',
  main fuel e args init = (r, s') ->
  forall pre kw x post,
    trace s' = pre ++ EvPut kw (PutRaise x) :: post ->
    is_ClientError x = false ->
    Forall is_tail post.
Proof.
  intros fuel e args r s' H pre kw x post T Hx.
  assert (Hf : is_fatal (EvPut kw (PutRaise x)) = true)
    by (cbn; rewrite Hx; reflexivity).
  assert (Absurd : forall t,
            Forall (fun ev => is_fatal ev = false) t ->
            ~ In (EvPut kw (PutRaise x)) t).
  { intros t F N. rewrite Forall_forall in F. rewrite (F _ N) in Hf. discriminate. }
  assert (Here : In (EvPut kw (PutRaise x)) (trace s'))
    by (rewrite T; apply in_or_app; right; left; reflexivity).
  destruct (boto3_client e) as [y|] eqn:Eb.
  { exfalso. rewrite main_run, Eb in H. inversion H; subst.
    destruct Here as [N|[]]. discriminate. }
  assert (Qs : Forall (fun ev => is_put ev = false)
                 (EvClient None :: setup_trace e args)).
  { constructor; [reflexivity|]. apply plain_quiet, setup_trace_plain. }
  destruct (setup_failure e) as [y|] eqn:Ef.
  { exfalso. rewrite (main_of_setup_failure _ _ _ _ _ Eb Ef) in H.
    apply (Absurd (trace s')); [|exact Here]. apply quiet_not_fatal.
    destruct (outer_record y) as [ev|] eqn:Eo;
      apply pair_equal_spec in H; destruct H as [_ <-]; cbn [extend init trace app];
      [|exact Qs].
    change (EvClient None :: setup_trace e args ++ [ev])
      with ((EvClient None :: setup_trace e args) ++ [ev]).
    apply Forall_app. split; [exact Qs|].
    repeat constructor. exact (outer_record_quiet _ _ Eo). }
  destruct (pump fuel e args [] None
              (extend init (EvClient None :: setup_trace e args)))
    as [rp sp] eqn:Hp.
  destruct (main_after_pump _ _ _ _ _ _ _ Eb Ef Hp H) as (tail & Tt & Ft).
  destruct (pump_stops _ _ _ _ _ _ _ _ Hp) as (body & last & Tp & Fb & Hl).
  cbn [extend init trace app] in Tp.
  assert (E : ((EvClient None :: setup_trace e args) ++ body) ++ (last ++ tail)
              = pre ++ EvPut kw (PutRaise x) :: post).
  { rewrite <- T, Tt, Tp. cbn [app]. rewrite <- !app_assoc. reflexivity. }
  assert (Fa : Forall (fun a => ~ (is_fatal a = true))
                 ((EvClient None :: setup_trace e args) ++ body)).
  { apply Forall_app. split.
    - apply quiet_not_fatal in Qs. revert Qs. apply Forall_impl.
      intros a Ha. rewrite Ha. discriminate.
    - revert Fb. apply Forall_impl. intros a Ha. rewrite Ha. discriminate. }
  destruct (split_after (fun a => is_fatal a = true) _ _ _ _ _ Fa Hf E)
    as (pre' & ->).
  rewrite <- (app_assoc _ pre' (_ :: post)) in E. apply app_inv_head in E.
  assert (Tail : forall p, tail = p ++ EvPut kw (PutRaise x) :: post -> False).
  { intros p Et. rewrite Et in Ft. apply Forall_app in Ft.
    destruct Ft as [_ Ft]. inversion Ft; subst. contradiction. }
  assert (L : length last <= 1) by (destruct rp; [subst last; cbn; lia|exact Hl|exact Hl]).
  destruct last as [|l0 [|l1 last]]; [| |cbn in L; lia].
  - exfalso. exact (Tail pre' E).
  - destruct pre' as [|p pre']; cbn [app] in E; inversion E; subst.
    + exact Ft.
    + exfalso. exact (Tail pre' eq_refl).
Qed.

Lemma other_sink_failure_ends_the_pump_witness :
  let s' := snd (main 0 sink_unreachable args init) in
  main 0 sink_unreachable args init = (Return tt, s') /\
  (forall pre kw x post,
     trace s' = pre ++ EvPut kw (PutRaise x) :: post ->
     is_ClientError x = false ->
     Forall is_tail post).
Proof.
  intros s'. split; [vm_compute; reflexivity|].
  apply (other_sink_failure_ends_the_pump 0 sink_unreachable args (Return tt) s').
  vm_compute. reflexivity.
Defined.

(** X13.  When the streaming read ends normally and the second read
    ends with an exception, the sink taking every batch and the stop
    and the remove returning: the full batches of ten of the stream
    have been delivered and nothing else is; the events left over from
    the stream and every line of the second read are lost, and no
    attempt follows the second read.  The container is stopped and
    removed, and the exception is reported as one of the streaming read
    is. *)
Theorem drain_error_drops_the_rest : forall fuel e args x,
  provisioning_ok e ->
  accepts e ->
  logs_stream_end e = None ->
  logs_drain_end e = Some x ->
  container_stop e = None ->
  container_remove e = None ->
  exists s' during,
    main fuel e args init
    = (if is_Exception x then Return tt else Raise x, s') /\
    trace s'
    = EvClient None :: setup_trace e args
      ++ EvLogs true :: during ++ EvLogs false :: closing x /\
    Forall is_accepted_put during /\
    concat (submitted during)
    = firstn (10 * (length (accepted (logs_stream e)) / 10))
        (stamp e 0 (accepted (logs_stream e))).
Proof.
  intros fuel e args x (Eb & Hp) Ha Hs Hx Hstop Hrem.
  apply setup_failure_none in Hp.
  pose proof (pump_accepting fuel e args Ha
                (extend init (EvClient None :: setup_trace e args))) as P.
  cbv zeta in P. rewrite Hs, Hx in P. cbn [extend init puts ticks trace app] in P.
  set (full := fst (full_batches [] (stamp e 0 (accepted (logs_stream e))))) in *.
  set (during := deliveries e args 0 None full) in *.
  destruct (deliveries_accepted e args Ha full 0 None) as (Fd & _ & Sd).
  fold during in Fd, Sd.
  assert (Hc : cleanup_result e = Return tt)
    by (unfold cleanup_result; rewrite Hstop, Hrem; reflexivity).
  assert (He : cleanup_events e = [EvStop None; EvRemove None])
    by (unfold cleanup_events; rewrite Hstop, Hrem; reflexivity).
  exists (snd (main fuel e args init)), during.
  rewrite (main_of_pump _ _ _ _ _ _ Eb Hp P).
  unfold guarded_result, guarded_events, inner_result, inner_record, closing.
  rewrite Hc, He.
  split; [|split; [|split; [exact Fd|]]].
  - destruct x; reflexivity.
  - destruct x; cbn [is_APIError is_Exception outer_record is_DockerException
                     is_ClientError snd extend trace app];
      repeat (rewrite <- app_assoc || rewrite <- app_comm_cons); reflexivity.
  - rewrite Sd. unfold full. rewrite full_batches_firstn, length_stamp.
    reflexivity.
Qed.

Lemma drain_error_drops_the_rest_witness :
  provisioning_ok broken_drain /\
  accepts broken_drain /\
  exists s' during,
    main 0 broken_drain args init = (Return tt, s') /\
    trace s'
    = EvClient None :: setup_trace broken_drain args
      ++ EvLogs true :: during
      ++ EvLogs false :: closing (DockerException "Connection aborted") /\
    Forall is_accepted_put during /\
    concat (submitted during)
    = firstn (10 * (length (accepted (logs_stream broken_drain)) / 10))
        (stamp broken_drain 0 (accepted (logs_stream broken_drain))).
Proof.
  assert (Hp : provisioning_ok broken_drain) by (repeat split).
  assert (Ha : accepts broken_drain)
    by (intros i kw; exists (Some "next"); reflexivity).
  split; [exact Hp|]. split; [exact Ha|].
  exact (drain_error_drops_the_rest 0 broken_drain args
           (DockerException "Connection aborted") Hp Ha
           eq_refl eq_refl eq_refl eq_refl).
Defined.

(** ** Runs without an error record *)

Section Adds.

Variable P : list event -> Prop.
Hypothesis P_nil : P [].
Hypothesis P_app : forall a b, P a -> P b -> P (a ++ b).

Lemma adds_nothing {A} (f : M A) :
  (forall s r s', f s = (r, s') -> trace s' = trace s) -> adds P f.
Proof.
  intros Hf s r s' H. exists []. rewrite (Hf _ _ _ H), app_nil_r.
  split; [reflexivity|exact P_nil].
Qed.

Lemma adds_emit ev : P [ev] -> adds P (emit ev).
Proof.
  intros Q s r s' H. inversion H; subst. exists [ev].
  split; [reflexivity|exact Q].
Qed.

Lemma adds_bind {A B} (m : M A) (k : A -> M B) :
  adds P m -> (forall a, adds P (k a)) -> adds P (bind m k).
Proof.
  intros Hm Hk s r s' H. apply bind_inv in H.
  destruct H as [(a & s1 & H1 & H2)|[(x & H1 & ->)|[H1 ->]]].
  - destruct (Hm _ _ _ H1) as (n1 & T1 & B1).
    destruct (Hk a _ _ _ H2) as (n2 & T2 & B2).
    exists (n1 ++ n2). split; [rewrite T2, T1, app_assoc; reflexivity|].
    apply P_app; assumption.
  - exact (Hm _ _ _ H1).
  - exact (Hm _ _ _ H1).
Qed.

Hypothesis P_push : forall fuel e g st b c, adds P (push_log_events fuel e g st b c).
Hypothesis P_logs : forall b, P [EvLogs b].

Lemma stream_loop_adds fuel e args lines : forall buf c,
  adds P (stream_loop fuel e args lines buf c).
Proof.
  induction lines as [|line lines IH]; intros buf c.
  { apply adds_nothing. intros s r s' H. inversion H; reflexivity. }
  cbn [stream_loop]. destruct (truthy_str (strip line)); [|apply IH].
  apply adds_bind.
  { apply adds_nothing. intros s r s' H. inversion H; reflexivity. }
  intros t.
  destruct (10 <=? length (buf ++ [mkEvent t (strip line)])); [|apply IH].
  apply adds_bind; [apply P_push|]. intros c'. apply IH.
Qed.

Lemma pump_adds fuel e args buf c : adds P (pump fuel e args buf c).
Proof.
  assert (Ha : forall a, adds P (answer a)).
  { intros a. apply adds_nothing. intros s r s' H.
    destruct a; inversion H; reflexivity. }
  assert (Hr : forall (A : Type) (a : A), adds P (ret a)).
  { intros A a. apply adds_nothing. intros s r s' H. inversion H; reflexivity. }
  unfold pump.
  apply adds_bind; [apply adds_emit, P_logs|]. intros _.
  apply adds_bind; [apply stream_loop_adds|]. intros st.
  apply adds_bind; [apply Ha|]. intros _.
  apply adds_bind; [apply adds_emit, P_logs|]. intros _.
  apply adds_bind.
  { apply adds_nothing. intros s r s' H. rewrite drain_events_eq in H.
    inversion H; reflexivity. }
  intros extra.
  apply adds_bind; [apply Ha|]. intros _.
  destruct (is_empty (fst st ++ extra)); [apply Hr|].
  apply adds_bind; [apply P_push|]. intros _. apply Hr.
Qed.

End Adds.

Lemma reported_app a b : reported a -> reported b -> reported (a ++ b).
Proof.
  intros Ha Hb kw x Hin Hc Ht. apply in_or_app. apply in_app_or in Hin.
  destruct Hin as [Hin|Hin]; [left; exact (Ha _ _ Hin Hc Ht)
                             |right; exact (Hb _ _ Hin Hc Ht)].
Qed.

Lemma retries_throttled e kw K : forall n0 kw' x,
  (forall i, i < K -> throttled (client_put_log_events e (n0 + i) kw) = true) ->
  In (EvPut kw' (PutRaise x)) (retries e kw n0 K) -> is_throttling x = true.
Proof.
  induction K as [|K IH]; intros n0 kw' x H Hin; [destruct Hin|].
  cbn [retries] in Hin. destruct Hin as [E|[E|[E|Hin]]]; try discriminate.
  - pose proof (H 0 ltac:(lia)) as H0. rewrite Nat.add_0_r in H0.
    injection E as Ek Er. rewrite Er in H0. exact H0.
  - apply (IH (S n0) kw' x); [|exact Hin].
    intros i Hi. replace (S n0 + i) with (n0 + S i) by lia. apply H. lia.
Qed.

Lemma push_reported fuel e g st b c :
  adds reported (push_log_events fuel e g st b c).
Proof.
  intros s r s' H. destruct b as [|ev b].
  { rewrite push_nil in H. inversion H; subst. exists [].
    rewrite app_nil_r. split; [reflexivity|]. intros kw x []. }
  apply (push_inv e g st (ev :: b) c) in H; [|discriminate].
  set (kw := make_kwargs g st (ev :: b) c) in *.
  assert (R : forall K,
            (forall i, i < K ->
               throttled (client_put_log_events e (puts s + i) kw) = true) ->
            reported (retries e kw (puts s) K)).
  { intros K Hthr kw' x Hin _ Ht.
    rewrite (retries_throttled e kw K _ _ _ Hthr Hin) in Ht. discriminate. }
  destruct H as [(K & _ & Hthr & Hlast & Hfin)|(-> & -> & Hthr)].
  - unfold finish, after_put, retried in Hfin. cbn [puts ticks trace] in Hfin.
    destruct (client_put_log_events e (puts s + K) kw) as [next|x].
    + inversion Hfin; subst. cbn [trace]. eexists.
      split; [rewrite <- app_assoc; reflexivity|].
      apply reported_app; [apply R; exact Hthr|].
      intros kw' x [E|[]]. discriminate.
    + destruct (is_ClientError x) eqn:Ec; inversion Hfin; subst; cbn [trace];
        eexists; (split; [rewrite <- app_assoc; reflexivity|]);
        (apply reported_app; [apply R; exact Hthr|]).
      * intros kw' y [E|[E|[]]] _ _; [|discriminate].
        inversion E; subst. right. left. reflexivity.
      * intros kw' y [E|[]] Hc _. inversion E; subst. congruence.
  - eexists. split; [reflexivity|]. apply R. exact Hthr.
Qed.

Lemma pump_reported fuel e args buf c : adds reported (pump fuel e args buf c).
Proof.
  apply pump_adds.
  - intros kw x [].
  - exact reported_app.
  - intros; apply push_reported.
  - intros b kw x [E|[]]. discriminate.
Qed.

Lemma delivered_app t1 t2 : delivered (t1 ++ t2) = delivered t1 ++ delivered t2.
Proof.
  induction t1 as [|ev t1 IH]; [reflexivity|].
  destruct ev; cbn [app delivered]; try exact IH.
  destruct r; [cbn; rewrite IH; reflexivity|exact IH].
Qed.

Lemma delivered_quiet t :
  Forall (fun ev => is_put ev = false) t -> delivered t = [].
Proof.
  induction 1 as [|ev t H _ IH]; [reflexivity|].
  destruct ev; cbn in *; try exact IH. discriminate.
Qed.

(** Where every attempt that failed was throttled, what the sink decided
    on is what it took. *)
Lemma submitted_delivered t :
  (forall kw x, In (EvPut kw (PutRaise x)) t -> is_throttling x = true) ->
  submitted t = delivered t.
Proof.
  induction t as [|ev t IH]; intros H; [reflexivity|].
  assert (Ht : submitted t = delivered t)
    by (apply IH; intros kw x Hin; apply (H kw x); right; exact Hin).
  destruct ev; cbn [submitted delivered]; try exact Ht.
  destruct r as [next|x]; cbn [throttled].
  - rewrite Ht. reflexivity.
  - rewrite (H kw x (or_introl eq_refl)). exact Ht.
Qed.

(** X14.  No loss is silent: when [main] returns and its trace has no
    error record, both reads ended normally, every accepted line of the
    stream and of the second read was taken by the sink, once and in
    order, and the container was stopped and removed.  Every failure
    that loses events (a refused batch, a failing read, a failing sink,
    a failing provisioning step or cleanup) leaves an error record or
    an exception. *)
Theorem no_error_record_means_all_delivered : forall fuel e args s',
  main fuel e args init = (Return tt, s') ->
  no_error_record (trace s') ->
  logs_stream_end e = None /\
  logs_drain_end e = None /\
  concat (delivered (trace s'))
  = stamp e 0 (accepted (logs_stream e) ++ accepted (logs_drain e)) /\
  container_calls (trace s') = [EvStop None; EvRemove None].
Proof.
  intros fuel e args s' H Hn.
  destruct (boto3_client e) as [y|] eqn:Eb.
  { rewrite main_run, Eb in H. discriminate. }
  destruct (setup_failure e) as [y|] eqn:Ef.
  { exfalso. rewrite (main_of_setup_failure _ _ _ _ _ Eb Ef) in H.
    unfold outer_record in H.
    destruct (is_DockerException y); [|destruct (is_ClientError y);
                                        [|destruct (is_Exception y)]];
      try discriminate;
      apply pair_equal_spec in H; destruct H as [_ <-];
      eapply Hn; cbn [extend init trace app]; right; apply in_or_app; right;
      left; reflexivity. }
  destruct (pump fuel e args [] None
              (extend init (EvClient None :: setup_trace e args)))
    as [rp sp] eqn:Hp.
  rewrite (main_of_pump _ _ _ _ _ _ Eb Ef Hp) in H.
  assert (Rec : forall y tail,
            match outer_record y with
            | Some ev => (Return tt, extend sp (tail ++ [ev]))
            | None => (Raise y, extend sp tail)
            end = (Return tt, s') -> False).
  { intros y tail E. unfold outer_record in E.
    destruct (is_DockerException y); [|destruct (is_ClientError y);
                                        [|destruct (is_Exception y)]];
      try discriminate;
      apply pair_equal_spec in E; destruct E as [_ <-];
      eapply Hn; cbn [extend trace]; apply in_or_app; right; apply in_or_app;
      right; left; reflexivity. }
  pose proof (cleanup_result_ends e) as Nc.
  unfold guarded_result, inner_result in H.
  destruct rp as [[]|x|]; cbv beta iota in H; [| |discriminate].
  2:{ exfalso. destruct (is_APIError x) eqn:Ea.
      - assert (In (EvLog ERROR ("Docker API error: " ++ str x))
                  (guarded_events e (Raise x))).
        { unfold guarded_events, inner_record. rewrite Ea. left. reflexivity. }
        destruct (cleanup_result e) as [v|y|]; [|exact (Rec _ _ H)|congruence].
        apply pair_equal_spec in H. destruct H as [_ <-].
        eapply Hn. cbn [extend trace]. apply in_or_app. right. exact H0.
      - destruct (cleanup_result e) as [v|y|];
          [exact (Rec _ _ H)|exact (Rec _ _ H)|congruence]. }
  destruct (cleanup_result e) as [v|y|] eqn:Ec;
    [|exfalso; exact (Rec _ _ H)|congruence].
  apply pair_equal_spec in H. destruct H as [_ <-].
  assert (Hstop : cleanup_events e = [EvStop None; EvRemove None]).
  { unfold cleanup_result in Ec. unfold cleanup_events.
    destruct (container_stop e); [discriminate|].
    destruct (container_remove e); [discriminate|reflexivity]. }
  unfold guarded_events, inner_record in *. cbn [app] in *. rewrite Hstop in *.
  destruct (pump_returned _ _ _ _ _ _ _ Hp) as (_ & _ & _ & Hs & Hd & _).
  destruct (pump_completed _ _ _ _ _ Hp)
    as (during & after & T & _ & _ & _ & _ & _ & C & _).
  cbn [extend init puts ticks trace app] in T, C.
  destruct (pump_reported _ _ _ _ _ _ _ _ Hp) as (new & Tn & Rn).
  destruct (pump_stops _ _ _ _ _ _ _ _ Hp) as (body & last & Tb & Fb & ->).
  cbn [extend init puts ticks trace app] in Tn, Tb. rewrite app_nil_r in Tb.
  assert (new = body) by (rewrite Tn in Tb; injection Tb as Tb;
                          apply app_inv_head in Tb; exact Tb).
  subst body.
  assert (new = EvLogs true :: during ++ EvLogs false :: after).
  { rewrite Tn in T. injection T as T. apply app_inv_head in T. exact T. }
  assert (Thr : forall kw x, In (EvPut kw (PutRaise x)) new -> is_throttling x = true).
  { intros kw x Hin. destruct (is_throttling x) eqn:Et; [reflexivity|exfalso].
    destruct (is_ClientError x) eqn:Ex.
    - apply (Hn ("Failed to push log events: " ++ str x)%string).
      cbn [extend trace]. rewrite Tn. apply in_or_app. left. right.
      apply in_or_app. right. exact (Rn kw x Hin Ex Et).
    - rewrite Forall_forall in Fb. specialize (Fb _ Hin). cbn in Fb.
      rewrite Ex in Fb. discriminate. }
  split; [exact Hs|]. split; [exact Hd|].
  assert (Qs : Forall (fun ev => is_put ev = false)
                 (EvClient None :: setup_trace e args)).
  { constructor; [reflexivity|]. apply plain_quiet, setup_trace_plain. }
  cbn [extend trace]. rewrite Tn.
  change (EvClient None :: setup_trace e args ++ new)
    with ((EvClient None :: setup_trace e args) ++ new).
  split.
  - rewrite !delivered_app, (delivered_quiet _ Qs). cbn [app delivered].
    rewrite app_nil_r, <- (submitted_delivered new Thr). subst new.
    rewrite <- C.
    change (EvLogs true :: during ++ EvLogs false :: after)
      with ([EvLogs true] ++ during ++ [EvLogs false] ++ after).
    rewrite !submitted_app. reflexivity.
  - rewrite !container_calls_app.
    destruct (prelude_silent (setup_trace e args) (setup_trace_prelude e args))
      as (_ & _ & _ & S4).
    change (container_calls (EvClient None :: setup_trace e args))
      with (container_calls (setup_trace e args)).
    rewrite S4.
    destruct (pump_obeys fuel e args [] None _ _ _ Hp) as [(new' & Tn' & Fn) _].
    cbn [extend init trace app] in Tn'.
    assert (new' = new) by (rewrite Tn in Tn'; injection Tn' as Tn';
                            apply app_inv_head in Tn'; congruence).
    subst new'.
    rewrite (container_calls_none is_pump_event new pump_no_call Fn).
    reflexivity.
Qed.

Lemma no_error_record_check tr :
  existsb is_error_record tr = false -> no_error_record tr.
Proof.
  intros H msg Hin.
  assert (E : existsb is_error_record tr = true)
    by (apply existsb_exists; exists (EvLog ERROR msg); split; [exact Hin|reflexivity]).
  rewrite H in E. discriminate.
Qed.

Lemma no_error_record_means_all_delivered_witness :
  let s' := snd (main 0 long_drain args init) in
  main 0 long_drain args init = (Return tt, s') /\
  no_error_record (trace s') /\
  logs_stream_end long_drain = None /\
  logs_drain_end long_drain = None /\
  concat (delivered (trace s'))
  = stamp long_drain 0
      (accepted (logs_stream long_drain) ++ accepted (logs_drain long_drain)) /\
  container_calls (trace s') = [EvStop None; EvRemove None].
Proof.
  intros s'.
  assert (Hm : main 0 long_drain args init = (Return tt, s'))
    by (vm_compute; reflexivity).
  assert (Hn : no_error_record (trace s'))
    by (apply no_error_record_check; vm_compute; reflexivity).
  split; [exact Hm|]. split; [exact Hn|].
  exact (no_error_record_means_all_delivered 0 long_drain args s' Hm Hn).
Defined.
